(** * Swizzle editor: configuration transform, resize renormaliser, sequence detector

    A shallow embedding of [src/utils/configTransform.ts] and
    [src/utils/sequenceDetector.ts], and the properties of their
    specification.

    JavaScript numbers are IEEE 754 binary64 values: they are modelled by
    Rocq's primitive floats, so [+], [-], [/], [<] and [===] on numbers are
    the operations the program runs.  Frame numbers of file sequences are
    integers obtained by [parseInt]; they are modelled by [Z], which is
    exact below 2^53, and the properties that depend on their values are
    stated for frame numbers the program computes with exactly
    ([safe_frames]).  Strings are
    [string]s of 8-bit characters; a file name is held as its UTF-8
    encoding. *)

From Stdlib Require Import PrimFloat ZArith Ascii String List Lia.
From Stdlib Require Import Decimal DecimalNat DecimalString DecimalZ.
From Stdlib Require Import Sorted Permutation.
From stdpp Require Import base option list strings.
Import ListNotations.

Local Open Scope string_scope.
Local Open Scope list_scope.

(** ** Decimal rendering of array indices and integers *)

(** [String(n)] / template interpolation of a non-negative integer. *)
Definition nat_to_string (n : nat) : string :=
  NilEmpty.string_of_uint (Nat.to_uint n).

(** [n.toString()] for an integer [n]: all its digits, which is what the
    program prints for an integer below 10^21. *)
Definition Z_to_string (z : Z) : string :=
  NilZero.string_of_int (Z.to_int z).

(** ** JavaScript values without identity

    The values [js-yaml] produces and consumes, as trees.  An object is the
    list of its own enumerable properties in insertion order (keys pairwise
    distinct in every value that stands for a JavaScript object). *)

#[warnings="-register-all"]
Inductive JValue : Type :=
| JUndefined
| JNull
| JBool (b : bool)
| JNum (n : float)
| JStr (s : string)
| JArr (elems : list JValue)
| JObj (props : list (string * JValue)).

Inductive JsType := TUndefined | TObject | TBoolean | TNumber | TString.

Definition typeof (v : JValue) : JsType :=
  match v with
  | JUndefined => TUndefined
  | JNull => TObject
  | JBool _ => TBoolean
  | JNum _ => TNumber
  | JStr _ => TString
  | JArr _ | JObj _ => TObject
  end.

Definition JsType_eqb (a b : JsType) : bool :=
  match a, b with
  | TUndefined, TUndefined | TObject, TObject | TBoolean, TBoolean
  | TNumber, TNumber | TString, TString => true
  | _, _ => false
  end.

Definition is_null (v : JValue) : bool :=
  match v with JNull => true | _ => false end.

Definition isArray (v : JValue) : bool :=
  match v with JArr _ => true | _ => false end.

Fixpoint lookup_prop (k : string) (ps : list (string * JValue)) : JValue :=
  match ps with
  | [] => JUndefined
  | (k', v) :: ps' => if String.eqb k k' then v else lookup_prop k ps'
  end.

(** [value.k] for the property names this program reads (none of them is
    an array index, [length] or a prototype member).  Reading a property of
    [null] or [undefined] throws in JavaScript: every use of [get] below is
    guarded by [isRecord], a truthiness test or [?.], or the caller models
    the throw itself. *)
Definition get (v : JValue) (k : string) : JValue :=
  match v with
  | JObj ps => lookup_prop k ps
  | _ => JUndefined
  end.

(** [value?.k] *)
Definition opt_get (v : JValue) (k : string) : JValue :=
  match v with
  | JUndefined | JNull => JUndefined
  | _ => get v k
  end.

(** Truthiness: [undefined], [null], [false], [0], [-0], [NaN] and the empty
    string are falsy. *)
Definition truthy (v : JValue) : bool :=
  match v with
  | JUndefined | JNull => false
  | JBool b => b
  | JNum n => negb (PrimFloat.eqb n 0 || PrimFloat.is_nan n)
  | JStr s => negb (String.eqb s EmptyString)
  | JArr _ | JObj _ => true
  end.

(** [v === s] for a string literal [s]. *)
Definition is_str (v : JValue) (s : string) : bool :=
  match v with JStr s' => String.eqb s' s | _ => false end.

(** [v < c], used only where [typeof v === 'number'] has been tested. *)
Definition num_ltb (v : JValue) (c : float) : bool :=
  match v with JNum n => PrimFloat.ltb n c | _ => false end.

(** The own enumerable properties copied by the object spread [{...v}]. *)
Definition indexed {A} (f : A -> JValue) (l : list A) : list (string * JValue) :=
  imap (fun i a => (nat_to_string i, f a)) l.

Definition spread (v : JValue) : list (string * JValue) :=
  match v with
  | JObj ps => ps
  | JArr l => indexed (fun x => x) l
  | JStr s => indexed (fun c => JStr (String c EmptyString)) (list_ascii_of_string s)
  | _ => []
  end.

(** ** configTransform.ts: import, export, validation *)

Definition isRecord (value : JValue) : bool :=
  JsType_eqb (typeof value) TObject && negb (is_null value).

Definition isEmitterConfig (value : JValue) : bool :=
  if negb (isRecord value) then false else
  if negb (JsType_eqb (typeof (get value "type")) TString) then false else
  let rateRequired :=
    negb (is_str (get value "type") "burst") && negb (is_str (get value "type") "triggered") in
  if rateRequired && negb (JsType_eqb (typeof (get value "emissionRate")) TNumber) then false else
  if negb (isRecord (get value "position")) then false else
  if negb (JsType_eqb (typeof (get (get value "position") "x")) TNumber)
     || negb (JsType_eqb (typeof (get (get value "position") "y")) TNumber) then false else
  isRecord (get value "particle")
  && JsType_eqb (typeof (get (get value "particle") "type")) TString.

(** [ParsedYamlConfig]: an absent field is [JUndefined]. *)
Record ParsedYamlConfig := {
  parsed_system : JValue;
  parsed_emitters : JValue
}.

Definition toParsedYamlConfig (value : JValue) : ParsedYamlConfig :=
  if negb (isRecord value) then
    {| parsed_system := JUndefined; parsed_emitters := JUndefined |}
  else
    {| parsed_system := if isRecord (get value "system") then get value "system" else JUndefined;
       parsed_emitters := get value "emitters" |}.

Record SystemConfig := {
  maxParticles : float;
  autoStart : bool
}.

(** [EditorConfig] of [src/store/types.ts].  The validator tests at run time
    that [system] is present and that [emitters] is an array, so the two
    fields are kept as loose as those tests read them. *)
Record EditorConfig := {
  system : option SystemConfig;
  emitters : JValue
}.

Definition systemToJValue (s : SystemConfig) : JValue :=
  JObj [("maxParticles", JNum (maxParticles s)); ("autoStart", JBool (autoStart s))].

Section Codec.

(** [js-yaml]: the text type, [load] (a parse error carries its message; an
    empty document loads as [undefined]) and [dump] with the options the
    program passes.  Loaded values are finite trees of maps, sequences and
    scalars: a document whose aliases make a value contain itself, and the
    scalars [js-yaml] loads as [Date] or [Uint8Array], are outside this
    model. *)
Variable Text : Type.
Variable load : Text -> string + JValue.
Variable dump : JValue -> Text.

(** [config.emitters.map] and [config.system.maxParticles] throw a
    [TypeError] ([None]) when [emitters] is not an array or [system] is
    absent. *)
Definition editorConfigToYAML (config : EditorConfig) : option Text :=
  match emitters config, system config with
  | JArr es, Some s =>
      let emitters := map (fun emitter => JObj (spread emitter)) es in
      let yamlConfig := JObj [("system", systemToJValue s); ("emitters", JArr emitters)] in
      Some (dump yamlConfig)
  | _, _ => None
  end.

Definition yamlToEditorConfig (yaml : Text) : string + EditorConfig :=
  match load yaml with
  | inl msg => inl ("Failed to parse YAML: " +:+ msg)
  | inr value =>
      let parsed := toParsedYamlConfig value in
      let emitters :=
        match parsed_emitters parsed with
        | JArr es => List.filter isEmitterConfig es
        | _ => []
        end in
      let maxParticles :=
        match opt_get (parsed_system parsed) "maxParticles" with
        | JNum n => n
        | _ => 1000%float
        end in
      let autoStart :=
        match opt_get (parsed_system parsed) "autoStart" with
        | JBool b => b
        | _ => true
        end in
      inr {| system := Some {| maxParticles := maxParticles; autoStart := autoStart |};
             emitters := JArr emitters |}
  end.

End Codec.

Arguments editorConfigToYAML {Text} dump config.
Arguments yamlToEditorConfig {Text} load yaml.

(** *** validateEditorConfig *)

Record Validation := {
  valid : bool;
  errors : list string
}.

Definition emitter_label (index : nat) : string :=
  "Emitter " +:+ nat_to_string index.

Definition msg_missing_type (index : nat) : string :=
  emitter_label index +:+ ": Missing type".
Definition msg_invalid_position (index : nat) : string :=
  emitter_label index +:+ ": Invalid position".
Definition msg_invalid_emissionRate (index : nat) : string :=
  emitter_label index +:+ ": Invalid emissionRate".
Definition msg_burstCount (index : nat) : string :=
  emitter_label index +:+ ": burstCount must be a number >= 1".
Definition msg_missing_particle (index : nat) : string :=
  emitter_label index +:+ ": Missing particle configuration".
Definition msg_missing_particle_type (index : nat) : string :=
  emitter_label index +:+ ": Missing particle type".
Definition msg_missing_lifetime (index : nat) : string :=
  emitter_label index +:+ ": Missing particle lifetime".

Definition when (b : bool) (msg : string) : list string :=
  if b then [msg] else [].

(** The body of the [forEach] callback: the errors it pushes, in order, for
    an emitter that is not [null] or [undefined]. *)
Definition emitterErrors (index : nat) (emitter : JValue) : list string :=
  let rateRequired :=
    negb (is_str (get emitter "type") "burst")
    && negb (is_str (get emitter "type") "triggered") in
  when (negb (truthy (get emitter "type"))) (msg_missing_type index)
  ++ when (negb (truthy (get emitter "position"))
           || negb (JsType_eqb (typeof (get (get emitter "position") "x")) TNumber)
           || negb (JsType_eqb (typeof (get (get emitter "position") "y")) TNumber))
          (msg_invalid_position index)
  ++ when (rateRequired
           && (negb (JsType_eqb (typeof (get emitter "emissionRate")) TNumber)
               || num_ltb (get emitter "emissionRate") 0))
          (msg_invalid_emissionRate index)
  ++ (if is_str (get emitter "type") "burst" then
        let burstCount := get emitter "burstCount" in
        when (negb (JsType_eqb (typeof burstCount) TNumber) || num_ltb burstCount 1)
             (msg_burstCount index)
      else [])
  ++ (if negb (truthy (get emitter "particle")) then
        [msg_missing_particle index]
      else
        when (negb (truthy (get (get emitter "particle") "type")))
             (msg_missing_particle_type index)
        ++ when (negb (truthy (get (get emitter "particle") "lifetime")))
                (msg_missing_lifetime index)).

Definition nullish (v : JValue) : bool :=
  match v with JUndefined | JNull => true | _ => false end.

(** [config.emitters.forEach]: reading [emitter.type] of an entry that is
    [null] or [undefined] throws a [TypeError] ([None]). *)
Fixpoint forEachEmitter (index : nat) (es : list JValue) : option (list string) :=
  match es with
  | [] => Some []
  | emitter :: rest =>
      if nullish emitter then None
      else
        match forEachEmitter (S index) rest with
        | Some errs => Some (emitterErrors index emitter ++ errs)
        | None => None
        end
  end.

Definition systemErrors (config : EditorConfig) : list string :=
  match system config with
  | None => ["Missing system configuration"]
  | Some s =>
      when (PrimFloat.ltb (maxParticles s) 1 || PrimFloat.ltb 10000 (maxParticles s))
           "maxParticles must be between 1 and 10000"
  end.

Definition validateEditorConfig (config : EditorConfig) : option Validation :=
  let emitterPart :=
    match emitters config with
    | JArr es =>
        if Nat.eqb (length es) 0 then Some [] else forEachEmitter 0 es
    | _ => Some ["Emitters must be an array"]
    end in
  match emitterPart with
  | Some errs =>
      let errors := systemErrors config ++ errs in
      Some {| valid := Nat.eqb (length errors) 0; errors := errors |}
  | None => None
  end.

(** ** Objects with identity: the store

    [recentreEmittersOnResize] is specified up to reference identity (it
    returns "the same reference", it "never mutates its arguments"), so its
    embedding runs on an explicit store: a value is a primitive or a
    reference, a reference names a cell of the store, and allocation extends
    the store at its end. *)

Abbreviation loc := nat.

Inductive val : Type :=
| VUndefined
| VNull
| VBool (b : bool)
| VNum (n : float)
| VStr (s : string)
| VRef (l : loc).

Inductive cell : Type :=
| CObj (props : list (string * val))
| CArr (elems : list val).

Abbreviation heap := (list cell).

(** A run either returns or stops: with a [TypeError] the program throws, or
    at an operation this model does not cover ([OutsideModel]: string
    concatenation with a formatted number, [ToPrimitive] of an object, a
    dangling reference). *)
Inductive error := TypeError | OutsideModel.

Definition M (A : Type) : Type := heap -> (error + A) * heap.

Definition ret {A} (a : A) : M A := fun h => (inr a, h).

Definition throw {A} (e : error) : M A := fun h => (inl e, h).

Definition bind {A B} (m : M A) (f : A -> M B) : M B :=
  fun h =>
    match m h with
    | (inr a, h') => f a h'
    | (inl e, h') => (inl e, h')
    end.

Notation "'let*' x ':=' m 'in' f" :=
  (bind m (fun x => f))
  (at level 10, x name, m at level 100, f at level 200).

Definition traverse {A B} (f : A -> M B) : list A -> M (list B) :=
  fix go (l : list A) : M (list B) :=
    match l with
    | [] => ret []
    | a :: l' =>
        let* b := f a in
        let* bs := go l' in
        ret (b :: bs)
    end.

Definition for_each {A} (f : A -> M unit) : list A -> M unit :=
  fix go (l : list A) : M unit :=
    match l with
    | [] => ret tt
    | a :: l' => let* _ := f a in go l'
    end.

Definition alloc (c : cell) : M val :=
  fun h => (inr (VRef (length h)), h ++ [c]).

Definition deref (l : loc) : M cell :=
  fun h =>
    match h !! l with
    | Some c => (inr c, h)
    | None => (inl OutsideModel, h)
    end.

Fixpoint prop_lookup (k : string) (ps : list (string * val)) : val :=
  match ps with
  | [] => VUndefined
  | (k', v) :: ps' => if String.eqb k k' then v else prop_lookup k ps'
  end.

Fixpoint has_key (k : string) (ps : list (string * val)) : bool :=
  match ps with
  | [] => false
  | (k', _) :: ps' => String.eqb k k' || has_key k ps'
  end.

(** Assignment to a property keeps the position of an existing key and
    appends a new one. *)
Fixpoint prop_set (k : string) (v : val) (ps : list (string * val)) : list (string * val) :=
  match ps with
  | [] => [(k, v)]
  | (k', v') :: ps' =>
      if String.eqb k k' then (k, v) :: ps' else (k', v') :: prop_set k v ps'
  end.

(** [v.k] for the property names read below (no index, [length] or
    prototype member among them). *)
Definition get_prop (v : val) (k : string) : M val :=
  match v with
  | VUndefined | VNull => throw TypeError
  | VRef l =>
      let* c := deref l in
      match c with
      | CObj ps => ret (prop_lookup k ps)
      | CArr _ => ret VUndefined
      end
  | VBool _ | VNum _ | VStr _ => ret VUndefined
  end.

(** [target[k] = v] on an object of the store. *)
Definition set_prop (target : val) (k : string) (v : val) : M unit :=
  match target with
  | VRef l =>
      fun h =>
        match h !! l with
        | Some (CObj ps) => (inr tt, <[l := CObj (prop_set k v ps)]> h)
        | _ => (inl OutsideModel, h)
        end
  | _ => throw OutsideModel
  end.

(** The own enumerable properties [{...v}] copies. *)
Definition own_props (v : val) : M (list (string * val)) :=
  match v with
  | VRef l =>
      let* c := deref l in
      match c with
      | CObj ps => ret ps
      | CArr es => ret (imap (fun i e => (nat_to_string i, e)) es)
      end
  | VStr s =>
      ret (imap (fun i c => (nat_to_string i, VStr (String c EmptyString)))
                (list_ascii_of_string s))
  | VUndefined | VNull | VBool _ | VNum _ => ret []
  end.

(** [v + d] for a number [d]: numeric addition after [ToNumber] of a
    primitive that is not a string. *)
Definition js_add (v : val) (d : float) : M val :=
  match v with
  | VNum n => ret (VNum (n + d)%float)
  | VUndefined => ret (VNum (nan + d)%float)
  | VNull => ret (VNum (0 + d)%float)
  | VBool b => ret (VNum ((if b then 1 else 0) + d)%float)
  | VStr _ | VRef _ => throw OutsideModel
  end.

(** *** Canvas-resize centring *)

Definition shiftPoint (p : val) (dx dy : float) : M val :=
  let* px := get_prop p "x" in
  let* x := js_add px dx in
  let* py := get_prop p "y" in
  let* y := js_add py dy in
  alloc (CObj [("x", x); ("y", y)]).

Definition ABSOLUTE_COORD_TYPES : list (string * list string) :=
  [("line", ["start"; "end"]); ("path", ["path"; "points"])].

(** The table is an object literal, so indexing it also finds what it
    inherits from [Object.prototype]. *)
Definition Object_prototype_members : list string :=
  ["constructor"; "hasOwnProperty"; "isPrototypeOf"; "propertyIsEnumerable";
   "toLocaleString"; "toString"; "valueOf"; "__proto__";
   "__defineGetter__"; "__defineSetter__"; "__lookupGetter__"; "__lookupSetter__"].

Fixpoint table_lookup (k : string) (t : list (string * list string)) : option (list string) :=
  match t with
  | [] => None
  | (k', fs) :: t' => if String.eqb k k' then Some fs else table_lookup k t'
  end.

Fixpoint mem_string (k : string) (l : list string) : bool :=
  match l with
  | [] => false
  | k' :: l' => String.eqb k k' || mem_string k l'
  end.

(** [ABSOLUTE_COORD_TYPES[ty]] followed by [if (fields) for (... of fields)]:
    the fields to visit.  An inherited member is truthy and not iterable
    ([TypeError]); a primitive that is not a string is converted to a key
    that names nothing. *)
Definition coord_fields (ty : val) : M (list string) :=
  match ty with
  | VStr s =>
      match table_lookup s ABSOLUTE_COORD_TYPES with
      | Some fs => ret fs
      | None =>
          if mem_string s Object_prototype_members then throw TypeError else ret []
      end
  | VUndefined | VNull | VBool _ | VNum _ => ret []
  | VRef _ => throw OutsideModel
  end.

(** One turn of the loop over [fields]. *)
Definition shiftField (emitter updated : val) (dx dy : float) (field : string) : M unit :=
  let* value := get_prop emitter field in
  match value with
  | VRef l =>
      let* c := deref l in
      match c with
      | CArr ps =>
          let* shifted := traverse (fun p => shiftPoint p dx dy) ps in
          let* arr := alloc (CArr shifted) in
          set_prop updated field arr
      | CObj props =>
          if has_key "x" props && has_key "y" props then
            let* q := shiftPoint value dx dy in
            set_prop updated field q
          else ret tt
      end
  | _ => ret tt
  end.

(** The callback of [emitters.map]. *)
Definition recentreEmitter (dx dy : float) (emitter : val) : M val :=
  let* props := own_props emitter in
  let* updated := alloc (CObj props) in
  let* position := get_prop emitter "position" in
  let* shifted := shiftPoint position dx dy in
  let* _ := set_prop updated "position" shifted in
  let* ty := get_prop emitter "type" in
  let* fields := coord_fields ty in
  let* _ := for_each (shiftField emitter updated dx dy) fields in
  ret updated.

(** [emitters.length === 0] and [emitters.map]: what is left to map, or
    [None] when the length is zero.  A value that is not an array has no
    [map] method ([TypeError]). *)
Definition elements_to_map (emitters : val) : M (option (list val)) :=
  match emitters with
  | VUndefined | VNull => throw TypeError
  | VRef l =>
      let* c := deref l in
      match c with
      | CArr [] => ret None
      | CArr es => ret (Some es)
      | CObj ps =>
          match prop_lookup "length" ps with
          | VNum n => if PrimFloat.eqb n 0 then ret None else throw TypeError
          | _ => throw TypeError
          end
      end
  | VStr s => if String.eqb s EmptyString then ret None else throw TypeError
  | VBool _ | VNum _ => throw TypeError
  end.

Definition recentreEmittersOnResize
    (emitters : val) (oldWidth oldHeight newWidth newHeight : float) : M val :=
  let dx := (newWidth / 2 - oldWidth / 2)%float in
  let dy := (newHeight / 2 - oldHeight / 2)%float in
  if PrimFloat.eqb dx 0 && PrimFloat.eqb dy 0 then ret emitters
  else
    let* todo := elements_to_map emitters in
    match todo with
    | None => ret emitters
    | Some es =>
        let* out := traverse (recentreEmitter dx dy) es in
        alloc (CArr out)
    end.

(** *** Defaults for new emitters *)

Definition VELOCITY_EMITTER_TYPES : list string :=
  ["point"; "circle"; "area"; "line"; "polygon"; "path"; "burst"; "timed"].

(** [getDefaultParticleConfig(emitterType?)]: [None] is the argument left
    out; the empty string is falsy. *)
Definition getDefaultParticleConfig (emitterType : option string) : JValue :=
  let behaviors :=
    match emitterType with
    | Some ty =>
        if negb (String.eqb ty EmptyString) && mem_string ty VELOCITY_EMITTER_TYPES
        then [JObj [("type", JStr "velocity"); ("priority", JNum 5)]]
        else []
    | None => []
    end in
  JObj [("type", JStr "sprite");
        ("texture", JStr "default");
        ("lifetime", JObj [("min", JNum 1.0); ("max", JNum 2.0)]);
        ("behaviors", JArr behaviors)].

#[warnings="-inexact-float"] Definition getDefaultVelocityConfig (emitterType : string) : JValue :=
  if String.eqb emitterType "circle" then
    JObj [("mode", JStr "radial");
          ("angle", JObj [("min", JNum 0); ("max", JNum 6.283185)]);
          ("speed", JObj [("min", JNum 100); ("max", JNum 200)])]
  else if String.eqb emitterType "point" then
    JObj [("mode", JStr "radial");
          ("angle", JObj [("min", JNum 0); ("max", JNum 6.283185)]);
          ("speed", JObj [("min", JNum 150); ("max", JNum 250)])]
  else if String.eqb emitterType "area" then
    JObj [("mode", JStr "radial");
          ("angle", JObj [("min", JNum (-0.785398)); ("max", JNum 0.785398)]);
          ("speed", JObj [("min", JNum 100); ("max", JNum 200)])]
  else if String.eqb emitterType "line" then
    JObj [("mode", JStr "radial");
          ("angle", JObj [("min", JNum (-1.570796)); ("max", JNum (-1.570796))]);
          ("speed", JObj [("min", JNum 100); ("max", JNum 200)])]
  else if String.eqb emitterType "burst" then
    JObj [("mode", JStr "radial");
          ("angle", JObj [("min", JNum 0); ("max", JNum 6.283185)]);
          ("speed", JObj [("min", JNum 150); ("max", JNum 300)])]
  else
    JObj [("mode", JStr "radial");
          ("angle", JObj [("min", JNum 0); ("max", JNum 6.283185)]);
          ("speed", JObj [("min", JNum 100); ("max", JNum 200)])].

(** *** Moving trees into and out of the store *)

Fixpoint store_value (v : JValue) : M val :=
  match v with
  | JUndefined => ret VUndefined
  | JNull => ret VNull
  | JBool b => ret (VBool b)
  | JNum n => ret (VNum n)
  | JStr s => ret (VStr s)
  | JArr l =>
      let* vs := traverse store_value l in
      alloc (CArr vs)
  | JObj ps =>
      let* qs := traverse (fun kv => let* x := store_value (snd kv) in ret (fst kv, x)) ps in
      alloc (CObj qs)
  end.

Fixpoint read_value (fuel : nat) (h : heap) (v : val) : option JValue :=
  match v with
  | VUndefined => Some JUndefined
  | VNull => Some JNull
  | VBool b => Some (JBool b)
  | VNum n => Some (JNum n)
  | VStr s => Some (JStr s)
  | VRef l =>
      match fuel with
      | O => None
      | S fuel' =>
          match h !! l with
          | Some (CArr es) =>
              option_map JArr (mapM (M := option) (read_value fuel' h) es)
          | Some (CObj ps) =>
              option_map JObj
                (mapM (M := option)
                      (fun kv => option_map (pair (fst kv)) (read_value fuel' h (snd kv))) ps)
          | None => None
          end
      end
  end.

(** ** sequenceDetector.ts *)

Module SequenceDetector.

(** A [File] handle: the detector reads its [name] only. *)
Record File := {
  name : string;
  size : Z
}.

Record FrameInfo := {
  base : string;
  number : Z;
  padding : nat;
  extension : string
}.

Record SequenceInfo := {
  baseName : string;
  pattern : string;
  startFrame : Z;
  endFrame : Z;
  seqPadding : nat;  (* the field [padding] of [SequenceInfo] *)
  gaps : list Z;
  files : list File
}.

(** *** The filename pattern [/^(.+?)_?(\d+)\.([^.]+)$/] *)

Definition is_digit (c : ascii) : bool :=
  Nat.leb 48 (nat_of_ascii c) && Nat.leb (nat_of_ascii c) 57.

(** A file name is held as the bytes of its UTF-8 encoding.  The
    characters the pattern names (the underscore, the digits, the dot) are
    single bytes there, as are LF and CR, and none of them is part of the
    encoding of another character: the pattern reads the bytes as it reads
    the characters.

    [.] matches any character but a line terminator: LF, CR, U+2028 and
    U+2029.  The last two are the bytes E2 80 A8 and E2 80 A9. *)
Definition is_line_terminator (c : ascii) : bool :=
  Nat.eqb (nat_of_ascii c) 10 || Nat.eqb (nat_of_ascii c) 13.

(** A line terminator starts [s]. *)
Definition at_line_terminator (s : string) : bool :=
  match s with
  | EmptyString => false
  | String c s' =>
      is_line_terminator c
      || (Nat.eqb (nat_of_ascii c) 226
          && match s' with
             | String c1 (String c2 _) =>
                 Nat.eqb (nat_of_ascii c1) 128
                 && (Nat.eqb (nat_of_ascii c2) 168 || Nat.eqb (nat_of_ascii c2) 169)
             | _ => false
             end)
  end.

Definition is_dot (c : ascii) : bool := Ascii.eqb c ".".

Definition is_underscore (c : ascii) : bool := Ascii.eqb c "_".

(** The longest run of digits at the start of [s], and what follows it. *)
Fixpoint take_digits (s : string) : string * string :=
  match s with
  | EmptyString => (EmptyString, EmptyString)
  | String c s' =>
      if is_digit c then
        let (d, r) := take_digits s' in (String c d, r)
      else (EmptyString, s)
  end.

Fixpoint no_dot (s : string) : bool :=
  match s with
  | EmptyString => true
  | String c s' => negb (is_dot c) && no_dot s'
  end.

(** [_?(\d+)\.([^.]+)$] matched at the start of [s].  Backtracking cannot
    help: a shorter run of digits is followed by a digit, not by a dot; an
    underscore left unconsumed is not a digit; and an extension cut short
    does not reach the end of the name. *)
Definition match_tail (s : string) : option (string * string) :=
  let s1 :=
    match s with
    | String c s' => if is_underscore c then s' else s
    | EmptyString => s
    end in
  match take_digits s1 with
  | (EmptyString, _) => None
  | (numberStr, String c ext) =>
      if is_dot c && negb (String.eqb ext EmptyString) && no_dot ext
      then Some (numberStr, ext)
      else None
  | (_, EmptyString) => None
  end.

(** The lazy group [(.+?)]: the shortest non-empty [base] after which the
    rest of the pattern matches.  The group grows over [rest] until a line
    terminator starts there; the bytes of a character of several bytes are
    taken one by one: none of them is an underscore or a digit, so the rest
    of the pattern matches at none of them. *)
Fixpoint scan_base (base : string) (rest : string) : option (string * string * string) :=
  match match_tail rest with
  | Some (numberStr, ext) => Some (base, numberStr, ext)
  | None =>
      match rest with
      | EmptyString => None
      | String c rest' =>
          if at_line_terminator rest then None
          else scan_base (base +:+ String c EmptyString) rest'
      end
  end.

Definition regex_match (filename : string) : option (string * string * string) :=
  match filename with
  | EmptyString => None
  | String c rest =>
      if at_line_terminator filename then None
      else scan_base (String c EmptyString) rest
  end.

(** [parseInt(numberStr, 10)] on a string of decimal digits: the number
    the digits denote.  A JavaScript number holds it exactly when it is below
    2^53; a greater one is rounded to a binary64 value. *)
Definition digit_value (c : ascii) : Z := Z.of_nat (nat_of_ascii c - 48).

Definition parseInt (s : string) : Z :=
  fold_left (fun acc c => 10 * acc + digit_value c)%Z (list_ascii_of_string s) 0%Z.

Definition includes_underscore (s : string) : bool :=
  existsb is_underscore (list_ascii_of_string s).

Definition extractFrameInfo (filename : string) : option FrameInfo :=
  match regex_match filename with
  | None => None
  | Some (base, numberStr, extension) =>
      Some {| base := base +:+ (if includes_underscore filename then "_" else EmptyString);
              number := parseInt numberStr;
              padding := String.length numberStr;
              extension := extension |}
  end.

(** *** detectSequence *)

(** An entry of [frameInfos] once the entries without frame info are
    filtered out. *)
Record Item := {
  file : File;
  info : FrameInfo
}.

Definition frameInfos (files : list File) : list Item :=
  omap (fun file =>
          match extractFrameInfo (name file) with
          | Some info => Some {| file := file; info := info |}
          | None => None
          end) files.

Definition group_key (i : FrameInfo) : string :=
  base i +:+ "_" +:+ extension i.

(** [groups.get(key).push(item)] on a [Map], which keeps its keys in
    insertion order. *)
Fixpoint push_group (key : string) (item : Item) (groups : list (string * list Item))
  : list (string * list Item) :=
  match groups with
  | [] => [(key, [item])]
  | (k, g) :: rest =>
      if String.eqb key k then (k, g ++ [item]) :: rest
      else (k, g) :: push_group key item rest
  end.

Definition group_items (items : list Item) : list (string * list Item) :=
  fold_left (fun groups item => push_group (group_key (info item)) item groups) items [].

Definition largest_group (groups : list (string * list Item)) : list Item :=
  fold_left (fun largestGroup kg =>
               if Nat.ltb (length largestGroup) (length (snd kg)) then snd kg
               else largestGroup)
            groups [].

(** [largestGroup.sort((a, b) => a.info.number - b.info.number)]: the sort
    is stable, an item goes after the items that do not exceed it. *)
Fixpoint insert_item (x : Item) (sorted : list Item) : list Item :=
  match sorted with
  | [] => [x]
  | y :: ys =>
      if (number (info x) <? number (info y))%Z then x :: y :: ys
      else y :: insert_item x ys
  end.

Definition sort_items (l : list Item) : list Item :=
  fold_left (fun acc x => insert_item x acc) l [].

(** [for (let i = first + 1; i < last; i++)]: the integers strictly between
    [first] and [last], which the loop visits one by one when [last] is below
    2^53; from there on [i++] does not count through the integers. *)
Definition between (first last : Z) : list Z :=
  map (fun k => first + 1 + Z.of_nat k)%Z (seq 0 (Z.to_nat (last - first - 1))).

Definition find_gaps (first last : Z) (frameNumbers : list Z) : list Z :=
  List.filter (fun i => negb (existsb (Z.eqb i) frameNumbers)) (between first last).

(** [paddingCounts.set(padding, (paddingCounts.get(padding) || 0) + 1)] *)
Fixpoint count_padding (p : nat) (counts : list (nat * nat)) : list (nat * nat) :=
  match counts with
  | [] => [(p, 1)]
  | (q, c) :: rest =>
      if Nat.eqb p q then (q, c + 1) :: rest else (q, c) :: count_padding p rest
  end.

Definition most_common_padding (group : list Item) : nat :=
  let paddingCounts :=
    fold_left (fun counts item => count_padding (padding (info item)) counts) group [] in
  fst (fold_left (fun (acc : nat * nat) pc =>
                    if Nat.ltb (snd acc) (snd pc) then (fst pc, snd pc) else acc)
                 paddingCounts (0, 0)).

Fixpoint zeros (n : nat) : string :=
  match n with
  | O => EmptyString
  | S n' => String "0" (zeros n')
  end.

Definition padStart (s : string) (width : nat) : string :=
  zeros (width - String.length s) +:+ s.

(** [s.replace(/_$/, '')] *)
Fixpoint strip_trailing_underscore (s : string) : string :=
  match s with
  | EmptyString => EmptyString
  | String c EmptyString => if is_underscore c then EmptyString else s
  | String c s' => String c (strip_trailing_underscore s')
  end.

Definition detectSequence (files : list File) : option SequenceInfo :=
  if Nat.ltb (length files) 2 then None else
  let frameInfos := frameInfos files in
  if Nat.ltb (length frameInfos) 2 then None else
  let groups := group_items frameInfos in
  let largestGroup := largest_group groups in
  if Nat.ltb (length largestGroup) 2 then None else
  let largestGroup := sort_items largestGroup in
  match largestGroup with
  | [] => None
  | first :: _ =>
      let firstInfo := info first in
      let lastInfo := info (List.last largestGroup first) in
      let frameNumbers := map (fun item => number (info item)) largestGroup in
      let gaps := find_gaps (number firstInfo) (number lastInfo) frameNumbers in
      let maxPadding := most_common_padding largestGroup in
      let startStr := padStart (Z_to_string (number firstInfo)) maxPadding in
      let endStr := padStart (Z_to_string (number lastInfo)) maxPadding in
      let pattern :=
        base firstInfo +:+ "{" +:+ startStr +:+ "-" +:+ endStr +:+ "}." +:+ extension firstInfo in
      Some {| baseName := strip_trailing_underscore (base firstInfo);
              pattern := pattern;
              startFrame := number firstInfo;
              endFrame := number lastInfo;
              seqPadding := maxPadding;
              gaps := gaps;
              files := map file largestGroup |}
  end.

(** *** validateSequence *)

Record SequenceValidation := {
  valid : bool;
  warnings : list string
}.

Definition join (sep : string) (l : list string) : string := String.concat sep l.

Definition validateSequence (sequence : SequenceInfo) : SequenceValidation :=
  let gapWarning :=
    if Nat.ltb 0 (length (gaps sequence)) then
      ["Missing frames: " +:+ join ", " (map Z_to_string (gaps sequence))
       +:+ " (" +:+ nat_to_string (length (gaps sequence)) +:+ " gaps)"]
    else [] in
  let expectedFrames := (endFrame sequence - startFrame sequence + 1)%Z in
  let actualFrames := Z.of_nat (length (files sequence)) in
  let countWarning :=
    if (actualFrames <? expectedFrames)%Z then
      ["Expected " +:+ Z_to_string expectedFrames +:+ " frames, found "
       +:+ Z_to_string actualFrames]
    else [] in
  let minimumWarning :=
    if (actualFrames <? 2)%Z then ["Sequence has less than 2 frames"] else [] in
  let warnings := gapWarning ++ countWarning ++ minimumWarning in
  {| valid := Nat.eqb (length warnings) 0; warnings := warnings |}.

(** *** autoDetectSequences *)

Record DetectionResult := {
  sequences : list SequenceInfo;
  individualFiles : list File
}.

(** [processedFiles.has(file)] compares handles by identity, which the
    records of this model do not have: they are compared field by field.
    Two handles that are equal as records have the same name, hence the same
    group key, and a group holds every file of its key; so both are among
    the files of the sequence or neither is, and the test by fields selects
    the files the test by identity selects. *)
Definition File_eqb (a b : File) : bool :=
  String.eqb (name a) (name b) && Z.eqb (size a) (size b).

Definition autoDetectSequences (files : list File) : DetectionResult :=
  let sequence := detectSequence files in
  let sequences := match sequence with Some s => [s] | None => [] end in
  let processedFiles :=
    match sequence with Some s => SequenceDetector.files s | None => [] end in
  let individualFiles :=
    List.filter (fun file => negb (existsb (File_eqb file) processedFiles)) files in
  {| sequences := sequences; individualFiles := individualFiles |}.

End SequenceDetector.

(** ** LayerList.tsx: the emitter a new layer starts from *)

(** The emitter types the layer menu offers ([EMITTER_TYPES]). *)
Inductive EmitterType :=
| Point | Area | Circle | Line | Polygon | Path | Burst | Timed | Triggered.

Definition EmitterType_value (type : EmitterType) : string :=
  match type with
  | Point => "point"
  | Area => "area"
  | Circle => "circle"
  | Line => "line"
  | Polygon => "polygon"
  | Path => "path"
  | Burst => "burst"
  | Timed => "timed"
  | Triggered => "triggered"
  end.

(** [c.toUpperCase()] for a character of the ASCII range. *)
Definition toUpperCase (c : ascii) : ascii :=
  let n := nat_of_ascii c in
  if Nat.leb 97 n && Nat.leb n 122 then ascii_of_nat (n - 32) else c.

(** [type.charAt(0).toUpperCase() + type.slice(1)] *)
Definition capitalise (s : string) : string :=
  match s with
  | EmptyString => EmptyString
  | String c rest => String (toUpperCase c) rest
  end.

(** [defaultEmitter] of [handleAddEmitter], for the centre [(cx, cy)] of the
    viewport: the object literal, then the assignments of the [switch]. *)
Definition defaultEmitter (type : EmitterType) (cx cy : float) : JValue :=
  let ty := EmitterType_value type in
  JObj ([("type", JStr ty);
         ("name", JStr (capitalise ty +:+ " Emitter"));
         ("position", JObj [("x", JNum cx); ("y", JNum cy)])]
        ++ (if negb (String.eqb ty "burst") && negb (String.eqb ty "triggered")
            then [("emissionRate", JNum 50)] else [])
        ++ [("particle", getDefaultParticleConfig (Some ty));
            ("velocity", getDefaultVelocityConfig ty)]
        ++ match type with
           | Circle => [("radius", JNum 80); ("edgeEmit", JBool false)]
           | Area => [("width", JNum 200); ("height", JNum 100)]
           | Line =>
               [("start", JObj [("x", JNum (cx - 100)); ("y", JNum cy)]);
                ("end", JObj [("x", JNum (cx + 100)); ("y", JNum cy)])]
           | Polygon =>
               [("vertices",
                 JArr [JObj [("x", JNum 0); ("y", JNum (-50))];
                       JObj [("x", JNum 50); ("y", JNum 50)];
                       JObj [("x", JNum (-50)); ("y", JNum 50)]])]
           | Path =>
               [("path",
                 JArr [JObj [("x", JNum (cx - 100)); ("y", JNum cy)];
                       JObj [("x", JNum cx); ("y", JNum (cy - 50))];
                       JObj [("x", JNum (cx + 100)); ("y", JNum cy)]])]
           | Burst =>
               [("burstCount", JNum 10); ("burstInterval", JNum 1.0);
                ("burstLimit", JNum (-1))]
           | Triggered => [("particlesPerTrigger", JNum 10)]
           | Point | Timed => []
           end).

(** ** editorStore.ts: the two actions that call the renormaliser *)

(** [a === b] *)
Definition strict_eq (a b : val) : bool :=
  match a, b with
  | VUndefined, VUndefined | VNull, VNull => true
  | VBool x, VBool y => Bool.eqb x y
  | VNum x, VNum y => PrimFloat.eqb x y
  | VStr x, VStr y => String.eqb x y
  | VRef x, VRef y => Nat.eqb x y
  | _, _ => false
  end.

(** [v.length > 0] for an array [v] of the store. *)
Definition array_nonempty (v : val) : M bool :=
  match v with
  | VUndefined | VNull => throw TypeError
  | VRef l =>
      let* c := deref l in
      match c with
      | CArr es => ret (Nat.ltb 0 (length es))
      | CObj _ => throw OutsideModel
      end
  | VBool _ | VNum _ | VStr _ => throw OutsideModel
  end.

Module EditorStore.

(** The [ui] slice.  A selection is an index or [null]; the set of hidden
    indices is kept as a list; [backgroundColor] is the number [0x1a1a1a]. *)
Record UIState := {
  selectedEmitterIndex : option nat;
  selectedBehaviorIndex : option nat;
  previewState : string;
  showDebugMetrics : bool;
  timeScale : float;
  backgroundColor : float;
  hasUnsavedChanges : bool;
  showGrid : bool;
  gridSize : float;
  zoom : float;
  hiddenEmitterIndices : list nat;
  canvasWidth : float;
  canvasHeight : float;
  inspectorSearch : string
}.

Definition createDefaultUIState : UIState :=
  {| selectedEmitterIndex := None;
     selectedBehaviorIndex := None;
     previewState := "stopped";
     showDebugMetrics := false;
     timeScale := 1.0;
     backgroundColor := 1710618;
     hasUnsavedChanges := false;
     showGrid := true;
     gridSize := 50;
     zoom := 1.0;
     hiddenEmitterIndices := [];
     canvasWidth := 800;
     canvasHeight := 600;
     inspectorSearch := EmptyString |}.

(** The slices of the state the two actions write: [config] and [assets]
    are references to objects of the store, [ui] is replaced as a whole. *)
Record EditorState := {
  config : val;
  assets : val;
  ui : UIState
}.

(** [{ ...ui, canvasWidth, canvasHeight }] *)
Definition with_canvas (ui : UIState) (canvasWidth canvasHeight : float) : UIState :=
  {| selectedEmitterIndex := selectedEmitterIndex ui;
     selectedBehaviorIndex := selectedBehaviorIndex ui;
     previewState := previewState ui;
     showDebugMetrics := showDebugMetrics ui;
     timeScale := timeScale ui;
     backgroundColor := backgroundColor ui;
     hasUnsavedChanges := hasUnsavedChanges ui;
     showGrid := showGrid ui;
     gridSize := gridSize ui;
     zoom := zoom ui;
     hiddenEmitterIndices := hiddenEmitterIndices ui;
     canvasWidth := canvasWidth;
     canvasHeight := canvasHeight;
     inspectorSearch := inspectorSearch ui |}.

(** [{ ...config, emitters }] *)
Definition with_emitters (config emitters : val) : M val :=
  let* props := own_props config in
  alloc (CObj (prop_set "emitters" emitters props)).

Definition setCanvasDimensions (canvasWidth canvasHeight : float) (state : EditorState)
  : M EditorState :=
  let oldW := EditorStore.canvasWidth (ui state) in
  let oldH := EditorStore.canvasHeight (ui state) in
  let* current := get_prop (config state) "emitters" in
  let* emitters := recentreEmittersOnResize current oldW oldH canvasWidth canvasHeight in
  let* current := get_prop (config state) "emitters" in
  let* config' :=
    if negb (strict_eq emitters current) then with_emitters (config state) emitters
    else ret (config state) in
  ret {| config := config';
         assets := assets state;
         ui := with_canvas (ui state) canvasWidth canvasHeight |}.

Definition loadConfig (config assets : val) (state : EditorState) : M EditorState :=
  let canvasWidth := EditorStore.canvasWidth (ui state) in
  let canvasHeight := EditorStore.canvasHeight (ui state) in
  let defaults := createDefaultUIState in
  let* loaded := get_prop config "emitters" in
  let* emitters :=
    recentreEmittersOnResize loaded (EditorStore.canvasWidth defaults)
                             (EditorStore.canvasHeight defaults) canvasWidth canvasHeight in
  let* config' := with_emitters config emitters in
  let* loaded := get_prop config "emitters" in
  let* nonempty := array_nonempty loaded in
  ret {| config := config';
         assets := assets;
         ui := {| selectedEmitterIndex := if nonempty then Some 0 else None;
                  selectedBehaviorIndex := selectedBehaviorIndex defaults;
                  previewState := previewState defaults;
                  showDebugMetrics := showDebugMetrics defaults;
                  timeScale := timeScale defaults;
                  backgroundColor := backgroundColor defaults;
                  hasUnsavedChanges := hasUnsavedChanges defaults;
                  showGrid := showGrid defaults;
                  gridSize := gridSize defaults;
                  zoom := zoom defaults;
                  hiddenEmitterIndices := hiddenEmitterIndices defaults;
                  canvasWidth := canvasWidth;
                  canvasHeight := canvasHeight;
                  inspectorSearch := inspectorSearch defaults |} |}.

End EditorStore.

(** ** Notions the specification is stated with *)

(** A value [js-yaml] can write and read back: no [undefined] inside. *)
Fixpoint plain_data (v : JValue) : bool :=
  match v with
  | JUndefined => false
  | JNull | JBool _ | JNum _ | JStr _ => true
  | JArr l => forallb plain_data l
  | JObj ps => forallb (fun kv => plain_data (snd kv)) ps
  end.

(** What [load] may return: plain data, or [undefined] for an empty
    document. *)
Definition loadable (v : JValue) : bool :=
  match v with
  | JUndefined => true
  | _ => plain_data v
  end.

(** The minimal shape check of an emitter entry, in the words of the
    specification: [type] is a string; [position.x] and [position.y] are
    numbers; [particle.type] is a string; and, for types other than burst and
    triggered, [emissionRate] is a number. *)
Definition shape_ok (entry : JValue) : bool :=
  JsType_eqb (typeof (get entry "type")) TString
  && JsType_eqb (typeof (get (get entry "position") "x")) TNumber
  && JsType_eqb (typeof (get (get entry "position") "y")) TNumber
  && JsType_eqb (typeof (get (get entry "particle") "type")) TString
  && (is_str (get entry "type") "burst"
      || is_str (get entry "type") "triggered"
      || JsType_eqb (typeof (get entry "emissionRate")) TNumber).

(** The validator's rules, in the words of the specification: a rate is
    required of every type but burst and triggered; a field is in error when
    it is not a number or lies below its bound. *)
Definition rate_required (emitter : JValue) : Prop :=
  get emitter "type" <> JStr "burst" /\ get emitter "type" <> JStr "triggered".

Definition not_number_or_below (v : JValue) (bound : float) : Prop :=
  typeof v <> TNumber \/ exists n, v = JNum n /\ PrimFloat.ltb n bound = true.

Fixpoint all_digits (s : string) : bool :=
  match s with
  | EmptyString => true
  | String c s' => SequenceDetector.is_digit c && all_digits s'
  end.

(** The frame numbers of a group of items, and the order the detector
    sorts by. *)
Definition frame_numbers (group : list SequenceDetector.Item) : list Z :=
  map (fun item => SequenceDetector.number (SequenceDetector.info item)) group.

Definition frame_le (a b : SequenceDetector.Item) : Prop :=
  (SequenceDetector.number (SequenceDetector.info a)
   <= SequenceDetector.number (SequenceDetector.info b))%Z.

(** The group [detectSequence] selects: the first largest group of the
    files that carry a frame number. *)
Definition selected_group (files : list SequenceDetector.File) : list SequenceDetector.Item :=
  SequenceDetector.largest_group
    (SequenceDetector.group_items (SequenceDetector.frameInfos files)).

Fixpoint total_items (groups : list (string * list SequenceDetector.Item)) : nat :=
  match groups with
  | [] => 0
  | kg :: rest => length (snd kg) + total_items rest
  end.

(** Every item of every group comes with the key of its group. *)
Definition keyed (P : SequenceDetector.Item -> Prop) (groups : list (string * list SequenceDetector.Item)) : Prop :=
  forall k g x, In (k, g) groups -> In x g -> P x /\ SequenceDetector.group_key (SequenceDetector.info x) = k.

Definition mock_file (name : string) : SequenceDetector.File :=
  {| SequenceDetector.name := name; SequenceDetector.size := 0 |}.

Definition coin_files : list SequenceDetector.File :=
  [mock_file "coin_000.png"; mock_file "coin_001.png"; mock_file "coin_002.png"].

(** Frames 0, 1, 1 and 3 of one sequence: frame 2 is missing, and a second
    file numbered 1 brings the count to the four frames of the range. *)
Definition gapped_files : list SequenceDetector.File :=
  [mock_file "coin_00.png"; mock_file "coin_01.png"; mock_file "coin_1.png";
   mock_file "coin_03.png"].

(** The gapped upload among files of another base, of another extension
    and without frame number. *)
Definition mixed_files : list SequenceDetector.File :=
  [mock_file "notes.txt"; mock_file "coin_00.png"; mock_file "tree_7.jpg";
   mock_file "coin_01.png"; mock_file "coin_1.png"; mock_file "gem_5.png";
   mock_file "coin_03.png"].

Definition gapped_sequence : SequenceDetector.SequenceInfo :=
  {| SequenceDetector.baseName := "coin";
     SequenceDetector.pattern := "coin_{00-03}.png";
     SequenceDetector.startFrame := 0;
     SequenceDetector.endFrame := 3;
     SequenceDetector.seqPadding := 2;
     SequenceDetector.gaps := [2%Z];
     SequenceDetector.files := gapped_files |}.

Definition coin_sequence : SequenceDetector.SequenceInfo :=
  {| SequenceDetector.baseName := "coin";
     SequenceDetector.pattern := "coin_{000-002}.png";
     SequenceDetector.startFrame := 0;
     SequenceDetector.endFrame := 2;
     SequenceDetector.seqPadding := 3;
     SequenceDetector.gaps := [];
     SequenceDetector.files := coin_files |}.

(** A candidate with the base [b] and the extension [e]. *)
Definition same_pair (b e : string) (item : SequenceDetector.Item) : bool :=
  String.eqb (SequenceDetector.base (SequenceDetector.info item)) b
  && String.eqb (SequenceDetector.extension (SequenceDetector.info item)) e.

(** The group of a base and an extension: the files that carry a frame
    number with that base and that extension, in the order given. *)
Definition pair_group (b e : string) (files : list SequenceDetector.File)
  : list SequenceDetector.Item :=
  List.filter (same_pair b e) (SequenceDetector.frameInfos files).

(** The group of [b] and [e] is the first largest one: no group has more
    members, and every candidate given before its first member is in a
    group with fewer. *)
Definition first_largest (b e : string) (files : list SequenceDetector.File) : Prop :=
  (forall b' e', length (pair_group b' e' files) <= length (pair_group b e files))
  /\ exists before first after,
      SequenceDetector.frameInfos files = before ++ first :: after
      /\ same_pair b e first = true
      /\ forall x,
          In x before ->
          length (pair_group (SequenceDetector.base (SequenceDetector.info x))
                             (SequenceDetector.extension (SequenceDetector.info x)) files)
          < length (pair_group b e files).

(** No extension of a candidate holds an underscore. *)
Definition plain_extensions (files : list SequenceDetector.File) : bool :=
  forallb (fun item =>
             negb (SequenceDetector.includes_underscore
                     (SequenceDetector.extension (SequenceDetector.info item))))
          (SequenceDetector.frameInfos files).

(** Two names of different bases and extensions, and what [detectSequence]
    returns for them. *)
Definition collision_files : list SequenceDetector.File :=
  [mock_file "a_1.b__c"; mock_file "a__b_2.c"].

Definition collision_sequence : SequenceDetector.SequenceInfo :=
  {| SequenceDetector.baseName := "a";
     SequenceDetector.pattern := "a_{1-2}.b__c";
     SequenceDetector.startFrame := 1;
     SequenceDetector.endFrame := 2;
     SequenceDetector.seqPadding := 1;
     SequenceDetector.gaps := [];
     SequenceDetector.files := collision_files |}.

(** Emitters and configurations of the unit tests. *)
Definition sprite_particle (lifetime : float) : JValue :=
  JObj [("type", JStr "sprite"); ("texture", JStr "default");
        ("lifetime", JNum lifetime); ("behaviors", JArr [])].

Definition point_emitter : JValue :=
  JObj [("type", JStr "point");
        ("position", JObj [("x", JNum 300); ("y", JNum 250)]);
        ("emissionRate", JNum 60);
        ("particle", sprite_particle 2)].

Definition burst_emitter : JValue :=
  JObj [("type", JStr "burst");
        ("position", JObj [("x", JNum 400); ("y", JNum 300)]);
        ("burstCount", JNum 10);
        ("particle", sprite_particle 1)].

Definition burst_emitter_without_count : JValue :=
  JObj [("type", JStr "burst");
        ("position", JObj [("x", JNum 400); ("y", JNum 300)]);
        ("particle", sprite_particle 1)].

Definition triggered_emitter : JValue :=
  JObj [("type", JStr "triggered");
        ("position", JObj [("x", JNum 400); ("y", JNum 300)]);
        ("particle", sprite_particle 1)].

(** A record without [particle]: the import drops it. *)
Definition emitter_without_particle : JValue :=
  JObj [("type", JStr "point");
        ("position", JObj [("x", JNum 10); ("y", JNum 20)]);
        ("emissionRate", JNum 5)].

Definition config_of (es : list JValue) : EditorConfig :=
  {| system := Some {| maxParticles := 1000; autoStart := true |};
     emitters := JArr es |}.

(** A document with a system section, a well-formed emitter and a
    malformed one, and the configuration it imports as. *)
Definition sample_document : JValue :=
  JObj [("system", JObj [("maxParticles", JNum 1500); ("autoStart", JBool false)]);
        ("emitters", JArr [point_emitter; emitter_without_particle])].

Definition sample_config : EditorConfig :=
  {| system := Some {| maxParticles := 1500; autoStart := false |};
     emitters := JArr [point_emitter] |}.

(** *** Reading the store

    [heap_extends h h']: every cell of [h] is a cell of [h'], unchanged. *)
Definition heap_extends (h h' : heap) : Prop :=
  forall l c, h !! l = Some c -> h' !! l = Some c.

(** Operations that read the store leave it as it is. *)
Definition reads_only {A} (m : M A) : Prop := forall h, snd (m h) = h.

(** The own properties of the object [v] refers to, the elements of the
    array [v] refers to, and the coordinates of the point [{x, y}] [v]
    refers to. *)
Definition object_props (h : heap) (v : val) : option (list (string * val)) :=
  match v with
  | VRef l => match h !! l with Some (CObj ps) => Some ps | _ => None end
  | _ => None
  end.

Definition array_elems (h : heap) (v : val) : option (list val) :=
  match v with
  | VRef l => match h !! l with Some (CArr es) => Some es | _ => None end
  | _ => None
  end.

Definition vec2_coords (h : heap) (v : val) : option (float * float) :=
  match object_props h v with
  | Some ps =>
      match prop_lookup "x" ps, prop_lookup "y" ps with
      | VNum x, VNum y => Some (x, y)
      | _, _ => None
      end
  | None => None
  end.

Definition is_vec2 (h : heap) (v : val) : bool :=
  match vec2_coords h v with Some _ => true | None => false end.

(** A reference to a cell allocated after the store had [n] cells. *)
Definition fresh_ref (n : nat) (v : val) : Prop :=
  exists l, v = VRef l /\ n <= l.

(** The fields the specification has moved with an emitter of a type:
    [start] and [end] of a line emitter, [path] and [points] of a path
    emitter, and none of an emitter of another type. *)
Definition fields_of_type (ty : val) : list string :=
  match ty with
  | VStr s =>
      if String.eqb s "line" then ["start"; "end"]
      else if String.eqb s "path" then ["path"; "points"]
      else []
  | _ => []
  end.

(** *** Emitters as [EmitterConfig] declares them

    [position] is a point with numeric coordinates; [type] is a string (and
    no name of a member of [Object.prototype]); a field of [fields_of_type]
    for the type is absent, a point, or an array of points. *)
Definition wt_coord_field (h : heap) (v : val) : bool :=
  match v with
  | VRef l =>
      match h !! l with
      | Some (CArr elems) => forallb (is_vec2 h) elems
      | Some (CObj pp) => implb (has_key "x" pp && has_key "y" pp) (is_vec2 h v)
      | None => false
      end
  | _ => true
  end.

Definition wt_emitter (h : heap) (e : val) : bool :=
  match object_props h e with
  | Some props =>
      is_vec2 h (prop_lookup "position" props)
      && match prop_lookup "type" props with
         | VStr ty =>
             negb (mem_string ty Object_prototype_members)
             && forallb (fun f => wt_coord_field h (prop_lookup f props))
                        (fields_of_type (VStr ty))
         | _ => false
         end
  | None => false
  end.

(** [translated h h' dx dy p q]: [p] is a point of [h], and [q] is that
    point moved by [(dx, dy)] in [h']. *)
Definition translated (h h' : heap) (dx dy : float) (p q : val) : Prop :=
  exists x y,
    vec2_coords h p = Some (x, y)
    /\ vec2_coords h' q = Some ((x + dx)%float, (y + dy)%float).

(** [moved_field h h' dx dy props props' f]: where the input emitter holds
    a point under [f], the output holds that point moved by [(dx, dy)]; where
    it holds an array, the output holds an array of its elements, each moved
    by [(dx, dy)]. *)
Definition moved_field (h h' : heap) (dx dy : float)
    (props props' : list (string * val)) (f : string) : Prop :=
  (forall x y, vec2_coords h (prop_lookup f props) = Some (x, y) ->
               translated h h' dx dy (prop_lookup f props) (prop_lookup f props'))
  /\ (forall elems, array_elems h (prop_lookup f props) = Some elems ->
        exists elems',
          array_elems h' (prop_lookup f props') = Some elems'
          /\ Forall2 (translated h h' dx dy) elems elems').

(** [recentred h h' dx dy e u]: the emitter [u] of [h'] is the emitter [e]
    of [h] with its position moved by [(dx, dy)], the fields of
    [fields_of_type] for its type moved when they hold a point or an array of points, and
    every other field as it was. *)
Definition recentred (h h' : heap) (dx dy : float) (e u : val) : Prop :=
  exists props props',
    object_props h e = Some props
    /\ object_props h' u = Some props'
    /\ map fst props' = map fst props
    /\ translated h h' dx dy (prop_lookup "position" props) (prop_lookup "position" props')
    /\ (forall f, In f (fields_of_type (prop_lookup "type" props)) ->
         (forall x y, vec2_coords h (prop_lookup f props) = Some (x, y) ->
                      translated h h' dx dy (prop_lookup f props) (prop_lookup f props'))
         /\ (forall elems, array_elems h (prop_lookup f props) = Some elems ->
               exists elems',
                 array_elems h' (prop_lookup f props') = Some elems'
                 /\ Forall2 (translated h h' dx dy) elems elems'))
    /\ (forall k, k <> "position" ->
                  ~ In k (fields_of_type (prop_lookup "type" props)) ->
                  prop_lookup k props' = prop_lookup k props).

(** A value of the updated emitter that is not the input's: a reference
    above [lu] to a cell of [h], whose elements, when it is an array, are
    such references too. *)
Definition fresh_tree (h : heap) (lu : loc) (v : val) : Prop :=
  exists l, v = VRef l /\ lu < l < length h
    /\ forall elems, h !! l = Some (CArr elems) -> Forall (fresh_ref (S lu)) elems.

(** Inside the callback, after [updated] was allocated at [lu]: the store
    grows, and no cell but [lu] changes. *)
Definition grows_except (lu : loc) (h h' : heap) : Prop :=
  length h <= length h'
  /\ forall l c, l <> lu -> h !! l = Some c -> h' !! l = Some c.

Definition updated_inv (props : list (string * val)) (lu : loc) (h : heap) : Prop :=
  lu < length h
  /\ exists ps,
      h !! lu = Some (CObj ps)
      /\ fresh_tree h lu (prop_lookup "position" ps)
      /\ forall k, prop_lookup k ps = prop_lookup k props
                   \/ fresh_tree h lu (prop_lookup k ps).

(** [copied_emitter n h e u]: in [h], [u] is a reference, not below [n], to
    a copy of the object [e] in which [position] is fresh and every other
    property is the one of [e] or fresh. *)
Definition copied_emitter (n : nat) (h : heap) (e u : val) : Prop :=
  exists lu props,
    u = VRef lu /\ n <= lu
    /\ object_props h e = Some props
    /\ updated_inv props lu h.

(** A point moved into a cell above [lu]. *)
Definition moved_point (lu : loc) (h h' : heap) (dx dy : float) (p q : val) : Prop :=
  exists l, q = VRef l /\ lu < l /\ translated h h' dx dy p q.

(** What the loop makes of a coordinate field whose input value is [v]. *)
Definition field_done (lu : loc) (h h' : heap) (dx dy : float) (v v' : val) : Prop :=
  (forall x y, vec2_coords h v = Some (x, y) -> moved_point lu h h' dx dy v v')
  /\ (forall elems,
        array_elems h v = Some elems ->
        exists la elems',
          v' = VRef la /\ lu < la /\ h' !! la = Some (CArr elems')
          /\ Forall2 (moved_point lu h h' dx dy) elems elems').

(** The state of [updated], allocated at [lu] for the emitter with
    properties [props] of [h0], once the fields in [done] have been
    visited. *)
Definition updated_state (h0 : heap) (props : list (string * val)) (lu : loc)
           (dx dy : float) (done : list string) (h : heap) : Prop :=
  length h0 <= lu
  /\ heap_extends h0 h
  /\ exists ps,
      h !! lu = Some (CObj ps)
      /\ map fst ps = map fst props
      /\ moved_point lu h0 h dx dy (prop_lookup "position" props) (prop_lookup "position" ps)
      /\ (forall f, In f done ->
                    field_done lu h0 h dx dy (prop_lookup f props) (prop_lookup f ps))
      /\ (forall k, k <> "position" -> ~ In k done ->
                    prop_lookup k ps = prop_lookup k props).

(** [fresh_copy n h e u]: in [h], [u] is an object allocated after the
    store had [n] cells; its [position] was allocated after that too; and
    each of its properties is the property of [e] (the same primitive, or
    the same reference to the same object) or was allocated after the
    store had [n] cells, together with its elements when it is an array. *)
Definition fresh_copy (n : nat) (h : heap) (e u : val) : Prop :=
  fresh_ref n u
  /\ exists props props',
      object_props h e = Some props
      /\ object_props h u = Some props'
      /\ fresh_ref n (prop_lookup "position" props')
      /\ forall k,
          prop_lookup k props' = prop_lookup k props
          \/ (fresh_ref n (prop_lookup k props')
              /\ forall elems,
                  array_elems h (prop_lookup k props') = Some elems ->
                  Forall (fresh_ref n) elems).

Definition line_emitter : JValue :=
  JObj [("type", JStr "line");
        ("position", JObj [("x", JNum 400); ("y", JNum 300)]);
        ("emissionRate", JNum 50);
        ("particle", sprite_particle 2);
        ("start", JObj [("x", JNum 300); ("y", JNum 300)]);
        ("end", JObj [("x", JNum 500); ("y", JNum 300)])].

Definition path_emitter : JValue :=
  JObj [("type", JStr "path");
        ("position", JObj [("x", JNum 0); ("y", JNum 0)]);
        ("emissionRate", JNum 50);
        ("particle", sprite_particle 2);
        ("path", JArr [JObj [("x", JNum 100); ("y", JNum 100)];
                       JObj [("x", JNum 300); ("y", JNum 200)];
                       JObj [("x", JNum 500); ("y", JNum 150)]])].

Definition polygon_emitter : JValue :=
  JObj [("type", JStr "polygon");
        ("position", JObj [("x", JNum 400); ("y", JNum 300)]);
        ("emissionRate", JNum 50);
        ("particle", sprite_particle 2);
        ("vertices", JArr [JObj [("x", JNum 0); ("y", JNum (-50))];
                           JObj [("x", JNum 50); ("y", JNum 50)];
                           JObj [("x", JNum (-50)); ("y", JNum 50)]])].

Definition test_emitters : JValue :=
  JArr [line_emitter; path_emitter; polygon_emitter].

(** The test emitters in a store, and the store after a resize from
    800 x 600 to 1000 x 800. *)
Definition test_store : heap :=
  Eval vm_compute in snd (store_value test_emitters []).

Definition test_ref : val :=
  Eval vm_compute in
    match fst (store_value test_emitters []) with inr v => v | inl _ => VUndefined end.

Definition test_elements : list val :=
  Eval vm_compute in
    match array_elems test_store test_ref with Some es => es | None => [] end.

Definition resized_store : heap :=
  Eval vm_compute in
    snd (recentreEmittersOnResize test_ref 800 600 1000 800 test_store).

Definition resized_ref : val :=
  Eval vm_compute in
    match fst (recentreEmittersOnResize test_ref 800 600 1000 800 test_store) with
    | inr v => v
    | inl _ => VUndefined
    end.

(** The configuration every field of which is a default. *)
Definition default_config : EditorConfig :=
  {| system := Some {| maxParticles := 1000; autoStart := true |};
     emitters := JArr [] |}.

(** The codec whose text is the document tree itself: it reads back what it
    wrote, and refuses a tree that is not plain data. *)
Module TreeCodec.
Definition Text := JValue.
Definition dump (v : JValue) : Text := v.
Definition load (t : Text) : string + JValue :=
  if loadable t then inr t else inl "not a document".
End TreeCodec.

(** ** Notions of the further properties *)

(** The line terminators of JavaScript, in UTF-8: LF, CR, U+2028 and
    U+2029. *)
Definition line_terminators : list string :=
  [String "010" EmptyString;
   String "013" EmptyString;
   String "226" (String "128" (String "168" EmptyString));
   String "226" (String "128" (String "169" EmptyString))].

(** [t] occurs in [s]. *)
Definition occurs_in (t s : string) : Prop :=
  exists pre post, s = pre +:+ t +:+ post.

(** A string [.+?] can match: no line terminator occurs in it. *)
Definition no_line_terminator (s : string) : Prop :=
  forall t, In t line_terminators -> ~ occurs_in t s.

(** The names the filename pattern accepts: a non-empty base without line
    terminator, an optional underscore, a non-empty run of digits, a dot, and
    a non-empty extension without dot. *)
Definition frame_name_shape (filename base sep digits extension : string) : Prop :=
  filename = base +:+ sep +:+ digits +:+ "." +:+ extension
  /\ base <> EmptyString /\ no_line_terminator base
  /\ (sep = EmptyString \/ sep = "_")
  /\ digits <> EmptyString /\ all_digits digits = true
  /\ extension <> EmptyString /\ SequenceDetector.no_dot extension = true.

(** No line terminator starts at a character of [s] when [tail] follows
    it: what the scan of the base checks, character by character. *)
Fixpoint scans (s tail : string) : bool :=
  match s with
  | EmptyString => true
  | String c s' =>
      negb (SequenceDetector.at_line_terminator (s +:+ tail)) && scans s' tail
  end.

(** The number a string of decimal digits denotes. *)
Definition decimal_value (digits : string) : option Z :=
  option_map Z.of_uint (NilEmpty.uint_of_string digits).

(** Frame numbers the program computes with exactly.  A JavaScript number
    is a binary64 value: it holds every integer up to 2^53, so that below
    that bound [parseInt] returns the number the digits denote, the
    difference of two frame numbers and [i++] are exact, and [toString]
    prints every digit.  An array holds less than 2^32 elements, and the
    gaps between two frame numbers below 2^32 are fewer.  The properties of
    [detectSequence] that depend on the values of the frame numbers are
    stated for files whose frame numbers are all below 2^32. *)
Definition safe_frames (files : list SequenceDetector.File) : bool :=
  forallb (fun item => (SequenceDetector.number (SequenceDetector.info item) <? 2 ^ 32)%Z)
          (SequenceDetector.frameInfos files).

(** An item of the group with key [k]. *)
Definition in_group (k : string) (item : SequenceDetector.Item) : bool :=
  String.eqb (SequenceDetector.group_key (SequenceDetector.info item)) k.

(** The groups of [items]: keys pairwise distinct, under each key all the
    items that carry it, in the order of [items], and a key for every item. *)
Definition groups_of (items : list SequenceDetector.Item) (groups : list (string * list SequenceDetector.Item))
  : Prop :=
  List.NoDup (map fst groups)
  /\ (forall k g, In (k, g) groups -> g = List.filter (in_group k) items /\ g <> [])
  /\ (forall item, In item items -> In (SequenceDetector.group_key (SequenceDetector.info item)) (map fst groups)).

(** [groups.has(key)] *)
Definition seen_key (k : string) (l : list string) : bool := existsb (String.eqb k) l.

(** The keys of [l] in the order of their first occurrence. *)
Definition first_keys (l : list string) : list string :=
  fold_left (fun acc k => if seen_key k acc then acc else acc ++ [k]) l [].

(** A file that carries a frame number under the key [key]. *)
Definition carries (key : string) (f : SequenceDetector.File) : bool :=
  match SequenceDetector.extractFrameInfo (SequenceDetector.name f) with
  | Some i => String.eqb (SequenceDetector.group_key i) key
  | None => false
  end.

(** The paddings of the items of a group. *)
Definition paddings (group : list SequenceDetector.Item) : list nat :=
  map (fun item => SequenceDetector.padding (SequenceDetector.info item)) group.

(** An item with the frame number [n]. *)
Definition same_number (n : Z) (item : SequenceDetector.Item) : bool :=
  Z.eqb (SequenceDetector.number (SequenceDetector.info item)) n.

(** A tally of [ps]: one entry for each value met, with the number of its
    occurrences. *)
Definition tally_of (ps : list nat) (counts : list (nat * nat)) : Prop :=
  List.NoDup (map fst counts)
  /\ (forall q c, In (q, c) counts -> c = count_occ Nat.eq_dec ps q /\ 0 < c)
  /\ (forall p, In p ps -> In p (map fst counts)).

(** An emitter none of the validator's rules rejects. *)
Definition emitter_passes (e : JValue) : bool :=
  truthy (get e "type")
  && (truthy (get e "position")
      && JsType_eqb (typeof (get (get e "position") "x")) TNumber
      && JsType_eqb (typeof (get (get e "position") "y")) TNumber)
  && (is_str (get e "type") "burst" || is_str (get e "type") "triggered"
      || (JsType_eqb (typeof (get e "emissionRate")) TNumber
          && negb (num_ltb (get e "emissionRate") 0)))
  && (negb (is_str (get e "type") "burst")
      || (JsType_eqb (typeof (get e "burstCount")) TNumber
          && negb (num_ltb (get e "burstCount") 1)))
  && (truthy (get e "particle")
      && truthy (get (get e "particle") "type")
      && truthy (get (get e "particle") "lifetime")).

(** A system section whose [maxParticles] is neither below 1 nor above
    10000. *)
Definition system_in_range (config : EditorConfig) : bool :=
  match system config with
  | Some s =>
      negb (PrimFloat.ltb (maxParticles s) 1) && negb (PrimFloat.ltb 10000 (maxParticles s))
  | None => false
  end.

(** A range [{min, max}] of numbers with [min <= max]. *)
Definition ordered_range (v : JValue) : bool :=
  match get v "min", get v "max" with
  | JNum lo, JNum hi => PrimFloat.leb lo hi
  | _, _ => false
  end.

(** A value reading whose properties throws: [null], [undefined]. *)
Definition no_object (v : val) : bool :=
  match v with VUndefined | VNull => true | _ => false end.

(** A test store with a configuration object over the test emitters, and a
    state of the editor on the default canvas. *)
Definition editor_store : heap :=
  Eval vm_compute in
    test_store
    ++ [CObj [("maxParticles", VNum 1000); ("autoStart", VBool true)];
        CObj [("system", VRef (length test_store)); ("emitters", test_ref)];
        CObj []].

Definition editor_state : EditorStore.EditorState :=
  {| EditorStore.config := VRef (S (length test_store));
     EditorStore.assets := VRef (S (S (length test_store)));
     EditorStore.ui := EditorStore.createDefaultUIState |}.

(** *** Emitters as [EmitterConfig] declares them, as trees

    The tree counterparts of [is_vec2], [wt_coord_field] and [wt_emitter]. *)
Fixpoint has_prop (k : string) (ps : list (string * JValue)) : bool :=
  match ps with
  | [] => false
  | (k', _) :: ps' => String.eqb k k' || has_prop k ps'
  end.

Definition is_point (v : JValue) : bool :=
  match v with
  | JObj pp =>
      match lookup_prop "x" pp, lookup_prop "y" pp with
      | JNum _, JNum _ => true
      | _, _ => false
      end
  | _ => false
  end.

Definition coord_field_ok (v : JValue) : bool :=
  match v with
  | JArr elems => forallb is_point elems
  | JObj pp => implb (has_prop "x" pp && has_prop "y" pp) (is_point v)
  | _ => true
  end.

Definition emitter_tree_ok (e : JValue) : bool :=
  match e with
  | JObj props =>
      is_point (lookup_prop "position" props)
      && match lookup_prop "type" props with
         | JStr ty =>
             negb (mem_string ty Object_prototype_members)
             && forallb (fun f => coord_field_ok (lookup_prop f props))
                        (fields_of_type (VStr ty))
         | _ => false
         end
  | _ => false
  end.

(** A path emitter one of whose waypoints is [null]: it passes the shape
    check of the import. *)
Definition broken_path_emitter : JValue :=
  JObj [("type", JStr "path");
        ("position", JObj [("x", JNum 400); ("y", JNum 300)]);
        ("emissionRate", JNum 10);
        ("particle", sprite_particle 1);
        ("path", JArr [JObj [("x", JNum 1); ("y", JNum 2)]; JNull])].

(** The configuration the import returns, as the object it is. *)
Definition config_tree (c : EditorConfig) : JValue :=
  JObj [("system", match system c with Some s => systemToJValue s | None => JUndefined end);
        ("emitters", emitters c)].

(** An emitter whose type is a string other than line, path and the names
    of the members of [Object.prototype]. *)
Definition position_only (e : JValue) : bool :=
  match get e "type" with
  | JStr ty =>
      negb (String.eqb ty "line") && negb (String.eqb ty "path")
      && negb (mem_string ty Object_prototype_members)
  | _ => false
  end.

(** The sample configuration in a store. *)
Definition sample_store : heap :=
  Eval vm_compute in snd (store_value (config_tree sample_config) []).

Definition sample_ref : val :=
  Eval vm_compute in
    match fst (store_value (config_tree sample_config) []) with
    | inr v => v
    | inl _ => VUndefined
    end.

(** * Properties *)

Section ImportExport.

Variable Text : Type.
Variable load : Text -> string + JValue.
Variable dump : JValue -> Text.

Lemma isEmitterConfig_object (e : JValue) :
  isEmitterConfig e = true -> exists ps, e = JObj ps.
Proof.
  destruct e; try discriminate; eauto.
Qed.

Lemma isEmitterConfig_shape_ok (e : JValue) :
  isEmitterConfig e = shape_ok e.
Proof.
  destruct e as [ | | b | n | s | l | ps]; try reflexivity.
  unfold isEmitterConfig, shape_ok, isRecord; cbn [typeof is_null negb andb get].
  destruct (lookup_prop "type" ps) as [ | | ? | ? | ty | ? | ?]; try reflexivity.
  cbn [typeof JsType_eqb negb andb is_str].
  destruct (lookup_prop "position" ps) as [ | | ? | ? | ? | ? | pos];
    cbn [typeof JsType_eqb is_null negb andb orb get];
    try (destruct (String.eqb ty "burst"), (String.eqb ty "triggered");
         cbn [negb andb orb];
         try destruct (JsType_eqb (typeof (lookup_prop "emissionRate" ps)) TNumber);
         reflexivity).
  destruct (JsType_eqb (typeof (lookup_prop "x" pos)) TNumber),
           (JsType_eqb (typeof (lookup_prop "y" pos)) TNumber),
           (String.eqb ty "burst"), (String.eqb ty "triggered"),
           (JsType_eqb (typeof (lookup_prop "emissionRate" ps)) TNumber);
    cbn [negb andb orb]; try reflexivity;
    destruct (lookup_prop "particle" ps) as [ | | ? | ? | ? | ? | par];
    cbn [typeof JsType_eqb is_null negb andb orb get]; try reflexivity;
    destruct (JsType_eqb (typeof (lookup_prop "type" par)) TString); reflexivity.
Qed.

Lemma filter_isEmitterConfig_idem (es : list JValue) :
  List.filter isEmitterConfig (List.filter isEmitterConfig es)
  = List.filter isEmitterConfig es.
Proof.
  induction es as [ | e es IH]; [reflexivity | ].
  cbn [List.filter]. destruct (isEmitterConfig e) eqn:He; [ | exact IH].
  cbn [List.filter]. rewrite He, IH. reflexivity.
Qed.

Lemma respread_filtered (es : list JValue) :
  map (fun emitter => JObj (spread emitter)) (List.filter isEmitterConfig es)
  = List.filter isEmitterConfig es.
Proof.
  induction es as [ | e es IH]; [reflexivity | ].
  cbn [List.filter]. destruct (isEmitterConfig e) eqn:He; [ | exact IH].
  cbn [map]. rewrite IH.
  destruct (isEmitterConfig_object e He) as [ps ->]. reflexivity.
Qed.

Lemma plain_data_filter (f : JValue -> bool) (es : list JValue) :
  forallb plain_data es = true -> forallb plain_data (List.filter f es) = true.
Proof.
  induction es as [ | e es IH]; [reflexivity | ].
  cbn [forallb List.filter]. intros [He Hes]%andb_prop.
  destruct (f e); cbn [forallb]; [rewrite He | ]; auto.
Qed.

Lemma plain_data_lookup (k : string) (ps : list (string * JValue)) :
  forallb (fun kv => plain_data (snd kv)) ps = true ->
  loadable (lookup_prop k ps) = true.
Proof.
  induction ps as [ | [k' v] ps IH]; [reflexivity | ].
  cbn [forallb lookup_prop snd]. intros [Hv Hps]%andb_prop.
  destruct (String.eqb k k'); [ | auto].
  destruct v; try discriminate; exact Hv.
Qed.

(** What the import makes of a loaded document. *)
Lemma yamlToEditorConfig_loaded (yaml : Text) (value : JValue) :
  load yaml = inr value ->
  yamlToEditorConfig load yaml
  = inr {| system :=
             Some {| maxParticles :=
                       match get (get value "system") "maxParticles" with
                       | JNum n => n
                       | _ => 1000%float
                       end;
                     autoStart :=
                       match get (get value "system") "autoStart" with
                       | JBool b => b
                       | _ => true
                       end |};
           emitters :=
             JArr match get value "emitters" with
                  | JArr es => List.filter isEmitterConfig es
                  | _ => []
                  end |}.
Proof.
  intros Hload. unfold yamlToEditorConfig. rewrite Hload.
  destruct value as [ | | b | n | s | l | ps]; try reflexivity.
  unfold toParsedYamlConfig; cbn [isRecord typeof JsType_eqb is_null negb andb get
                                  parsed_system parsed_emitters].
  destruct (lookup_prop "system" ps) as [ | | ? | ? | ? | ? | sys]; reflexivity.
Qed.

(** C8. Import defaults: on a text that loads, [system.maxParticles] is the
    parsed value when it is a number and 1000 otherwise, [system.autoStart]
    is the parsed value when it is a boolean and [true] otherwise, and
    [emitters] is empty whenever the parsed [emitters] is not an array. *)
Theorem import_defaults (yaml : Text) (value : JValue) :
  load yaml = inr value ->
  exists config sys,
    yamlToEditorConfig load yaml = inr config
    /\ system config = Some sys
    /\ (forall n, get (get value "system") "maxParticles" = JNum n -> maxParticles sys = n)
    /\ (typeof (get (get value "system") "maxParticles") <> TNumber ->
        maxParticles sys = 1000%float)
    /\ (forall b, get (get value "system") "autoStart" = JBool b -> autoStart sys = b)
    /\ (typeof (get (get value "system") "autoStart") <> TBoolean -> autoStart sys = true)
    /\ (isArray (get value "emitters") = false -> emitters config = JArr []).
Proof.
  intros Hload. eexists; eexists.
  split; [apply (yamlToEditorConfig_loaded _ _ Hload) | ].
  cbn [system emitters maxParticles autoStart].
  split; [reflexivity | ].
  repeat split.
  - intros n ->. reflexivity.
  - destruct (get (get value "system") "maxParticles"); cbn [typeof];
      intros Hty; congruence || reflexivity.
  - intros b ->. reflexivity.
  - destruct (get (get value "system") "autoStart"); cbn [typeof];
      intros Hty; congruence || reflexivity.
  - destruct (get value "emitters"); cbn [isArray];
      intros Hty; congruence || reflexivity.
Qed.

(** C3. Import shape-filter: when the parsed [emitters] is an array, the
    import returns exactly its entries that pass the minimal shape check, in
    order, and drops the others without an error. *)
Theorem import_shape_filter (yaml : Text) (value : JValue) (es : list JValue) :
  load yaml = inr value ->
  get value "emitters" = JArr es ->
  exists config,
    yamlToEditorConfig load yaml = inr config
    /\ emitters config = JArr (List.filter shape_ok es).
Proof.
  intros Hload Hes. eexists.
  split; [apply (yamlToEditorConfig_loaded _ _ Hload) | ].
  cbn [emitters]. rewrite Hes. f_equal.
  apply filter_ext. intros e. apply isEmitterConfig_shape_ok.
Qed.

(** C10. A text that loads as something other than a map (a scalar, a
    list, [null], an empty document) imports as the full-default
    configuration; the import fails exactly when loading fails. *)
Theorem import_non_map_document (yaml : Text) :
  match load yaml with
  | inl msg => yamlToEditorConfig load yaml = inl ("Failed to parse YAML: " +:+ msg)
  | inr value =>
      (exists config, yamlToEditorConfig load yaml = inr config)
      /\ ((forall ps, value <> JObj ps) ->
          yamlToEditorConfig load yaml = inr default_config)
  end.
Proof.
  destruct (load yaml) as [msg | value] eqn:Hload.
  - unfold yamlToEditorConfig. rewrite Hload. reflexivity.
  - split; [eexists; apply (yamlToEditorConfig_loaded _ _ Hload) | ].
    intros Hnot. rewrite (yamlToEditorConfig_loaded _ _ Hload).
    destruct value; try reflexivity.
    exfalso. eapply Hnot. reflexivity.
Qed.

(** The contract of [js-yaml] the round trip rests on. *)
Hypothesis load_dump : forall v, plain_data v = true -> load (dump v) = inr v.
Hypothesis load_plain : forall yaml v, load yaml = inr v -> loadable v = true.

(** C1. Round trip: a configuration the import produced is exported
    without an error, and importing the exported text gives the same
    configuration back. *)
Theorem import_export_roundtrip (yaml : Text) (c : EditorConfig) :
  yamlToEditorConfig load yaml = inr c ->
  exists yaml',
    editorConfigToYAML dump c = Some yaml'
    /\ yamlToEditorConfig load yaml' = inr c.
Proof.
  intros Himport.
  destruct (load yaml) as [msg | value] eqn:Hload.
  { unfold yamlToEditorConfig in Himport. rewrite Hload in Himport. discriminate. }
  rewrite (yamlToEditorConfig_loaded _ _ Hload) in Himport.
  injection Himport as <-.
  set (mp := match get (get value "system") "maxParticles" with
             | JNum n => n | _ => 1000%float end).
  set (au := match get (get value "system") "autoStart" with
             | JBool b => b | _ => true end).
  assert (Hkept : exists es,
             match get value "emitters" with
             | JArr es => List.filter isEmitterConfig es
             | _ => []
             end = List.filter isEmitterConfig es
             /\ forallb plain_data es = true).
  { destruct (get value "emitters") as [ | | ? | ? | ? | es | ?] eqn:Hes;
      try (exists []; split; reflexivity).
    exists es. split; [reflexivity | ].
    destruct value as [ | | ? | ? | ? | ? | ps]; try discriminate.
    cbn [get] in Hes.
    assert (Hp : loadable (lookup_prop "emitters" ps) = true).
    { apply plain_data_lookup. apply (load_plain _ _ Hload). }
    rewrite Hes in Hp. exact Hp. }
  destruct Hkept as (es & -> & Hplain).
  unfold editorConfigToYAML. cbn [emitters system].
  eexists. split; [reflexivity | ].
  rewrite respread_filtered.
  erewrite yamlToEditorConfig_loaded.
  2:{ apply load_dump. cbn [plain_data forallb snd systemToJValue andb].
      rewrite plain_data_filter by exact Hplain. reflexivity. }
  cbn. rewrite filter_isEmitterConfig_idem. reflexivity.
Qed.

End ImportExport.

(** The tree codec meets the contract the round trip assumes. *)
Lemma TreeCodec_load_dump (v : JValue) :
  plain_data v = true -> TreeCodec.load (TreeCodec.dump v) = inr v.
Proof.
  unfold TreeCodec.load, TreeCodec.dump. intros Hv.
  assert (Hl : loadable v = true) by (destruct v; try discriminate; exact Hv).
  now rewrite Hl.
Qed.

Lemma TreeCodec_load_plain (yaml : TreeCodec.Text) (v : JValue) :
  TreeCodec.load yaml = inr v -> loadable v = true.
Proof.
  unfold TreeCodec.load. destruct (loadable yaml) eqn:Hl; [ | discriminate].
  now intros [= <-].
Qed.

Lemma import_export_roundtrip_sample :
  yamlToEditorConfig TreeCodec.load sample_document = inr sample_config
  /\ exists yaml',
      editorConfigToYAML TreeCodec.dump sample_config = Some yaml'
      /\ yamlToEditorConfig TreeCodec.load yaml' = inr sample_config.
Proof.
  split; [vm_compute; reflexivity | ].
  apply (import_export_roundtrip TreeCodec.Text TreeCodec.load TreeCodec.dump
           TreeCodec_load_dump TreeCodec_load_plain sample_document sample_config).
  vm_compute. reflexivity.
Defined.

Lemma import_shape_filter_sample :
  TreeCodec.load sample_document = inr sample_document
  /\ get sample_document "emitters" = JArr [point_emitter; emitter_without_particle]
  /\ exists config,
      yamlToEditorConfig TreeCodec.load sample_document = inr config
      /\ emitters config
         = JArr (List.filter shape_ok [point_emitter; emitter_without_particle]).
Proof.
  split; [vm_compute; reflexivity | ].
  split; [reflexivity | ].
  apply (import_shape_filter TreeCodec.Text TreeCodec.load sample_document sample_document);
    vm_compute; reflexivity.
Defined.

(** The document [emitters: []]. *)
Lemma import_defaults_no_system :
  let document := JObj [("emitters", JArr [])] in
  TreeCodec.load document = inr document
  /\ exists config sys,
      yamlToEditorConfig TreeCodec.load document = inr config
      /\ system config = Some sys
      /\ (forall n, get (get document "system") "maxParticles" = JNum n -> maxParticles sys = n)
      /\ (typeof (get (get document "system") "maxParticles") <> TNumber ->
          maxParticles sys = 1000%float)
      /\ (forall b, get (get document "system") "autoStart" = JBool b -> autoStart sys = b)
      /\ (typeof (get (get document "system") "autoStart") <> TBoolean -> autoStart sys = true)
      /\ (isArray (get document "emitters") = false -> emitters config = JArr []).
Proof.
  split; [vm_compute; reflexivity | ].
  apply (import_defaults TreeCodec.Text TreeCodec.load).
  vm_compute. reflexivity.
Defined.

(** A document that is a list, not a map. *)
Lemma import_non_map_document_list :
  yamlToEditorConfig TreeCodec.load (JArr [JNum 1; JStr "two"]) = inr default_config.
Proof.
  apply (import_non_map_document TreeCodec.Text TreeCodec.load (JArr [JNum 1; JStr "two"])).
  intros ps. discriminate.
Defined.

(** ** The validator's error messages name one emitter and one rule *)

Section Messages.

Lemma append_cancel_l (p a b : string) : p +:+ a = p +:+ b -> a = b.
Proof.
  induction p as [ | c p IH]; [auto | ].
  change (String c (p +:+ a) = String c (p +:+ b) -> a = b).
  intros H. injection H as H. auto.
Qed.

Lemma append_assoc3 (a b c : string) : (a +:+ b) +:+ c = a +:+ (b +:+ c).
Proof.
  induction a as [ | x a IH]; [reflexivity | ].
  change (String x ((a +:+ b) +:+ c) = String x (a +:+ b +:+ c)).
  f_equal. exact IH.
Qed.

Lemma string_of_uint_digits (d : uint) : all_digits (NilEmpty.string_of_uint d) = true.
Proof.
  induction d; cbn; auto.
Qed.

Lemma nat_to_string_inj (i j : nat) : nat_to_string i = nat_to_string j -> i = j.
Proof.
  unfold nat_to_string. intros H.
  apply DecimalNat.Unsigned.to_uint_inj.
  assert (Hs : Some (Nat.to_uint i) = Some (Nat.to_uint j))
    by (rewrite <- !NilEmpty.usu; now rewrite H).
  now injection Hs.
Qed.

(** Two strings of digits, each followed by a colon, end at the same place. *)
Lemma digits_colon_split (s1 s2 r1 r2 : string) :
  all_digits s1 = true -> all_digits s2 = true ->
  s1 +:+ String ":" r1 = s2 +:+ String ":" r2 ->
  s1 = s2 /\ r1 = r2.
Proof.
  revert s2. induction s1 as [ | c1 s1 IH]; intros [ | c2 s2]; cbn;
    intros H1 H2 H.
  - injection H as ->. auto.
  - injection H as <- _. discriminate.
  - injection H as -> _. discriminate.
  - injection H as -> H.
    apply andb_prop in H1 as [_ H1]. apply andb_prop in H2 as [_ H2].
    destruct (IH s2 H1 H2 H) as [-> ->]. auto.
Qed.

Lemma emitter_message_inj (i j : nat) (r1 r2 : string) :
  emitter_label i +:+ String ":" r1 = emitter_label j +:+ String ":" r2 ->
  i = j /\ r1 = r2.
Proof.
  unfold emitter_label. rewrite !append_assoc3. intros H.
  apply append_cancel_l in H.
  apply digits_colon_split in H as [H ->];
    try apply string_of_uint_digits.
  split; [now apply nat_to_string_inj | reflexivity].
Qed.

Lemma In_when (x : string) (b : bool) (msg : string) :
  In x (when b msg) <-> b = true /\ msg = x.
Proof.
  destruct b; cbn; intuition discriminate.
Qed.

End Messages.

(** ** validateEditorConfig *)

Section Validator.

Lemma is_str_true (v : JValue) (s : string) : is_str v s = true <-> v = JStr s.
Proof.
  destruct v; cbn; try (split; [discriminate | congruence]).
  rewrite String.eqb_eq. split; congruence.
Qed.

Lemma is_str_false (v : JValue) (s : string) : is_str v s = false <-> v <> JStr s.
Proof.
  rewrite <- is_str_true. destruct (is_str v s); split; congruence.
Qed.

Lemma rate_required_iff (emitter : JValue) :
  negb (is_str (get emitter "type") "burst")
  && negb (is_str (get emitter "type") "triggered") = true
  <-> rate_required emitter.
Proof.
  unfold rate_required. rewrite <- !is_str_false.
  destruct (is_str _ "burst"), (is_str _ "triggered"); cbn; intuition congruence.
Qed.

Lemma not_number_or_below_iff (v : JValue) (bound : float) :
  negb (JsType_eqb (typeof v) TNumber) || num_ltb v bound = true
  <-> not_number_or_below v bound.
Proof.
  unfold not_number_or_below.
  destruct v; cbn; try (split; [intros _; left; discriminate | reflexivity]).
  split.
  - intros H. right. eauto.
  - intros [H | (n' & [= <-] & H)]; congruence.
Qed.

Ltac other_message H :=
  apply In_when in H as [_ H];
  apply emitter_message_inj in H as [_ H]; discriminate H.

Lemma In_emitterErrors_rate (i j : nat) (emitter : JValue) :
  In (msg_invalid_emissionRate i) (emitterErrors j emitter)
  <-> i = j /\ rate_required emitter
      /\ not_number_or_below (get emitter "emissionRate") 0.
Proof.
  rewrite <- rate_required_iff, <- not_number_or_below_iff.
  unfold emitterErrors. rewrite !in_app_iff. split.
  - intros [H | [H | [H | [H | H]]]].
    + other_message H.
    + other_message H.
    + apply In_when in H as [Hb H].
      apply emitter_message_inj in H as [-> _].
      apply andb_prop in Hb as [? ?]. auto.
    + destruct (is_str (get emitter "type") "burst"); [other_message H | destruct H].
    + destruct (negb (truthy (get emitter "particle"))).
      * destruct H as [H | []].
        apply emitter_message_inj in H as [_ H]; discriminate H.
      * apply in_app_iff in H as [H | H]; other_message H.
  - intros (-> & Hr & Hn). right; right; left.
    apply In_when. split; [ | reflexivity].
    rewrite Hr. exact Hn.
Qed.

Lemma In_emitterErrors_burst (i j : nat) (emitter : JValue) :
  In (msg_burstCount i) (emitterErrors j emitter)
  <-> i = j /\ get emitter "type" = JStr "burst"
      /\ not_number_or_below (get emitter "burstCount") 1.
Proof.
  rewrite <- is_str_true, <- not_number_or_below_iff.
  unfold emitterErrors. rewrite !in_app_iff. split.
  - intros [H | [H | [H | [H | H]]]].
    + other_message H.
    + other_message H.
    + other_message H.
    + destruct (is_str (get emitter "type") "burst"); [ | destruct H].
      apply In_when in H as [Hb H].
      apply emitter_message_inj in H as [-> _]. auto.
    + destruct (negb (truthy (get emitter "particle"))).
      * destruct H as [H | []].
        apply emitter_message_inj in H as [_ H]; discriminate H.
      * apply in_app_iff in H as [H | H]; other_message H.
  - intros (-> & Hb & Hn). right; right; right; left.
    rewrite Hb. apply In_when. auto.
Qed.

Lemma forEachEmitter_total (index : nat) (es : list JValue) :
  Forall (fun e => nullish e = false) es ->
  exists errs, forEachEmitter index es = Some errs.
Proof.
  intros Hes. revert index.
  induction Hes as [ | e es He _ IH]; intros index; cbn [forEachEmitter]; [eauto | ].
  rewrite He. destruct (IH (S index)) as [errs ->]. eauto.
Qed.

Lemma In_forEachEmitter (es : list JValue) :
  forall index errs x,
    forEachEmitter index es = Some errs ->
    In x errs <->
    exists n e, es !! n = Some e /\ In x (emitterErrors (index + n) e).
Proof.
  induction es as [ | e es IH]; intros index errs x; cbn [forEachEmitter].
  - intros [= <-]. split; [intros [] | ]. intros (n & e & H & _). discriminate H.
  - destruct (nullish e); [discriminate | ].
    destruct (forEachEmitter (S index) es) as [rest | ] eqn:Hrest; [ | discriminate].
    intros [= <-]. rewrite in_app_iff, (IH _ _ x Hrest). split.
    + intros [H | (n & e' & Hn & H)].
      * exists 0, e. rewrite Nat.add_0_r. auto.
      * exists (S n), e'. rewrite Nat.add_succ_r. auto.
    + intros ([ | n] & e' & Hn & H).
      * injection Hn as <-. rewrite Nat.add_0_r in H. auto.
      * right. exists n, e'. rewrite Nat.add_succ_r in H. auto.
Qed.

Lemma systemErrors_not_emitter (config : EditorConfig) (i : nat) (r : string) :
  ~ In (emitter_label i +:+ r) (systemErrors config).
Proof.
  unfold systemErrors, emitter_label.
  destruct (system config) as [s | ].
  - intros H. apply In_when in H as [_ H]. discriminate H.
  - intros [H | []]. discriminate H.
Qed.

Lemma validator_rules_general (config : EditorConfig) (es : list JValue) :
  emitters config = JArr es ->
  Forall (fun e => nullish e = false) es ->
  exists result,
    validateEditorConfig config = Some result
    /\ forall index emitter,
        es !! index = Some emitter ->
        (In (msg_invalid_emissionRate index) (errors result)
         <-> rate_required emitter
             /\ not_number_or_below (get emitter "emissionRate") 0)
        /\ (In (msg_burstCount index) (errors result)
            <-> get emitter "type" = JStr "burst"
                /\ not_number_or_below (get emitter "burstCount") 1).
Proof.
  intros Hes Hnn. unfold validateEditorConfig. rewrite Hes.
  destruct (forEachEmitter_total 0 es Hnn) as [errs Herrs].
  assert (Hpart : (if Nat.eqb (length es) 0 then Some [] else forEachEmitter 0 es)
                  = Some errs).
  { destruct es; [cbn in *; congruence | exact Herrs]. }
  rewrite Hpart. eexists. split; [reflexivity | ].
  intros index emitter Hidx. cbn [errors].
  rewrite !in_app_iff, !(In_forEachEmitter es 0 errs _ Herrs). split.
  - split.
    + intros [H | (n & e & Hn & H)].
      * now apply systemErrors_not_emitter in H.
      * apply In_emitterErrors_rate in H as (-> & H). cbn in Hidx.
        rewrite Hidx in Hn. injection Hn as <-. exact H.
    + intros H. right. exists index, emitter. split; [exact Hidx | ].
      apply In_emitterErrors_rate. auto.
  - split.
    + intros [H | (n & e & Hn & H)].
      * now apply systemErrors_not_emitter in H.
      * apply In_emitterErrors_burst in H as (-> & H). cbn in Hidx.
        rewrite Hidx in Hn. injection Hn as <-. exact H.
    + intros H. right. exists index, emitter. split; [exact Hidx | ].
      apply In_emitterErrors_burst. auto.
Qed.

(** C7. The validator reports an [emissionRate] error for an emitter
    exactly when its type is neither burst nor triggered and its
    [emissionRate] is not a number or is negative, and a [burstCount] error
    exactly when its type is burst and its [burstCount] is not a number or
    is less than 1.  Hence a burst emitter with [burstCount] 10 and no
    [emissionRate] and a triggered emitter with no [emissionRate] validate,
    and a burst emitter without [burstCount] fails with an error that names
    [burstCount]. *)
Theorem validator_rate_and_burst_rules :
  (forall (config : EditorConfig) (es : list JValue),
      emitters config = JArr es ->
      Forall (fun e => nullish e = false) es ->
      exists result,
        validateEditorConfig config = Some result
        /\ forall index emitter,
            es !! index = Some emitter ->
            (In (msg_invalid_emissionRate index) (errors result)
             <-> rate_required emitter
                 /\ not_number_or_below (get emitter "emissionRate") 0)
            /\ (In (msg_burstCount index) (errors result)
                <-> get emitter "type" = JStr "burst"
                    /\ not_number_or_below (get emitter "burstCount") 1))
  /\ validateEditorConfig (config_of [burst_emitter])
     = Some {| valid := true; errors := [] |}
  /\ validateEditorConfig (config_of [triggered_emitter])
     = Some {| valid := true; errors := [] |}
  /\ validateEditorConfig (config_of [burst_emitter_without_count])
     = Some {| valid := false;
               errors := ["Emitter 0: burstCount must be a number >= 1"] |}.
Proof.
  split; [exact validator_rules_general | ].
  repeat split; vm_compute; reflexivity.
Qed.

End Validator.

(** The rules at the three emitters of the unit tests, in one
    configuration. *)
Lemma validator_rate_and_burst_rules_tests :
  let es := [burst_emitter; triggered_emitter; burst_emitter_without_count] in
  exists result,
    validateEditorConfig (config_of es) = Some result
    /\ forall index emitter,
        es !! index = Some emitter ->
        (In (msg_invalid_emissionRate index) (errors result)
         <-> rate_required emitter
             /\ not_number_or_below (get emitter "emissionRate") 0)
        /\ (In (msg_burstCount index) (errors result)
            <-> get emitter "type" = JStr "burst"
                /\ not_number_or_below (get emitter "burstCount") 1).
Proof.
  apply (proj1 validator_rate_and_burst_rules
               (config_of [burst_emitter; triggered_emitter; burst_emitter_without_count])).
  - reflexivity.
  - repeat constructor.
Defined.

(** ** Sequence detection *)

Module SD := SequenceDetector.

Section Sequences.

Lemma In_frameInfos (files : list SD.File) (item : SD.Item) :
  In item (SD.frameInfos files) ->
  In (SD.file item) files
  /\ SD.extractFrameInfo (SD.name (SD.file item)) = Some (SD.info item).
Proof.
  unfold SD.frameInfos. induction files as [ | f files IH]; cbn [omap list_omap]; [intros [] | ].
  destruct (SD.extractFrameInfo (SD.name f)) as [i | ] eqn:Hi.
  - intros [<- | Hin]; [cbn; auto | ]. destruct (IH Hin). split; [now right | assumption].
  - intros Hin. destruct (IH Hin). split; [now right | assumption].
Qed.

Lemma length_frameInfos (files : list SD.File) :
  length (SD.frameInfos files) <= length files.
Proof.
  unfold SD.frameInfos. induction files as [ | f files IH]; cbn [omap list_omap length]; [lia | ].
  destruct (SD.extractFrameInfo (SD.name f)); cbn [length]; lia.
Qed.

Lemma push_group_keyed (P : SD.Item -> Prop) (item : SD.Item)
      (groups : list (string * list SD.Item)) :
  P item -> keyed P groups ->
  keyed P (SD.push_group (SD.group_key (SD.info item)) item groups).
Proof.
  intros Hitem. induction groups as [ | [k0 g0] groups IH]; intros Hgroups k g x;
    cbn [SD.push_group].
  - intros [[= <- <-] | []] [<- | []]. auto.
  - destruct (String.eqb_spec (SD.group_key (SD.info item)) k0) as [Hk | Hk].
    + intros [[= <- <-] | Hin] Hx.
      * apply in_app_iff in Hx as [Hx | [<- | []]]; [ | auto].
        apply (Hgroups k0 g0); [now left | exact Hx].
      * apply (Hgroups k g); [now right | exact Hx].
    + intros [[= <- <-] | Hin] Hx.
      * apply (Hgroups k0 g0); [now left | exact Hx].
      * apply IH with (k := k) (g := g); auto.
        intros k' g' x' Hin' Hx'. apply (Hgroups k' g'); [now right | exact Hx'].
Qed.

Lemma group_items_keyed (P : SD.Item -> Prop) (items : list SD.Item) :
  Forall P items ->
  forall groups,
    keyed P groups ->
    keyed P (fold_left (fun groups item =>
                          SD.push_group (SD.group_key (SD.info item)) item groups)
                       items groups).
Proof.
  induction 1 as [ | item items Hitem _ IH]; intros groups Hgroups; cbn [fold_left];
    [exact Hgroups | ].
  apply IH. now apply push_group_keyed.
Qed.

Lemma push_group_total (key : string) (item : SD.Item)
      (groups : list (string * list SD.Item)) :
  total_items (SD.push_group key item groups) = S (total_items groups).
Proof.
  induction groups as [ | [k0 g0] groups IH]; cbn [SD.push_group]; [reflexivity | ].
  destruct (String.eqb key k0); cbn [total_items snd].
  - rewrite length_app. cbn. lia.
  - rewrite IH. lia.
Qed.

Lemma group_items_total (items : list SD.Item) :
  forall groups,
    total_items (fold_left (fun groups item =>
                              SD.push_group (SD.group_key (SD.info item)) item groups)
                           items groups)
    = length items + total_items groups.
Proof.
  induction items as [ | item items IH]; intros groups; cbn [fold_left length]; [reflexivity | ].
  rewrite IH, push_group_total. lia.
Qed.

Lemma largest_from (groups : list (string * list SD.Item)) :
  forall acc,
    let largest :=
      fold_left (fun largestGroup kg =>
                   if Nat.ltb (length largestGroup) (length (snd kg)) then snd kg
                   else largestGroup) groups acc in
    (largest = acc \/ exists k, In (k, largest) groups)
    /\ length largest <= length acc + total_items groups.
Proof.
  induction groups as [ | [k g] groups IH]; intros acc; cbn [fold_left total_items snd].
  - split; [now left | lia].
  - destruct (Nat.ltb_spec (length acc) (length g)) as [Hlt | Hge].
    + destruct (IH g) as [[-> | (k' & Hin)] Hlen].
      * split; [right; exists k; now left | lia].
      * split; [right; exists k'; now right | lia].
    + destruct (IH acc) as [[-> | (k' & Hin)] Hlen].
      * split; [now left | lia].
      * split; [right; exists k'; now right | lia].
Qed.

Lemma selected_group_members (files : list SD.File) :
  selected_group files = []
  \/ exists key,
      forall item,
        In item (selected_group files) ->
        (In (SD.file item) files
         /\ SD.extractFrameInfo (SD.name (SD.file item)) = Some (SD.info item))
        /\ SD.group_key (SD.info item) = key.
Proof.
  unfold selected_group, SD.largest_group.
  destruct (largest_from (SD.group_items (SD.frameInfos files)) []) as [[-> | (k & Hin)] _];
    [now left | right].
  exists k. intros item Hitem.
  eapply (group_items_keyed
            (fun item => In (SD.file item) files
                         /\ SD.extractFrameInfo (SD.name (SD.file item)) = Some (SD.info item))
            (SD.frameInfos files)); [ | | exact Hin | exact Hitem].
  - apply List.Forall_forall. intros x. apply In_frameInfos.
  - intros k' g x [].
Qed.

Lemma selected_group_length (files : list SD.File) :
  length (selected_group files) <= length (SD.frameInfos files).
Proof.
  unfold selected_group, SD.largest_group.
  destruct (largest_from (SD.group_items (SD.frameInfos files)) []) as [_ Hlen].
  unfold SD.group_items in *. rewrite group_items_total in Hlen.
  cbn [total_items length] in Hlen. rewrite !Nat.add_0_r in Hlen. exact Hlen.
Qed.

Lemma insert_item_perm (x : SD.Item) (l : list SD.Item) :
  Permutation (SD.insert_item x l) (x :: l).
Proof.
  induction l as [ | y ys IH]; cbn [SD.insert_item]; [reflexivity | ].
  destruct (Z.ltb _ _); [reflexivity | ].
  rewrite IH. apply perm_swap.
Qed.

Lemma insert_item_sorted (x : SD.Item) (l : list SD.Item) :
  StronglySorted frame_le l -> StronglySorted frame_le (SD.insert_item x l).
Proof.
  induction 1 as [ | y ys Hs IH Hy]; cbn [SD.insert_item].
  - repeat constructor.
  - destruct (Z.ltb_spec (SD.number (SD.info x)) (SD.number (SD.info y))) as [Hlt | Hge].
    + constructor; [constructor; assumption | ].
      constructor; [unfold frame_le; lia | ].
      eapply List.Forall_impl; [ | exact Hy]. unfold frame_le. intros; lia.
    + constructor; [exact IH | ].
      rewrite (insert_item_perm x ys). constructor; [exact Hge | exact Hy].
Qed.

Lemma sort_from_spec (l acc : list SD.Item) :
  StronglySorted frame_le acc ->
  StronglySorted frame_le (fold_left (fun acc x => SD.insert_item x acc) l acc)
  /\ Permutation (fold_left (fun acc x => SD.insert_item x acc) l acc) (acc ++ l).
Proof.
  revert acc. induction l as [ | x l IH]; intros acc Hacc; cbn [fold_left].
  - rewrite app_nil_r. auto.
  - destruct (IH (SD.insert_item x acc) (insert_item_sorted x acc Hacc)) as [Hs Hp].
    split; [exact Hs | ].
    rewrite Hp, insert_item_perm. apply Permutation_middle.
Qed.

Lemma sort_items_sorted (l : list SD.Item) : StronglySorted frame_le (SD.sort_items l).
Proof. apply sort_from_spec. constructor. Qed.

Lemma sort_items_perm (l : list SD.Item) : Permutation (SD.sort_items l) l.
Proof. apply (sort_from_spec l []). constructor. Qed.

(** In a sorted list the first item is a minimum and the last a maximum. *)
Lemma sorted_last_max (l : list SD.Item) (d : SD.Item) :
  StronglySorted frame_le l ->
  forall x, In x l -> frame_le x (List.last l d).
Proof.
  induction 1 as [ | a l Hs IH Ha]; intros x; [intros [] | ].
  intros [<- | Hx].
  - destruct l as [ | b l]; [unfold frame_le; cbn; lia | ].
    change (List.last (a :: b :: l) d) with (List.last (b :: l) d).
    assert (Hin : In (List.last (b :: l) d) (b :: l)).
    { destruct (exists_last (l := b :: l)) as (l' & z & Hz); [discriminate | ].
      rewrite Hz, last_last. apply in_or_app. right. now left. }
    rewrite List.Forall_forall in Ha. now apply Ha.
  - destruct l as [ | b l]; [destruct Hx | ].
    change (List.last (a :: b :: l) d) with (List.last (b :: l) d). now apply IH.
Qed.

Lemma last_In (l : list SD.Item) (a : SD.Item) : In (List.last (a :: l) a) (a :: l).
Proof.
  destruct (exists_last (l := a :: l)) as (l' & z & Hz); [discriminate | ].
  rewrite Hz, last_last. apply in_or_app. right. now left.
Qed.

Lemma In_between (first last z : Z) :
  In z (SD.between first last) <-> (first < z < last)%Z.
Proof.
  unfold SD.between. rewrite in_map_iff. split.
  - intros (k & <- & Hk). apply in_seq in Hk. lia.
  - intros Hz. exists (Z.to_nat (z - first - 1)). split; [lia | ].
    apply in_seq. lia.
Qed.

Lemma between_increasing (first last : Z) : StronglySorted Z.lt (SD.between first last).
Proof.
  unfold SD.between. generalize (Z.to_nat (last - first - 1)) as n.
  generalize 0 as k. intros k n. revert k.
  induction n as [ | n IH]; intros k; cbn [seq map]; constructor; [apply IH | ].
  apply List.Forall_forall. intros z Hz.
  apply in_map_iff in Hz as (j & <- & Hj). apply in_seq in Hj. lia.
Qed.

Lemma filter_increasing (f : Z -> bool) (l : list Z) :
  StronglySorted Z.lt l -> StronglySorted Z.lt (List.filter f l).
Proof.
  induction 1 as [ | a l Hs IH Ha]; cbn [List.filter]; [constructor | ].
  destruct (f a); [ | exact IH].
  constructor; [exact IH | ].
  rewrite List.Forall_forall in *. intros z Hz.
  apply filter_In in Hz as [Hz _]. auto.
Qed.

Lemma In_find_gaps (first last : Z) (frameNumbers : list Z) (z : Z) :
  In z (SD.find_gaps first last frameNumbers)
  <-> (first < z < last)%Z /\ ~ In z frameNumbers.
Proof.
  unfold SD.find_gaps. rewrite filter_In, In_between.
  assert (Hmem : existsb (Z.eqb z) frameNumbers = true <-> In z frameNumbers).
  { rewrite existsb_exists. split.
    - intros (y & Hy & ->%Z.eqb_eq). exact Hy.
    - intros Hz. exists z. split; [exact Hz | apply Z.eqb_refl]. }
  rewrite <- Hmem. destruct (existsb (Z.eqb z) frameNumbers); cbn; intuition congruence.
Qed.

Lemma detectSequence_succeeds (files : list SD.File) :
  SD.detectSequence files <> None <-> 2 <= length (selected_group files).
Proof.
  pose proof (selected_group_length files) as Hgroup.
  pose proof (length_frameInfos files) as Hinfos.
  unfold SD.detectSequence. fold (selected_group files).
  pose proof (Permutation_length (sort_items_perm (selected_group files))) as Hsort.
  destruct (Nat.ltb_spec (length files) 2); [split; [congruence | lia] | ].
  destruct (Nat.ltb_spec (length (SD.frameInfos files)) 2); [split; [congruence | lia] | ].
  destruct (Nat.ltb_spec (length (selected_group files)) 2); [split; [congruence | lia] | ].
  destruct (SD.sort_items (selected_group files)); [cbn in Hsort; lia | ].
  split; [auto | discriminate].
Qed.

Lemma detectSequence_output_general (files : list SD.File) (sequence : SD.SequenceInfo) :
  SD.detectSequence files = Some sequence ->
  (exists key,
      forall item,
        In item (selected_group files) ->
        (In (SD.file item) files
         /\ SD.extractFrameInfo (SD.name (SD.file item)) = Some (SD.info item))
        /\ SD.group_key (SD.info item) = key)
  /\ (exists sorted,
        Permutation sorted (selected_group files)
        /\ StronglySorted frame_le sorted
        /\ SD.files sequence = map SD.file sorted)
  /\ In (SD.startFrame sequence) (frame_numbers (selected_group files))
  /\ In (SD.endFrame sequence) (frame_numbers (selected_group files))
  /\ (forall n, In n (frame_numbers (selected_group files)) ->
                (SD.startFrame sequence <= n <= SD.endFrame sequence)%Z)
  /\ (forall z, In z (SD.gaps sequence)
                <-> (SD.startFrame sequence < z < SD.endFrame sequence)%Z
                    /\ ~ In z (frame_numbers (selected_group files)))
  /\ StronglySorted Z.lt (SD.gaps sequence).
Proof.
  unfold SD.detectSequence, selected_group.
  destruct (Nat.ltb (length files) 2); [discriminate | ].
  destruct (Nat.ltb (length (SD.frameInfos files)) 2); [discriminate | ].
  set (group := SD.largest_group (SD.group_items (SD.frameInfos files))).
  destruct (Nat.ltb_spec (length group) 2) as [ | Hlen]; [discriminate | ].
  pose proof (sort_items_sorted group) as Hsorted.
  pose proof (sort_items_perm group) as Hperm.
  destruct (SD.sort_items group) as [ | first rest] eqn:Hsort; [discriminate | ].
  intros [= <-]. cbn [SD.files SD.startFrame SD.endFrame SD.gaps].
  assert (Hnums : forall n, In n (frame_numbers group)
                            <-> In n (frame_numbers (first :: rest))).
  { intros n. unfold frame_numbers. rewrite !in_map_iff.
    split; intros (x & Hx & Hin); exists x; split; auto.
    - now rewrite Hperm.
    - now rewrite <- Hperm. }
  split.
  { destruct (selected_group_members files) as [Hnil | Hkey]; [ | exact Hkey].
    fold (selected_group files) in group. subst group. rewrite Hnil in Hlen.
    cbn in Hlen. lia. }
  split; [exists (first :: rest); auto | ].
  split; [apply Hnums; now left | ].
  split.
  { apply Hnums. unfold frame_numbers.
    apply (in_map (fun item => SD.number (SD.info item))), last_In. }
  split.
  { intros n Hn. apply Hnums in Hn. unfold frame_numbers in Hn.
    apply in_map_iff in Hn as (x & <- & Hx). split.
    - destruct Hx as [<- | Hx]; [lia | ].
      apply StronglySorted_inv in Hsorted as [_ Hall].
      rewrite List.Forall_forall in Hall. now apply Hall.
    - now apply (sorted_last_max _ first Hsorted). }
  split.
  { intros z. rewrite In_find_gaps. fold (frame_numbers (first :: rest)).
    now rewrite (Hnums z). }
  apply filter_increasing, between_increasing.
Qed.

(** C2. The code at a sequence with a gap whose file count equals the
    length of its range (what [detectSequence] returns for frames 0, 1, 1
    and 3): the warning lists the missing frame, and that warning alone
    makes the result invalid, where the specification has it valid. *)
Theorem validateSequence_gap_alone_invalidates :
  SD.detectSequence gapped_files = Some gapped_sequence
  /\ Z.of_nat (length (SD.files gapped_sequence))
     = (SD.endFrame gapped_sequence - SD.startFrame gapped_sequence + 1)%Z
  /\ SD.validateSequence gapped_sequence
     = {| SD.valid := false; SD.warnings := ["Missing frames: 2 (1 gaps)"] |}.
Proof.
  repeat split; vm_compute; reflexivity.
Qed.

End Sequences.

(** ** The store and the resize renormaliser *)

Section Store.

Lemma bind_run {A B} (m : M A) (f : A -> M B) (h : heap) (r : error + B) (h' : heap) :
  bind m f h = (r, h') ->
  (exists e, m h = (inl e, h') /\ r = inl e)
  \/ (exists a h1, m h = (inr a, h1) /\ f a h1 = (r, h')).
Proof.
  unfold bind. destruct (m h) as [[e | a] h1].
  - intros [= <- <-]. left. eauto.
  - intros H. right. eauto.
Qed.

Lemma reads_only_run {A} (m : M A) (h : heap) (r : error + A) (h' : heap) :
  reads_only m -> m h = (r, h') -> h' = h.
Proof.
  intros Hm Hrun. specialize (Hm h). rewrite Hrun in Hm. exact Hm.
Qed.

Lemma deref_reads (l : loc) : reads_only (deref l).
Proof. intros h. unfold deref. now destruct (h !! l). Qed.

Lemma get_prop_reads (v : val) (k : string) : reads_only (get_prop v k).
Proof.
  intros h. destruct v; try reflexivity.
  cbn [get_prop]. unfold bind, deref. destruct (h !! l) as [[ps | es] | ]; reflexivity.
Qed.

Lemma own_props_reads (v : val) : reads_only (own_props v).
Proof.
  intros h. destruct v; try reflexivity.
  cbn [own_props]. unfold bind, deref. destruct (h !! l) as [[ps | es] | ]; reflexivity.
Qed.

Lemma js_add_reads (v : val) (d : float) : reads_only (js_add v d).
Proof. intros h. destruct v; reflexivity. Qed.

Lemma coord_fields_reads (ty : val) : reads_only (coord_fields ty).
Proof.
  intros h. destruct ty; try reflexivity. cbn [coord_fields].
  destruct (table_lookup s ABSOLUTE_COORD_TYPES); [reflexivity | ].
  destruct (mem_string s Object_prototype_members); reflexivity.
Qed.

Lemma elements_to_map_reads (emitters : val) : reads_only (elements_to_map emitters).
Proof.
  intros h. destruct emitters; try reflexivity.
  - cbn [elements_to_map]. destruct (String.eqb s EmptyString); reflexivity.
  - cbn [elements_to_map]. unfold bind, deref.
    destruct (h !! l) as [[ps | [ | e es]] | ]; try reflexivity.
    destruct (prop_lookup "length" ps); try reflexivity.
    destruct (PrimFloat.eqb n 0); reflexivity.
Qed.

(** C5. When [dx] and [dy] are both zero, or the list is empty, the
    renormaliser returns its argument, the very reference it was given, and
    allocates nothing. *)
Theorem recentre_identity
    (h : heap) (emitters : val) (oldWidth oldHeight newWidth newHeight : float) :
  (PrimFloat.eqb (newWidth / 2 - oldWidth / 2) 0 = true
   /\ PrimFloat.eqb (newHeight / 2 - oldHeight / 2) 0 = true)
  \/ array_elems h emitters = Some [] ->
  recentreEmittersOnResize emitters oldWidth oldHeight newWidth newHeight h
  = (inr emitters, h).
Proof.
  unfold recentreEmittersOnResize. intros [[-> ->] | Hempty]; [reflexivity | ].
  destruct (_ && _); [reflexivity | ].
  destruct emitters as [ | | | | | l]; try discriminate.
  cbn [array_elems] in Hempty. unfold bind. cbn [elements_to_map]. unfold bind, deref.
  destruct (h !! l) as [[ps | es] | ]; try discriminate.
  injection Hempty as ->. reflexivity.
Qed.

Lemma heap_extends_refl (h : heap) : heap_extends h h.
Proof. intros l c H. exact H. Qed.

Lemma heap_extends_trans (h1 h2 h3 : heap) :
  heap_extends h1 h2 -> heap_extends h2 h3 -> heap_extends h1 h3.
Proof. intros H12 H23 l c H. auto. Qed.

Lemma heap_extends_app (h k : heap) : heap_extends h (h ++ k).
Proof. intros l c H. now apply lookup_app_l_Some. Qed.

Lemma heap_extends_length (h h' : heap) : heap_extends h h' -> length h <= length h'.
Proof.
  intros Hext. destruct (decide (length h = 0)) as [-> | Hne]; [lia | ].
  destruct (lookup_lt_is_Some_2 h (length h - 1)) as [c Hc]; [lia | ].
  apply Hext, lookup_lt_Some in Hc. lia.
Qed.

Lemma grows_except_refl (lu : loc) (h : heap) : grows_except lu h h.
Proof. split; auto. Qed.

Lemma grows_except_trans (lu : loc) (h1 h2 h3 : heap) :
  grows_except lu h1 h2 -> grows_except lu h2 h3 -> grows_except lu h1 h3.
Proof. intros [L12 H12] [L23 H23]. split; [lia | auto]. Qed.

Lemma grows_except_app (lu : loc) (h k : heap) : grows_except lu h (h ++ k).
Proof.
  split; [rewrite length_app; lia | ].
  intros l c _ H. now apply lookup_app_l_Some.
Qed.

Lemma grows_except_insert (lu : loc) (h : heap) (c : cell) : grows_except lu h (<[lu := c]> h).
Proof.
  split; [now rewrite length_insert | ].
  intros l c' Hne H. now rewrite list_lookup_insert_ne.
Qed.

Lemma extends_grows_except (lu : loc) (h h' : heap) :
  heap_extends h h' -> grows_except lu h h'.
Proof.
  intros H. split; [now apply heap_extends_length | auto].
Qed.

Lemma object_props_mono (h h' : heap) (v : val) (ps : list (string * val)) :
  (forall l c, v = VRef l -> h !! l = Some c -> h' !! l = Some c) ->
  object_props h v = Some ps -> object_props h' v = Some ps.
Proof.
  destruct v as [ | | | | | l]; try discriminate. cbn [object_props].
  intros H. destruct (h !! l) as [c | ] eqn:Hl; [ | discriminate].
  rewrite (H l c eq_refl Hl). auto.
Qed.

Lemma array_elems_mono (h h' : heap) (v : val) (es : list val) :
  (forall l c, v = VRef l -> h !! l = Some c -> h' !! l = Some c) ->
  array_elems h v = Some es -> array_elems h' v = Some es.
Proof.
  destruct v as [ | | | | | l]; try discriminate. cbn [array_elems].
  intros H. destruct (h !! l) as [c | ] eqn:Hl; [ | discriminate].
  rewrite (H l c eq_refl Hl). auto.
Qed.

Lemma vec2_coords_mono (h h' : heap) (v : val) (xy : float * float) :
  (forall l c, v = VRef l -> h !! l = Some c -> h' !! l = Some c) ->
  vec2_coords h v = Some xy -> vec2_coords h' v = Some xy.
Proof.
  unfold vec2_coords. intros H.
  destruct (object_props h v) as [ps | ] eqn:Hps; [ | discriminate].
  now rewrite (object_props_mono h h' v ps H Hps).
Qed.

Lemma bind_inr {A B} (m : M A) (f : A -> M B) (h h1 : heap) (a : A) :
  m h = (inr a, h1) -> bind m f h = f a h1.
Proof. unfold bind. now intros ->. Qed.

Lemma get_prop_object (h : heap) (v : val) (ps : list (string * val)) (k : string) :
  object_props h v = Some ps -> get_prop v k h = (inr (prop_lookup k ps), h).
Proof.
  destruct v as [ | | | | | l]; try discriminate. cbn [object_props get_prop].
  unfold bind, deref. destruct (h !! l) as [[ps' | es] | ]; try discriminate.
  now intros [= ->].
Qed.

(** What one call of [shiftPoint] does to the store. *)
Lemma shiftPoint_run (p : val) (dx dy : float) (h : heap) (r : error + val) (h' : heap) :
  shiftPoint p dx dy h = (r, h') ->
  (h' = h /\ exists e, r = inl e)
  \/ (exists c, r = inr (VRef (length h)) /\ h' = h ++ [CObj c]).
Proof.
  unfold shiftPoint. intros Hrun.
  apply bind_run in Hrun as [(e & Hm & ->) | (px & h1 & Hm & Hrun)].
  { apply reads_only_run in Hm; [eauto | apply get_prop_reads]. }
  apply reads_only_run in Hm as ->; [ | apply get_prop_reads].
  apply bind_run in Hrun as [(e & Hm & ->) | (x & h1 & Hm & Hrun)].
  { apply reads_only_run in Hm; [eauto | apply js_add_reads]. }
  apply reads_only_run in Hm as ->; [ | apply js_add_reads].
  apply bind_run in Hrun as [(e & Hm & ->) | (py & h1 & Hm & Hrun)].
  { apply reads_only_run in Hm; [eauto | apply get_prop_reads]. }
  apply reads_only_run in Hm as ->; [ | apply get_prop_reads].
  apply bind_run in Hrun as [(e & Hm & ->) | (y & h1 & Hm & Hrun)].
  { apply reads_only_run in Hm; [eauto | apply js_add_reads]. }
  apply reads_only_run in Hm as ->; [ | apply js_add_reads].
  injection Hrun as <- <-. right. eauto.
Qed.

Lemma shiftPoint_total (p : val) (dx dy x y : float) (h : heap) :
  vec2_coords h p = Some (x, y) ->
  shiftPoint p dx dy h
  = (inr (VRef (length h)),
     h ++ [CObj [("x", VNum (x + dx)%float); ("y", VNum (y + dy)%float)]]).
Proof.
  unfold vec2_coords. destruct (object_props h p) as [ps | ] eqn:Hps; [ | discriminate].
  destruct (prop_lookup "x" ps) eqn:Hx; try discriminate.
  destruct (prop_lookup "y" ps) eqn:Hy; try discriminate.
  intros [= -> ->]. unfold shiftPoint.
  rewrite (bind_inr _ _ _ _ _ (get_prop_object h p ps "x" Hps)), Hx.
  rewrite (bind_inr _ _ h h (VNum (x + dx)%float)) by reflexivity.
  rewrite (bind_inr _ _ _ _ _ (get_prop_object h p ps "y" Hps)), Hy.
  rewrite (bind_inr _ _ h h (VNum (y + dy)%float)) by reflexivity.
  reflexivity.
Qed.

(** Mapping [shiftPoint] over an array: the store grows by one point per
    element, and the results are the references to these points. *)
Lemma traverse_shiftPoint_run (dx dy : float) (ps : list val) :
  forall (h : heap) (r : error + list val) (h' : heap),
    traverse (fun p => shiftPoint p dx dy) ps h = (r, h') ->
    heap_extends h h'
    /\ forall qs, r = inr qs ->
         Forall (fun q => exists l, q = VRef l /\ length h <= l < length h') qs.
Proof.
  induction ps as [ | p ps IH]; intros h r h' Hrun; cbn [traverse] in Hrun.
  - injection Hrun as <- <-. split; [apply heap_extends_refl | ].
    intros qs [= <-]. constructor.
  - apply bind_run in Hrun as [(e & Hm & ->) | (q & h1 & Hm & Hrun)].
    { apply shiftPoint_run in Hm as [[-> _] | (c & [=] & _)].
      split; [apply heap_extends_refl | discriminate]. }
    apply shiftPoint_run in Hm as [[_ (e & [=])] | (c & [= ->] & ->)].
    apply bind_run in Hrun as [(e & Hm & ->) | (qs & h2 & Hm & Hrun)].
    { apply IH in Hm as [Hext _].
      split; [ | discriminate].
      eapply heap_extends_trans; [apply heap_extends_app | exact Hext]. }
    injection Hrun as <- <-.
    apply IH in Hm as [Hext Hqs]. specialize (Hqs qs eq_refl).
    pose proof (heap_extends_length _ _ Hext) as Hlen. rewrite length_app in Hlen. cbn in Hlen.
    split; [eapply heap_extends_trans; [apply heap_extends_app | exact Hext] | ].
    intros ? [= <-]. constructor.
    + exists (length h). split; [reflexivity | lia].
    + eapply List.Forall_impl; [ | exact Hqs].
      intros q' (l & -> & Hl). exists l. rewrite length_app in Hl. cbn in Hl.
      split; [reflexivity | lia].
Qed.

Lemma prop_lookup_set (k k' : string) (v : val) (ps : list (string * val)) :
  prop_lookup k' (prop_set k v ps)
  = if String.eqb k' k then v else prop_lookup k' ps.
Proof.
  induction ps as [ | [k0 v0] ps IH]; cbn [prop_set prop_lookup].
  - reflexivity.
  - destruct (String.eqb_spec k k0) as [-> | Hne]; cbn [prop_lookup].
    + now destruct (String.eqb k' k0).
    + rewrite IH. destruct (String.eqb_spec k' k0) as [-> | Hne'].
      * destruct (String.eqb_spec k0 k); [congruence | reflexivity].
      * reflexivity.
Qed.

Lemma set_prop_run (lu : loc) (k : string) (v : val) (h : heap) (ps : list (string * val)) :
  h !! lu = Some (CObj ps) ->
  set_prop (VRef lu) k v h = (inr tt, <[lu := CObj (prop_set k v ps)]> h).
Proof. cbn [set_prop]. now intros ->. Qed.

Lemma fresh_tree_stable (lu : loc) (h h' : heap) (v : val) :
  grows_except lu h h' -> fresh_tree h lu v -> fresh_tree h' lu v.
Proof.
  intros [Hlen Hkeep] (l & -> & Hl & Harr). exists l.
  split; [reflexivity | ]. split; [lia | ].
  intros elems Hcell. apply Harr.
  destruct (lookup_lt_is_Some_2 h l) as [c Hc]; [lia | ].
  assert (Hc' : h' !! l = Some c) by (apply Hkeep; [lia | exact Hc]).
  rewrite Hc' in Hcell. rewrite Hc. exact Hcell.
Qed.

Lemma updated_inv_stable (props : list (string * val)) (lu : loc) (h h' : heap) :
  heap_extends h h' -> updated_inv props lu h -> updated_inv props lu h'.
Proof.
  intros Hext (Hlu & ps & Hcell & Hpos & Hall).
  pose proof (extends_grows_except lu _ _ Hext) as Hgrow.
  split; [destruct Hgrow; lia | ].
  exists ps. split; [now apply Hext | ].
  split; [now apply (fresh_tree_stable lu h) | ].
  intros k. destruct (Hall k); [auto | right; now apply (fresh_tree_stable lu h)].
Qed.

(** Assigning a fresh value to a field of [updated]. *)
Lemma updated_inv_set (props : list (string * val)) (lu : loc) (h : heap)
      (field : string) (v : val) (ps : list (string * val)) :
  field <> "position" ->
  updated_inv props lu h ->
  h !! lu = Some (CObj ps) ->
  fresh_tree h lu v ->
  updated_inv props lu (<[lu := CObj (prop_set field v ps)]> h).
Proof.
  intros Hfield (Hlu & ps' & Hcell & Hpos & Hall) Hps Hv.
  rewrite Hps in Hcell. injection Hcell as <-.
  pose proof (grows_except_insert lu h (CObj (prop_set field v ps))) as Hgrow.
  split; [now rewrite length_insert | ].
  exists (prop_set field v ps).
  split; [now apply list_lookup_insert_eq | ].
  split.
  - rewrite prop_lookup_set.
    destruct (String.eqb_spec "position" field); [congruence | ].
    now apply (fresh_tree_stable lu h).
  - intros k. rewrite prop_lookup_set. destruct (String.eqb k field).
    + right. now apply (fresh_tree_stable lu h).
    + destruct (Hall k); [auto | right; now apply (fresh_tree_stable lu h)].
Qed.

Lemma shiftField_frame (props : list (string * val)) (lu : loc)
      (emitter : val) (dx dy : float) (field : string)
      (h : heap) (r : error + unit) (h' : heap) :
  field <> "position" ->
  updated_inv props lu h ->
  shiftField emitter (VRef lu) dx dy field h = (r, h') ->
  grows_except lu h h' /\ updated_inv props lu h'.
Proof.
  intros Hfield Hinv Hrun. unfold shiftField in Hrun.
  apply bind_run in Hrun as [(e & Hm & ->) | (value & h1 & Hm & Hrun)].
  { apply reads_only_run in Hm as ->; [ | apply get_prop_reads].
    split; [apply grows_except_refl | exact Hinv]. }
  apply reads_only_run in Hm as ->; [ | apply get_prop_reads].
  destruct value as [ | | | | | l];
    try (injection Hrun as <- <-; split; [apply grows_except_refl | exact Hinv]).
  apply bind_run in Hrun as [(e & Hm & ->) | (c & h1 & Hm & Hrun)].
  { apply reads_only_run in Hm as ->; [ | apply deref_reads].
    split; [apply grows_except_refl | exact Hinv]. }
  apply reads_only_run in Hm as ->; [ | apply deref_reads].
  destruct Hinv as (Hlu & ps & Hcell & Hrest).
  assert (Hinv : updated_inv props lu h) by (split; eauto).
  destruct c as [pp | elems].
  - (* a single point *)
    destruct (has_key "x" pp && has_key "y" pp).
    2:{ injection Hrun as <- <-. split; [apply grows_except_refl | exact Hinv]. }
    apply bind_run in Hrun as [(e & Hm & ->) | (q & h1 & Hm & Hrun)].
    { apply shiftPoint_run in Hm as [[-> _] | (c & [=] & _)].
      split; [apply grows_except_refl | exact Hinv]. }
    apply shiftPoint_run in Hm as [[_ (e & [=])] | (c & [= ->] & ->)].
    pose proof (heap_extends_app h [CObj c]) as Hext.
    rewrite (set_prop_run lu field _ _ ps (Hext _ _ Hcell)) in Hrun.
    injection Hrun as <- <-. split.
    + eapply grows_except_trans; [apply grows_except_app | apply grows_except_insert].
    + apply (updated_inv_set props lu _ field _ ps Hfield).
      { now apply (updated_inv_stable props lu h). }
      { now apply Hext. }
      exists (length h). split; [reflexivity | ].
      split; [rewrite length_app; cbn; lia | ].
      intros es Hes. rewrite lookup_app_r, Nat.sub_diag in Hes by lia. discriminate.
  - (* an array of points *)
    apply bind_run in Hrun as [(e & Hm & ->) | (qs & h1 & Hm & Hrun)].
    { apply traverse_shiftPoint_run in Hm as [Hext _].
      split; [now apply extends_grows_except | now apply (updated_inv_stable props lu h)]. }
    apply traverse_shiftPoint_run in Hm as [Hext Hqs]. specialize (Hqs qs eq_refl).
    pose proof (heap_extends_length _ _ Hext) as Hlen.
    rewrite (bind_inr _ _ h1 (h1 ++ [CArr qs]) (VRef (length h1))) in Hrun by reflexivity.
    pose proof (heap_extends_app h1 [CArr qs]) as Hext1.
    rewrite (set_prop_run lu field _ _ ps (Hext1 _ _ (Hext _ _ Hcell))) in Hrun.
    injection Hrun as <- <-. split.
    + eapply grows_except_trans; [ | apply grows_except_insert].
      apply extends_grows_except. eapply heap_extends_trans; eauto.
    + apply (updated_inv_set props lu _ field _ ps Hfield).
      { apply (updated_inv_stable props lu h); [ | exact Hinv].
        eapply heap_extends_trans; eauto. }
      { now apply Hext1, Hext. }
      exists (length h1). split; [reflexivity | ].
      split; [rewrite length_app; cbn; lia | ].
      intros es Hes. rewrite lookup_app_r, Nat.sub_diag in Hes by lia.
      injection Hes as <-.
      eapply List.Forall_impl; [ | exact Hqs].
      intros q (l' & -> & Hl'). exists l'. split; [reflexivity | lia].
Qed.

Lemma for_each_shiftField_frame (props : list (string * val)) (lu : loc)
      (emitter : val) (dx dy : float) (fields : list string) :
  Forall (fun f => f <> "position") fields ->
  forall (h : heap) (r : error + unit) (h' : heap),
    updated_inv props lu h ->
    for_each (shiftField emitter (VRef lu) dx dy) fields h = (r, h') ->
    grows_except lu h h' /\ updated_inv props lu h'.
Proof.
  induction 1 as [ | f fields Hf _ IH]; intros h r h' Hinv Hrun; cbn [for_each] in Hrun.
  - injection Hrun as <- <-. split; [apply grows_except_refl | exact Hinv].
  - apply bind_run in Hrun as [(e & Hm & ->) | ([] & h1 & Hm & Hrun)].
    + now apply (shiftField_frame props lu) in Hm.
    + apply (shiftField_frame props lu) in Hm as [Hg1 Hinv1]; [ | assumption ..].
      apply IH in Hrun as [Hg2 Hinv2]; [ | assumption].
      split; [eapply grows_except_trans; eauto | exact Hinv2].
Qed.

Lemma extends_then_grows (lu : loc) (h h1 h' : heap) :
  length h <= lu -> heap_extends h h1 -> grows_except lu h1 h' -> heap_extends h h'.
Proof.
  intros Hlu Hext [_ Hkeep] l c Hl. apply Hkeep; [ | now apply Hext].
  apply lookup_lt_Some in Hl. lia.
Qed.

Lemma coord_fields_not_position (ty : val) (h : heap) (fs : list string) (h' : heap) :
  coord_fields ty h = (inr fs, h') -> Forall (fun f => f <> "position") fs.
Proof.
  destruct ty as [ | | | | s | ]; cbn [coord_fields]; try (intros [= <- _]; constructor);
    try discriminate.
  destruct (table_lookup s ABSOLUTE_COORD_TYPES) as [fs' | ] eqn:Hs.
  - intros [= <- _]. cbn in Hs.
    destruct (String.eqb s "line"); [injection Hs as <-; repeat constructor; discriminate | ].
    destruct (String.eqb s "path"); [injection Hs as <-; repeat constructor; discriminate | ].
    discriminate.
  - destruct (mem_string s Object_prototype_members); [discriminate | ].
    intros [= <- _]. constructor.
Qed.

Lemma emitter_is_object (e : val) (h h1 : heap) (props : list (string * val))
      (position : val) :
  heap_extends h h1 ->
  own_props e h = (inr props, h) ->
  get_prop e "position" h1 = (inr position, h1) ->
  position <> VUndefined ->
  object_props h e = Some props.
Proof.
  intros Hext.
  destruct e as [ | | | | | l]; cbn [own_props get_prop object_props];
    try discriminate; try (intros _ [= <-]; congruence).
  unfold bind, deref. destruct (h !! l) as [[ps | es] | ] eqn:Hl; try discriminate.
  - now intros [= <-].
  - rewrite (Hext _ _ Hl). intros _ [= <-]. congruence.
Qed.

(** What one call of the callback does to the store. *)
Lemma recentreEmitter_frame (dx dy : float) (e : val)
      (h : heap) (r : error + val) (h' : heap) :
  recentreEmitter dx dy e h = (r, h') ->
  heap_extends h h'
  /\ forall u, r = inr u -> copied_emitter (length h) h' e u.
Proof.
  unfold recentreEmitter. intros Hrun.
  apply bind_run in Hrun as [(err & Hm & ->) | (props & h0 & Hown & Hrun)].
  { apply reads_only_run in Hm as ->; [ | apply own_props_reads].
    split; [apply heap_extends_refl | discriminate]. }
  pose proof (reads_only_run _ _ _ _ (own_props_reads e) Hown) as ->.
  rewrite (bind_inr _ _ h (h ++ [CObj props]) (VRef (length h))) in Hrun by reflexivity.
  set (lu := length h) in *. set (h1 := h ++ [CObj props]) in *.
  assert (Hext1 : heap_extends h h1) by apply heap_extends_app.
  assert (Hcell1 : h1 !! lu = Some (CObj props)).
  { unfold h1, lu. now rewrite lookup_app_r, Nat.sub_diag by lia. }
  assert (Hlen1 : length h1 = S lu) by (unfold h1, lu; rewrite length_app; cbn; lia).
  apply bind_run in Hrun as [(err & Hm & ->) | (position & h0 & Hpos & Hrun)].
  { apply reads_only_run in Hm as ->; [ | apply get_prop_reads].
    split; [exact Hext1 | discriminate]. }
  pose proof (reads_only_run _ _ _ _ (get_prop_reads e "position") Hpos) as ->.
  apply bind_run in Hrun as [(err & Hm & ->) | (shifted & h2 & Hshift & Hrun)].
  { apply shiftPoint_run in Hm as [[-> _] | (c & [=] & _)].
    split; [exact Hext1 | discriminate]. }
  assert (Hdefined : position <> VUndefined).
  { intros ->. discriminate Hshift. }
  apply shiftPoint_run in Hshift as [[_ (err & [=])] | (c & [= ->] & ->)].
  rewrite Hlen1 in Hrun.
  set (h2 := h1 ++ [CObj c]) in *.
  assert (Hext2 : heap_extends h1 h2) by apply heap_extends_app.
  rewrite (bind_inr _ _ h2 (<[lu := CObj (prop_set "position" (VRef (S lu)) props)]> h2) tt)
    in Hrun by (apply set_prop_run; now apply Hext2).
  set (h3 := <[lu := _]> h2) in *.
  assert (Hgrow3 : grows_except lu h1 h3).
  { eapply grows_except_trans; [apply grows_except_app | apply grows_except_insert]. }
  assert (Hlen3 : length h3 = S (S lu)).
  { unfold h3, h2. rewrite length_insert, length_app, Hlen1. cbn. lia. }
  assert (Hinv3 : updated_inv props lu h3).
  { split; [lia | ]. exists (prop_set "position" (VRef (S lu)) props).
    split; [apply list_lookup_insert_eq; unfold h2; rewrite length_app; lia | ].
    assert (Hfresh : fresh_tree h3 lu (VRef (S lu))).
    { exists (S lu). split; [reflexivity | ]. split; [lia | ].
      intros es Hes. unfold h3, h2 in Hes.
      rewrite list_lookup_insert_ne, lookup_app_r, Hlen1, Nat.sub_diag in Hes by lia.
      discriminate. }
    split; [now rewrite prop_lookup_set | ].
    intros k. rewrite prop_lookup_set. destruct (String.eqb k "position"); auto. }
  assert (Hobj : object_props h e = Some props).
  { now apply (emitter_is_object e h h1 props position). }
  apply bind_run in Hrun as [(err & Hm & ->) | (ty & h0 & Hty & Hrun)].
  { apply reads_only_run in Hm as ->; [ | apply get_prop_reads].
    split; [ | discriminate]. now apply (extends_then_grows lu h h1). }
  apply reads_only_run in Hty as ->; [ | apply get_prop_reads].
  apply bind_run in Hrun as [(err & Hm & ->) | (fields & h0 & Hfields & Hrun)].
  { apply reads_only_run in Hm as ->; [ | apply coord_fields_reads].
    split; [ | discriminate]. now apply (extends_then_grows lu h h1). }
  pose proof (reads_only_run _ _ _ _ (coord_fields_reads ty) Hfields) as ->.
  apply coord_fields_not_position in Hfields.
  apply bind_run in Hrun as [(err & Hm & ->) | ([] & h4 & Hloop & Hrun)].
  { apply (for_each_shiftField_frame props lu) in Hm as [Hgrow _]; auto.
    split; [ | discriminate].
    apply (extends_then_grows lu h h1); auto.
    eapply grows_except_trans; eauto. }
  apply (for_each_shiftField_frame props lu) in Hloop as [Hgrow Hinv]; auto.
  injection Hrun as <- <-.
  assert (Hext : heap_extends h h4).
  { apply (extends_then_grows lu h h1); auto. eapply grows_except_trans; eauto. }
  split; [exact Hext | ].
  intros u [= <-]. exists lu, props. split; [reflexivity | ]. split; [lia | ].
  split; [ | exact Hinv].
  apply (object_props_mono h); auto.
Qed.

Lemma copied_emitter_stable (n : nat) (h h' : heap) (e u : val) :
  heap_extends h h' -> copied_emitter n h e u -> copied_emitter n h' e u.
Proof.
  intros Hext (lu & props & -> & Hn & Hobj & Hinv).
  exists lu, props. split; [reflexivity | ]. split; [exact Hn | ].
  split; [apply (object_props_mono h); auto | now apply (updated_inv_stable props lu h)].
Qed.

Lemma traverse_recentreEmitter_frame (dx dy : float) (es : list val) :
  forall (h : heap) (r : error + list val) (h' : heap),
    traverse (recentreEmitter dx dy) es h = (r, h') ->
    heap_extends h h'
    /\ forall outs, r = inr outs -> Forall2 (copied_emitter (length h) h') es outs.
Proof.
  induction es as [ | e es IH]; intros h r h' Hrun; cbn [traverse] in Hrun.
  - injection Hrun as <- <-. split; [apply heap_extends_refl | ].
    intros outs [= <-]. constructor.
  - apply bind_run in Hrun as [(err & Hm & ->) | (u & h1 & Hm & Hrun)].
    { apply recentreEmitter_frame in Hm as [Hext _]. split; [exact Hext | discriminate]. }
    apply recentreEmitter_frame in Hm as [Hext1 Hu]. specialize (Hu u eq_refl).
    apply bind_run in Hrun as [(err & Hm & ->) | (outs & h2 & Hm & Hrun)].
    { apply IH in Hm as [Hext2 _].
      split; [eapply heap_extends_trans; eauto | discriminate]. }
    apply IH in Hm as [Hext2 Houts]. specialize (Houts outs eq_refl).
    injection Hrun as <- <-.
    split; [eapply heap_extends_trans; eauto | ].
    intros ? [= <-]. constructor.
    + now apply (copied_emitter_stable _ h1).
    + eapply Forall2_impl; [exact Houts | ].
      intros e' u' (lu & props & -> & Hn & Hrest).
      exists lu, props. split; [reflexivity | ].
      split; [ | exact Hrest].
      apply heap_extends_length in Hext1. lia.
Qed.

Lemma keep_ref (lu : loc) (h h' : heap) (v : val) :
  grows_except lu h h' ->
  (forall l, v = VRef l -> l <> lu) ->
  forall l c, v = VRef l -> h !! l = Some c -> h' !! l = Some c.
Proof. intros [_ Hkeep] Hv l c -> Hl. apply Hkeep; auto. Qed.

Lemma extends_ref (h h' : heap) (v : val) :
  heap_extends h h' ->
  forall l c, v = VRef l -> h !! l = Some c -> h' !! l = Some c.
Proof. intros Hext l c _. apply Hext. Qed.

Lemma moved_point_stable (lu : loc) (h h1 h2 : heap) (dx dy : float) (p q : val) :
  grows_except lu h1 h2 ->
  moved_point lu h h1 dx dy p q -> moved_point lu h h2 dx dy p q.
Proof.
  intros Hgrow (l & -> & Hl & x & y & Hp & Hq).
  exists l. split; [reflexivity | ]. split; [exact Hl | ].
  exists x, y. split; [exact Hp | ].
  apply (vec2_coords_mono h1); [ | exact Hq].
  apply keep_ref with (lu := lu); [exact Hgrow | ]. intros ? [= <-]. lia.
Qed.

Lemma field_done_stable (lu : loc) (h h1 h2 : heap) (dx dy : float) (v v' : val) :
  grows_except lu h1 h2 ->
  field_done lu h h1 dx dy v v' -> field_done lu h h2 dx dy v v'.
Proof.
  intros Hgrow [Hpoint Harr]. split.
  - intros x y Hv. apply (moved_point_stable lu h h1); auto. eapply Hpoint; eauto.
  - intros elems Hv. destruct (Harr elems Hv) as (la & elems' & -> & Hla & Hcell & Hall).
    exists la, elems'. split; [reflexivity | ]. split; [exact Hla | ].
    split; [destruct Hgrow as [_ Hkeep]; apply Hkeep; [lia | exact Hcell] | ].
    eapply Forall2_impl; [exact Hall | ].
    intros p q. now apply moved_point_stable.
Qed.

Lemma is_vec2_coords (h : heap) (v : val) :
  is_vec2 h v = true -> exists x y, vec2_coords h v = Some (x, y).
Proof.
  unfold is_vec2. destruct (vec2_coords h v) as [[x y] | ]; [eauto | discriminate].
Qed.

(** Mapping [shiftPoint] over an array of points of [h0]. *)
Lemma traverse_shiftPoint_total (h0 : heap) (dx dy : float) (ps : list val) :
  forallb (is_vec2 h0) ps = true ->
  forall h,
    heap_extends h0 h ->
    exists qs h',
      traverse (fun p => shiftPoint p dx dy) ps h = (inr qs, h')
      /\ heap_extends h h'
      /\ Forall2 (fun p q => exists l, q = VRef l /\ length h <= l
                                       /\ translated h0 h' dx dy p q) ps qs.
Proof.
  induction ps as [ | p ps IH]; cbn [forallb traverse]; intros Hps h Hext.
  - exists [], h. split; [reflexivity | ]. split; [apply heap_extends_refl | constructor].
  - apply andb_prop in Hps as [Hp Hps].
    destruct (is_vec2_coords _ _ Hp) as (x & y & Hxy).
    pose proof (vec2_coords_mono h0 h p _ (extends_ref _ _ _ Hext) Hxy) as Hxy'.
    rewrite (bind_inr _ _ _ _ _ (shiftPoint_total p dx dy x y h Hxy')).
    set (h1 := h ++ _).
    assert (Hext1 : heap_extends h h1) by apply heap_extends_app.
    destruct (IH Hps h1) as (qs & h' & Hrun & Hext' & Hall).
    { eapply heap_extends_trans; eauto. }
    rewrite (bind_inr _ _ _ _ _ Hrun).
    exists (VRef (length h) :: qs), h'. split; [reflexivity | ].
    split; [eapply heap_extends_trans; eauto | ].
    constructor.
    + exists (length h). split; [reflexivity | ]. split; [lia | ].
      exists x, y. split; [exact Hxy | ].
      assert (Hcell : h' !! length h
                      = Some (CObj [("x", VNum (x + dx)%float); ("y", VNum (y + dy)%float)])).
      { apply Hext'. unfold h1. now rewrite lookup_app_r, Nat.sub_diag by lia. }
      unfold vec2_coords. cbn [object_props]. now rewrite Hcell.
    + eapply Forall2_impl; [exact Hall | ].
      intros p' q' (l & -> & Hl & Ht). exists l. split; [reflexivity | ].
      split; [ | exact Ht].
      apply heap_extends_length in Hext1. lia.
Qed.

Lemma has_key_lookup (k : string) (ps : list (string * val)) :
  prop_lookup k ps <> VUndefined -> has_key k ps = true.
Proof.
  induction ps as [ | [k' v] ps IH]; cbn [prop_lookup has_key]; [congruence | ].
  destruct (String.eqb k k'); auto.
Qed.

Lemma has_key_keys (k : string) (ps ps' : list (string * val)) :
  map fst ps = map fst ps' -> has_key k ps = has_key k ps'.
Proof.
  revert ps'. induction ps as [ | [k1 v1] ps IH]; intros [ | [k2 v2] ps'];
    cbn [map fst has_key]; try discriminate; [reflexivity | ].
  intros [= -> H]. now rewrite (IH ps' H).
Qed.

Lemma prop_set_keys (k : string) (v : val) (ps : list (string * val)) :
  has_key k ps = true -> map fst (prop_set k v ps) = map fst ps.
Proof.
  induction ps as [ | [k' v'] ps IH]; cbn [has_key prop_set]; [discriminate | ].
  destruct (String.eqb_spec k k') as [-> | Hne]; cbn [map fst orb]; [reflexivity | ].
  intros H. now rewrite IH.
Qed.

(** A field the loop leaves alone. *)
Lemma updated_state_skip (h0 : heap) (props : list (string * val)) (lu : loc)
      (dx dy : float) (done : list string) (h : heap) (field : string) :
  field <> "position" ->
  vec2_coords h0 (prop_lookup field props) = None ->
  array_elems h0 (prop_lookup field props) = None ->
  updated_state h0 props lu dx dy done h ->
  updated_state h0 props lu dx dy (field :: done) h.
Proof.
  intros Hfield Hvec Harr (Hlu & Hext & ps & Hcell & Hkeys & Hpos & Hdone & Hrest).
  split; [exact Hlu | ]. split; [exact Hext | ].
  exists ps. repeat (split; [assumption | ]). split.
  - intros f [<- | Hf]; [ | auto].
    split; [intros x y; congruence | intros elems; congruence].
  - intros k Hk Hnot. apply Hrest; [exact Hk | ]. intros Hin. apply Hnot. now right.
Qed.

(** A field the loop assigns a moved copy to. *)
Lemma updated_state_set (h0 : heap) (props : list (string * val)) (lu : loc)
      (dx dy : float) (done : list string) (h h2 : heap) (field : string)
      (ps : list (string * val)) (v' : val) :
  field <> "position" ->
  prop_lookup field props <> VUndefined ->
  updated_state h0 props lu dx dy done h ->
  h !! lu = Some (CObj ps) ->
  heap_extends h h2 ->
  field_done lu h0 h2 dx dy (prop_lookup field props) v' ->
  updated_state h0 props lu dx dy (field :: done)
                (<[lu := CObj (prop_set field v' ps)]> h2).
Proof.
  intros Hfield Hdef (Hlu & Hext & ps0 & Hcell & Hkeys & Hpos & Hdone & Hrest) Hps Hext2 Hnew.
  rewrite Hps in Hcell. injection Hcell as <-.
  set (h' := <[lu := _]> h2).
  assert (Hgrow : grows_except lu h h').
  { eapply grows_except_trans; [apply extends_grows_except, Hext2 | apply grows_except_insert]. }
  assert (Hgrow2 : grows_except lu h2 h') by apply grows_except_insert.
  split; [exact Hlu | ].
  split; [now apply (extends_then_grows lu h0 h) | ].
  exists (prop_set field v' ps).
  split.
  { apply list_lookup_insert_eq. apply Hext2, lookup_lt_Some in Hps. exact Hps. }
  split.
  { rewrite prop_set_keys; [exact Hkeys | ].
    rewrite (has_key_keys field ps props Hkeys). now apply has_key_lookup. }
  split.
  { rewrite prop_lookup_set.
    destruct (String.eqb_spec "position" field); [congruence | ].
    now apply (moved_point_stable lu h0 h). }
  split.
  - intros f Hf. rewrite prop_lookup_set.
    destruct (String.eqb_spec f field) as [-> | Hne].
    + now apply (field_done_stable lu h0 h2).
    + destruct Hf as [<- | Hf]; [congruence | ].
      apply (field_done_stable lu h0 h); auto.
  - intros k Hk Hnot. rewrite prop_lookup_set.
    destruct (String.eqb_spec k field) as [-> | Hne].
    + exfalso. apply Hnot. now left.
    + apply Hrest; [exact Hk | ]. intros Hin. apply Hnot. now right.
Qed.

Lemma vec2_coords_keys (h : heap) (l : loc) (pp : list (string * val)) (xy : float * float) :
  h !! l = Some (CObj pp) ->
  vec2_coords h (VRef l) = Some xy ->
  has_key "x" pp && has_key "y" pp = true.
Proof.
  unfold vec2_coords. cbn [object_props]. intros ->.
  destruct (prop_lookup "x" pp) eqn:Hx; try discriminate.
  destruct (prop_lookup "y" pp) eqn:Hy; try discriminate.
  intros _. rewrite !has_key_lookup by congruence. reflexivity.
Qed.

(** One turn of the loop on a well-typed field. *)
Lemma shiftField_total (h0 : heap) (props : list (string * val)) (lu : loc)
      (dx dy : float) (done : list string) (emitter : val) (field : string) (h : heap) :
  field <> "position" ->
  object_props h0 emitter = Some props ->
  wt_coord_field h0 (prop_lookup field props) = true ->
  updated_state h0 props lu dx dy done h ->
  exists h',
    shiftField emitter (VRef lu) dx dy field h = (inr tt, h')
    /\ updated_state h0 props lu dx dy (field :: done) h'.
Proof.
  intros Hfield Hobj Hwt Hstate.
  pose proof Hstate as (Hlu & Hext & ps & Hcell & _).
  assert (Hlt : lu < length h) by (now apply lookup_lt_Some in Hcell).
  unfold shiftField.
  rewrite (bind_inr _ _ _ _ _
             (get_prop_object h emitter props field
                (object_props_mono h0 h emitter props (extends_ref _ _ _ Hext) Hobj))).
  destruct (prop_lookup field props) as [ | | | | | l] eqn:Hv;
    try (exists h; split; [reflexivity | ];
         apply updated_state_skip; auto; rewrite Hv; reflexivity).
  cbn [wt_coord_field] in Hwt.
  destruct (h0 !! l) as [[pp | elems] | ] eqn:Hl; [ | | discriminate].
  - (* a point, or an object that is none *)
    rewrite (bind_inr _ _ h h (CObj pp)) by (unfold deref; now rewrite (Hext _ _ Hl)).
    destruct (has_key "x" pp && has_key "y" pp) eqn:Hkeys.
    + cbn [implb] in Hwt. destruct (is_vec2_coords _ _ Hwt) as (x & y & Hxy).
      pose proof (vec2_coords_mono h0 h _ _ (extends_ref _ _ _ Hext) Hxy) as Hxy'.
      rewrite (bind_inr _ _ _ _ _ (shiftPoint_total (VRef l) dx dy x y h Hxy')).
      set (h1 := h ++ _).
      assert (Hext1 : heap_extends h h1) by apply heap_extends_app.
      rewrite (set_prop_run lu field _ _ ps (Hext1 _ _ Hcell)).
      eexists. split; [reflexivity | ].
      apply (updated_state_set h0 props lu dx dy done h h1); auto; [congruence | ].
      rewrite Hv. split.
      * intros x' y' _. exists (length h). split; [reflexivity | ]. split; [lia | ].
        exists x, y. split; [exact Hxy | ].
        unfold vec2_coords, h1. cbn [object_props].
        now rewrite lookup_app_r, Nat.sub_diag by lia.
      * intros elems. cbn [array_elems]. rewrite Hl. discriminate.
    + exists h. split; [reflexivity | ].
      apply updated_state_skip; auto; rewrite Hv.
      * destruct (vec2_coords h0 (VRef l)) as [xy | ] eqn:Hxy; [ | reflexivity].
        rewrite (vec2_coords_keys h0 l pp xy Hl Hxy) in Hkeys. discriminate.
      * cbn [array_elems]. now rewrite Hl.
  - (* an array of points *)
    rewrite (bind_inr _ _ h h (CArr elems)) by (unfold deref; now rewrite (Hext _ _ Hl)).
    destruct (traverse_shiftPoint_total h0 dx dy elems Hwt h Hext)
      as (qs & h1 & Hrun & Hext1 & Hall).
    rewrite (bind_inr _ _ _ _ _ Hrun).
    rewrite (bind_inr _ _ h1 (h1 ++ [CArr qs]) (VRef (length h1))) by reflexivity.
    set (h2 := h1 ++ [CArr qs]).
    assert (Hext2 : heap_extends h h2).
    { eapply heap_extends_trans; [exact Hext1 | apply heap_extends_app]. }
    rewrite (set_prop_run lu field _ _ ps (Hext2 _ _ Hcell)).
    eexists. split; [reflexivity | ].
    apply (updated_state_set h0 props lu dx dy done h h2); auto; [congruence | ].
    rewrite Hv. split.
    + intros x y Hxy. unfold vec2_coords in Hxy. cbn [object_props] in Hxy.
      rewrite Hl in Hxy. discriminate.
    + intros elems0. cbn [array_elems]. rewrite Hl. intros [= <-].
      pose proof (heap_extends_length _ _ Hext1) as Hlen.
      exists (length h1), qs. split; [reflexivity | ]. split; [lia | ].
      split; [unfold h2; now rewrite lookup_app_r, Nat.sub_diag by lia | ].
      eapply Forall2_impl; [exact Hall | ].
      intros p q (lq & -> & Hlq & Ht).
      apply (moved_point_stable lu h0 h1); [apply grows_except_app | ].
      exists lq. split; [reflexivity | ]. split; [lia | exact Ht].
Qed.

Lemma for_each_shiftField_total (h0 : heap) (props : list (string * val)) (lu : loc)
      (dx dy : float) (emitter : val) (fields : list string) :
  Forall (fun f => f <> "position") fields ->
  object_props h0 emitter = Some props ->
  forallb (fun f => wt_coord_field h0 (prop_lookup f props)) fields = true ->
  forall (done : list string) (h : heap),
    updated_state h0 props lu dx dy done h ->
    exists h',
      for_each (shiftField emitter (VRef lu) dx dy) fields h = (inr tt, h')
      /\ updated_state h0 props lu dx dy (rev fields ++ done) h'.
Proof.
  intros Hfields Hobj. induction Hfields as [ | f fields Hf _ IH];
    cbn [forallb for_each]; intros Hwt done h Hstate.
  - exists h. split; [reflexivity | exact Hstate].
  - apply andb_prop in Hwt as [Hwf Hwt].
    destruct (shiftField_total h0 props lu dx dy done emitter f h Hf Hobj Hwf Hstate)
      as (h1 & Hrun & Hstate1).
    rewrite (bind_inr _ _ _ _ _ Hrun).
    destruct (IH Hwt (f :: done) h1 Hstate1) as (h' & Hrun' & Hstate').
    exists h'. split; [exact Hrun' | ].
    cbn [rev]. now rewrite <- app_assoc.
Qed.

Lemma own_props_object (h : heap) (e : val) (props : list (string * val)) :
  object_props h e = Some props -> own_props e h = (inr props, h).
Proof.
  destruct e as [ | | | | | l]; try discriminate. cbn [object_props own_props].
  unfold bind, deref. destruct (h !! l) as [[ps | es] | ]; try discriminate.
  now intros [= ->].
Qed.

Lemma recentred_stable (h0 h1 h' : heap) (dx dy : float) (e u : val) :
  heap_extends h1 h' -> recentred h0 h1 dx dy e u -> recentred h0 h' dx dy e u.
Proof.
  intros Hext (props & props' & He & Hu & Hkeys & Hpos & Hfields & Hrest).
  assert (Htr : forall p q, translated h0 h1 dx dy p q -> translated h0 h' dx dy p q).
  { intros p q (x & y & Hp & Hq). exists x, y. split; [exact Hp | ].
    apply (vec2_coords_mono h1); [apply extends_ref, Hext | exact Hq]. }
  exists props, props'. split; [exact He | ].
  split; [apply (object_props_mono h1); [apply extends_ref, Hext | exact Hu] | ].
  split; [exact Hkeys | ]. split; [now apply Htr | ].
  split; [ | exact Hrest].
  intros f Hf. destruct (Hfields f Hf) as [Hpoint Harr]. split.
  - intros x y Hxy. eapply Htr, Hpoint, Hxy.
  - intros elems Helems. destruct (Harr elems Helems) as (elems' & Hn & Hall).
    exists elems'. split.
    + apply (array_elems_mono h1); [apply extends_ref, Hext | exact Hn].
    + eapply Forall2_impl; [exact Hall | exact Htr].
Qed.

(** The callback on a well-typed emitter of [h0], run in a store [h] that
    extends [h0]. *)
Lemma recentreEmitter_total (h0 : heap) (dx dy : float) (e : val) (h : heap) :
  heap_extends h0 h ->
  wt_emitter h0 e = true ->
  exists h',
    recentreEmitter dx dy e h = (inr (VRef (length h)), h')
    /\ heap_extends h h'
    /\ recentred h0 h' dx dy e (VRef (length h)).
Proof.
  intros Hext Hwt. unfold wt_emitter in Hwt.
  destruct (object_props h0 e) as [props | ] eqn:Hobj; [ | discriminate].
  apply andb_prop in Hwt as [Hposition Hwt].
  destruct (prop_lookup "type" props) as [ | | | | ty | ] eqn:Hty; try discriminate.
  apply andb_prop in Hwt as [Hmember Hfields]. apply negb_true_iff in Hmember.
  destruct (is_vec2_coords _ _ Hposition) as (x & y & Hxy).
  pose proof (object_props_mono h0 h e props (extends_ref _ _ _ Hext) Hobj) as Hobj'.
  assert (Hrun : exists h',
             recentreEmitter dx dy e h = (inr (VRef (length h)), h')
             /\ updated_state h0 props (length h) dx dy
                              (rev (fields_of_type (VStr ty)) ++ []) h').
  { unfold recentreEmitter.
    rewrite (bind_inr _ _ _ _ _ (own_props_object h e props Hobj')).
    rewrite (bind_inr _ _ h (h ++ [CObj props]) (VRef (length h))) by reflexivity.
    set (lu := length h). set (h1 := h ++ [CObj props]).
    assert (Hext1 : heap_extends h h1) by apply heap_extends_app.
    assert (Hlen1 : length h1 = S lu) by (unfold h1, lu; rewrite length_app; cbn; lia).
    assert (Hcell1 : h1 !! lu = Some (CObj props)).
    { unfold h1, lu. now rewrite lookup_app_r, Nat.sub_diag by lia. }
    assert (Hobj1 : object_props h1 e = Some props).
    { apply (object_props_mono h); [apply extends_ref, Hext1 | exact Hobj']. }
    rewrite (bind_inr _ _ _ _ _ (get_prop_object h1 e props "position" Hobj1)).
    assert (Hxy1 : vec2_coords h1 (prop_lookup "position" props) = Some (x, y)).
    { apply (vec2_coords_mono h0); [ | exact Hxy].
      apply extends_ref. eapply heap_extends_trans; eauto. }
    rewrite (bind_inr _ _ _ _ _ (shiftPoint_total _ dx dy x y h1 Hxy1)).
    rewrite Hlen1. set (h2 := h1 ++ _).
    assert (Hext2 : heap_extends h1 h2) by apply heap_extends_app.
    rewrite (bind_inr _ _ _ _ _
               (set_prop_run lu "position" (VRef (S lu)) h2 props (Hext2 _ _ Hcell1))).
    set (h3 := <[lu := _]> h2).
    assert (Hgrow3 : grows_except lu h1 h3).
    { eapply grows_except_trans; [apply grows_except_app | apply grows_except_insert]. }
    assert (Hext3 : heap_extends h h3) by (now apply (extends_then_grows lu h h1)).
    assert (Hcell3 : h3 !! lu = Some (CObj (prop_set "position" (VRef (S lu)) props))).
    { apply list_lookup_insert_eq. unfold h2. rewrite length_app. lia. }
    assert (Hstate3 : updated_state h0 props lu dx dy [] h3).
    { split; [apply heap_extends_length in Hext; exact Hext | ].
      split; [eapply heap_extends_trans; eauto | ].
      eexists. split; [exact Hcell3 | ].
      split.
      { apply prop_set_keys, has_key_lookup.
        destruct (prop_lookup "position" props); discriminate. }
      split.
      { rewrite prop_lookup_set. cbn [String.eqb Ascii.eqb Bool.eqb].
        exists (S lu). split; [reflexivity | ]. split; [lia | ].
        exists x, y. split; [exact Hxy | ].
        unfold vec2_coords, h3, h2. cbn [object_props].
        now rewrite list_lookup_insert_ne, lookup_app_r, Hlen1, Nat.sub_diag by lia. }
      split; [intros f [] | ].
      intros k Hk _. rewrite prop_lookup_set.
      destruct (String.eqb_spec k "position"); [congruence | reflexivity]. }
    assert (Hobj3 : object_props h3 e = Some props).
    { apply (object_props_mono h); [apply extends_ref, Hext3 | exact Hobj']. }
    rewrite (bind_inr _ _ _ _ _ (get_prop_object h3 e props "type" Hobj3)), Hty.
    assert (Hcoord : coord_fields (VStr ty) h3 = (inr (fields_of_type (VStr ty)), h3)).
    { cbn [coord_fields fields_of_type ABSOLUTE_COORD_TYPES table_lookup].
      destruct (String.eqb ty "line"); [reflexivity | ].
      destruct (String.eqb ty "path"); [reflexivity | ].
      now rewrite Hmember. }
    rewrite (bind_inr _ _ _ _ _ Hcoord).
    destruct (for_each_shiftField_total h0 props lu dx dy e (fields_of_type (VStr ty))
                (coord_fields_not_position _ _ _ _ Hcoord) Hobj Hfields [] h3 Hstate3)
      as (h' & Hloop & Hstate').
    rewrite (bind_inr _ _ _ _ _ Hloop). exists h'. split; [reflexivity | exact Hstate']. }
  destruct Hrun as (h' & Hrun & Hlu & Hext' & ps & Hcell & Hkeys & Hpos & Hdone & Hrest).
  exists h'. split; [exact Hrun | ].
  split; [now apply recentreEmitter_frame in Hrun as [? _] | ].
  assert (Htr : forall p q, moved_point (length h) h0 h' dx dy p q ->
                            translated h0 h' dx dy p q).
  { intros p q (l & _ & _ & Ht). exact Ht. }
  exists props, ps. split; [exact Hobj | ].
  split; [cbn [object_props]; now rewrite Hcell | ].
  split; [exact Hkeys | ]. split; [now apply Htr | ].
  rewrite Hty, app_nil_r in *. split.
  - intros f Hf. destruct (Hdone f) as [Hpoint Harr]; [now apply in_rev in Hf | ].
    split.
    + intros x' y' Hv. eapply Htr, Hpoint, Hv.
    + intros elems Helems.
      destruct (Harr elems Helems) as (la & elems' & Hv' & _ & Hla & Hall).
      exists elems'. split; [rewrite Hv'; cbn [array_elems]; now rewrite Hla | ].
      eapply Forall2_impl; [exact Hall | exact Htr].
  - intros k Hk Hnot. apply Hrest; [exact Hk | ].
    intros Hin. apply Hnot. now apply in_rev.
Qed.

Lemma traverse_recentreEmitter_total (h0 : heap) (dx dy : float) (es : list val) :
  forallb (wt_emitter h0) es = true ->
  forall h,
    heap_extends h0 h ->
    exists outs h',
      traverse (recentreEmitter dx dy) es h = (inr outs, h')
      /\ heap_extends h h'
      /\ Forall2 (recentred h0 h' dx dy) es outs.
Proof.
  induction es as [ | e es IH]; cbn [forallb traverse]; intros Hwt h Hext.
  - exists [], h. split; [reflexivity | ]. split; [apply heap_extends_refl | constructor].
  - apply andb_prop in Hwt as [He Hes].
    destruct (recentreEmitter_total h0 dx dy e h Hext He) as (h1 & Hrun & Hext1 & Hu).
    rewrite (bind_inr _ _ _ _ _ Hrun).
    destruct (IH Hes h1) as (outs & h' & Hrun' & Hext' & Hall).
    { eapply heap_extends_trans; eauto. }
    rewrite (bind_inr _ _ _ _ _ Hrun').
    exists (VRef (length h) :: outs), h'. split; [reflexivity | ].
    split; [eapply heap_extends_trans; eauto | ].
    constructor; [now apply (recentred_stable h0 h1) | exact Hall].
Qed.

Lemma elements_to_map_some (emitters : val) (h : heap) (es : list val) (h' : heap) :
  elements_to_map emitters h = (inr (Some es), h') ->
  array_elems h emitters = Some es.
Proof.
  destruct emitters as [ | | | | s | l]; cbn [elements_to_map array_elems]; try discriminate.
  - destruct (String.eqb s EmptyString); discriminate.
  - unfold bind, deref. destruct (h !! l) as [[ps | [ | e es']] | ]; try discriminate.
    + destruct (prop_lookup "length" ps); try discriminate.
      destruct (PrimFloat.eqb n 0); discriminate.
    + now intros [= <- _].
Qed.

Lemma elements_to_map_array (emitters : val) (h : heap) (e : val) (es : list val) :
  array_elems h emitters = Some (e :: es) ->
  elements_to_map emitters h = (inr (Some (e :: es)), h).
Proof.
  destruct emitters as [ | | | | | l]; try discriminate.
  cbn [array_elems elements_to_map]. unfold bind, deref.
  destruct (h !! l) as [[ps | es'] | ]; try discriminate.
  now intros [= ->].
Qed.

Lemma copied_emitter_fresh (n : nat) (h : heap) (e u : val) :
  copied_emitter n h e u -> fresh_copy n h e u.
Proof.
  intros (lu & props & -> & Hn & Hobj & Hlu & ps & Hcell & Hpos & Hall).
  assert (Hfresh : forall v, fresh_tree h lu v ->
                             fresh_ref n v
                             /\ forall elems, array_elems h v = Some elems ->
                                              Forall (fresh_ref n) elems).
  { intros v (l & -> & Hl & Harr). split; [exists l; split; [reflexivity | lia] | ].
    intros elems. cbn [array_elems].
    destruct (h !! l) as [[pp | es] | ]; try discriminate.
    intros [= <-]. eapply List.Forall_impl; [ | apply Harr; reflexivity].
    intros q (l' & -> & Hl'). exists l'. split; [reflexivity | lia]. }
  split; [exists lu; auto | ].
  exists props, ps. split; [exact Hobj | ].
  split; [cbn [object_props]; now rewrite Hcell | ].
  split; [now apply Hfresh | ].
  intros k. destruct (Hall k); [auto | right; now apply Hfresh].
Qed.

(** The table, read by type: line moves [start] and [end], path moves
    [path] and [points], every other type moves nothing but [position]. *)
Lemma fields_of_line : fields_of_type (VStr "line") = ["start"; "end"].
Proof. reflexivity. Qed.

Lemma fields_of_path : fields_of_type (VStr "path") = ["path"; "points"].
Proof. reflexivity. Qed.

Lemma fields_of_other (ty : string) :
  ty <> "line" -> ty <> "path" -> fields_of_type (VStr ty) = [].
Proof.
  intros Hline Hpath. cbn [fields_of_type].
  destruct (String.eqb_spec ty "line"); [congruence | ].
  destruct (String.eqb_spec ty "path"); [congruence | reflexivity].
Qed.

Lemma recentred_by_type (h h' : heap) (dx dy : float) (e u : val) :
  recentred h h' dx dy e u ->
  exists props props',
    object_props h e = Some props
    /\ object_props h' u = Some props'
    /\ map fst props' = map fst props
    /\ translated h h' dx dy (prop_lookup "position" props) (prop_lookup "position" props')
    /\ (prop_lookup "type" props = VStr "line" ->
          moved_field h h' dx dy props props' "start"
          /\ moved_field h h' dx dy props props' "end"
          /\ forall k, k <> "position" -> k <> "start" -> k <> "end" ->
                        prop_lookup k props' = prop_lookup k props)
    /\ (prop_lookup "type" props = VStr "path" ->
          moved_field h h' dx dy props props' "path"
          /\ moved_field h h' dx dy props props' "points"
          /\ forall k, k <> "position" -> k <> "path" -> k <> "points" ->
                        prop_lookup k props' = prop_lookup k props)
    /\ (prop_lookup "type" props <> VStr "line" ->
        prop_lookup "type" props <> VStr "path" ->
        forall k, k <> "position" -> prop_lookup k props' = prop_lookup k props).
Proof.
  intros (props & props' & He & Hu & Hkeys & Hpos & Hmoved & Hkept).
  exists props, props'.
  split; [exact He | ]. split; [exact Hu | ]. split; [exact Hkeys | ].
  split; [exact Hpos | ].
  split; [ | split].
  - intros Hty. rewrite Hty, fields_of_line in Hmoved, Hkept.
    split; [apply Hmoved; now left | ].
    split; [apply Hmoved; right; now left | ].
    intros k Hk Hstart Hend. apply Hkept; [exact Hk | ].
    intros [<- | [<- | []]]; congruence.
  - intros Hty. rewrite Hty, fields_of_path in Hmoved, Hkept.
    split; [apply Hmoved; now left | ].
    split; [apply Hmoved; right; now left | ].
    intros k Hk Hpath Hpoints. apply Hkept; [exact Hk | ].
    intros [<- | [<- | []]]; congruence.
  - intros Hline Hpath k Hk. apply Hkept; [exact Hk | ].
    destruct (prop_lookup "type" props) as [ | | | | ty | ]; try (intros []).
    rewrite fields_of_other; [intros [] | congruence | congruence].
Qed.

(** C4. When [dx] and [dy] are not both zero, the renormaliser returns, for
    well-typed emitters, an array of emitters each of which is its input
    with [position] moved by [(dx, dy)].  In an emitter of type line,
    [start] and [end] are moved by [(dx, dy)] when they hold a point, and in
    an emitter of type path every element of [path] and of [points] is moved
    by [(dx, dy)] when they hold arrays; their other fields are as they
    were.  In an emitter of any other type every field but [position] is as
    it was: the vertices of a polygon, the width and height of an area, the
    radius of a circle. *)
Theorem recentre_shift_semantics
    (h : heap) (emitters : val) (es : list val)
    (oldWidth oldHeight newWidth newHeight : float) :
  let dx := (newWidth / 2 - oldWidth / 2)%float in
  let dy := (newHeight / 2 - oldHeight / 2)%float in
  array_elems h emitters = Some es ->
  forallb (wt_emitter h) es = true ->
  PrimFloat.eqb dx 0 && PrimFloat.eqb dy 0 = false ->
  exists out outs h',
    recentreEmittersOnResize emitters oldWidth oldHeight newWidth newHeight h
    = (inr out, h')
    /\ heap_extends h h'
    /\ array_elems h' out = Some outs
    /\ Forall2
         (fun e u =>
            exists props props',
              object_props h e = Some props
              /\ object_props h' u = Some props'
              /\ map fst props' = map fst props
              /\ translated h h' dx dy (prop_lookup "position" props)
                            (prop_lookup "position" props')
              /\ (prop_lookup "type" props = VStr "line" ->
                    moved_field h h' dx dy props props' "start"
                    /\ moved_field h h' dx dy props props' "end"
                    /\ forall k, k <> "position" -> k <> "start" -> k <> "end" ->
                                  prop_lookup k props' = prop_lookup k props)
              /\ (prop_lookup "type" props = VStr "path" ->
                    moved_field h h' dx dy props props' "path"
                    /\ moved_field h h' dx dy props props' "points"
                    /\ forall k, k <> "position" -> k <> "path" -> k <> "points" ->
                                  prop_lookup k props' = prop_lookup k props)
              /\ (prop_lookup "type" props <> VStr "line" ->
                  prop_lookup "type" props <> VStr "path" ->
                  forall k, k <> "position" ->
                            prop_lookup k props' = prop_lookup k props))
         es outs.
Proof.
  intros dx dy Hes Hwt Hmove. unfold recentreEmittersOnResize.
  fold dx dy. rewrite Hmove.
  destruct es as [ | e es].
  - exists emitters, [], h.
    split; [ | split; [apply heap_extends_refl | split; [exact Hes | constructor]]].
    destruct emitters as [ | | | | | l]; try discriminate.
    cbn [array_elems] in Hes. unfold bind. cbn [elements_to_map]. unfold bind, deref.
    destruct (h !! l) as [[ps | es] | ]; try discriminate.
    now injection Hes as ->.
  - rewrite (bind_inr _ _ _ _ _ (elements_to_map_array emitters h e es Hes)).
    destruct (traverse_recentreEmitter_total h dx dy (e :: es) Hwt h (heap_extends_refl h))
      as (outs & h1 & Hrun & Hext & Hall).
    rewrite (bind_inr _ _ _ _ _ Hrun).
    exists (VRef (length h1)), outs, (h1 ++ [CArr outs]).
    assert (Hext1 : heap_extends h1 (h1 ++ [CArr outs])) by apply heap_extends_app.
    split; [reflexivity | ].
    split; [eapply heap_extends_trans; eauto | ].
    split; [cbn [array_elems]; now rewrite lookup_app_r, Nat.sub_diag by lia | ].
    eapply Forall2_impl; [exact Hall | ].
    intros e' u' Hre. apply recentred_by_type. revert Hre. now apply recentred_stable.
Qed.

(** C6. The renormaliser never mutates its arguments: after a call,
    whether it returned or threw, every cell of the store it was given holds
    what it held.  When it returns a list other than its argument, that list
    is a fresh array of fresh emitter objects: in each, [position] is a fresh
    object, and every other property is the input's or fresh (with fresh
    elements when it is an array). *)
Theorem recentre_no_mutation
    (h : heap) (emitters : val) (oldWidth oldHeight newWidth newHeight : float)
    (r : error + val) (h' : heap) :
  recentreEmittersOnResize emitters oldWidth oldHeight newWidth newHeight h = (r, h') ->
  heap_extends h h'
  /\ forall out,
      r = inr out ->
      (out = emitters /\ h' = h)
      \/ (fresh_ref (length h) out
          /\ exists es outs,
              array_elems h emitters = Some es
              /\ array_elems h' out = Some outs
              /\ Forall2 (fresh_copy (length h) h') es outs).
Proof.
  unfold recentreEmittersOnResize.
  destruct (_ && _).
  { intros [= <- <-]. split; [apply heap_extends_refl | ]. intros out [= <-]. now left. }
  intros Hrun.
  apply bind_run in Hrun as [(err & Hm & ->) | (todo & h0 & Htodo & Hrun)].
  { apply reads_only_run in Hm as ->; [ | apply elements_to_map_reads].
    split; [apply heap_extends_refl | discriminate]. }
  pose proof (reads_only_run _ _ _ _ (elements_to_map_reads emitters) Htodo) as ->.
  destruct todo as [es | ].
  2:{ injection Hrun as <- <-. split; [apply heap_extends_refl | ].
      intros out [= <-]. now left. }
  apply elements_to_map_some in Htodo.
  apply bind_run in Hrun as [(err & Hm & ->) | (outs & h1 & Hm & Hrun)].
  { apply traverse_recentreEmitter_frame in Hm as [Hext _].
    split; [exact Hext | discriminate]. }
  apply traverse_recentreEmitter_frame in Hm as [Hext Hall]. specialize (Hall outs eq_refl).
  injection Hrun as <- <-.
  assert (Hext1 : heap_extends h1 (h1 ++ [CArr outs])) by apply heap_extends_app.
  split; [eapply heap_extends_trans; eauto | ].
  intros out [= <-]. right. split.
  { exists (length h1). split; [reflexivity | now apply heap_extends_length]. }
  exists es, outs. split; [exact Htodo | ].
  split; [cbn [array_elems]; now rewrite lookup_app_r, Nat.sub_diag by lia | ].
  eapply Forall2_impl; [exact Hall | ].
  intros e u Hcopy. apply copied_emitter_fresh. now apply (copied_emitter_stable _ h1).
Qed.

End Store.

(** The unit tests of the renormaliser: a line emitter, a path emitter and a
    polygon emitter under a resize from 800 x 600 to 1000 x 800. *)
Example recentre_unit_tests :
  recentreEmittersOnResize test_ref 800 600 1000 800 test_store
  = (inr resized_ref, resized_store)
  /\ read_value 10 test_store test_ref = Some test_emitters
  /\ read_value 10 resized_store test_ref = Some test_emitters
  /\ read_value 10 resized_store resized_ref
     = Some (JArr
         [JObj [("type", JStr "line");
                ("position", JObj [("x", JNum 500); ("y", JNum 400)]);
                ("emissionRate", JNum 50);
                ("particle", sprite_particle 2);
                ("start", JObj [("x", JNum 400); ("y", JNum 400)]);
                ("end", JObj [("x", JNum 600); ("y", JNum 400)])];
          JObj [("type", JStr "path");
                ("position", JObj [("x", JNum 100); ("y", JNum 100)]);
                ("emissionRate", JNum 50);
                ("particle", sprite_particle 2);
                ("path", JArr [JObj [("x", JNum 200); ("y", JNum 200)];
                               JObj [("x", JNum 400); ("y", JNum 300)];
                               JObj [("x", JNum 600); ("y", JNum 250)]])];
          JObj [("type", JStr "polygon");
                ("position", JObj [("x", JNum 500); ("y", JNum 400)]);
                ("emissionRate", JNum 50);
                ("particle", sprite_particle 2);
                ("vertices", JArr [JObj [("x", JNum 0); ("y", JNum (-50))];
                                   JObj [("x", JNum 50); ("y", JNum 50)];
                                   JObj [("x", JNum (-50)); ("y", JNum 50)]])]]).
Proof.
  repeat split; vm_compute; reflexivity.
Qed.

(** An emitter whose type names a member of [Object.prototype] is no
    [EmitterConfig]: the table lookup finds the inherited member, and the
    loop over it throws. *)
Example recentre_inherited_member :
  let store := [CObj [("x", VNum 1); ("y", VNum 2)];
                CObj [("type", VStr "constructor"); ("position", VRef 0)];
                CArr [VRef 1]] in
  wt_emitter store (VRef 1) = false
  /\ fst (recentreEmittersOnResize (VRef 2) 800 600 1000 800 store) = inl TypeError.
Proof.
  split; vm_compute; reflexivity.
Qed.

Lemma recentre_shift_semantics_tests :
  array_elems test_store test_ref = Some test_elements
  /\ forallb (wt_emitter test_store) test_elements = true
  /\ PrimFloat.eqb (1000 / 2 - 800 / 2) 0 && PrimFloat.eqb (800 / 2 - 600 / 2) 0 = false
  /\ exists out outs h',
      recentreEmittersOnResize test_ref 800 600 1000 800 test_store = (inr out, h')
      /\ heap_extends test_store h'
      /\ array_elems h' out = Some outs
      /\ Forall2
           (fun e u =>
              exists props props',
                object_props test_store e = Some props
                /\ object_props h' u = Some props'
                /\ map fst props' = map fst props
                /\ translated test_store h' (1000 / 2 - 800 / 2) (800 / 2 - 600 / 2)
                              (prop_lookup "position" props) (prop_lookup "position" props')
                /\ (prop_lookup "type" props = VStr "line" ->
                      moved_field test_store h' (1000 / 2 - 800 / 2) (800 / 2 - 600 / 2)
                                  props props' "start"
                      /\ moved_field test_store h' (1000 / 2 - 800 / 2) (800 / 2 - 600 / 2)
                                     props props' "end"
                      /\ forall k, k <> "position" -> k <> "start" -> k <> "end" ->
                                    prop_lookup k props' = prop_lookup k props)
                /\ (prop_lookup "type" props = VStr "path" ->
                      moved_field test_store h' (1000 / 2 - 800 / 2) (800 / 2 - 600 / 2)
                                  props props' "path"
                      /\ moved_field test_store h' (1000 / 2 - 800 / 2) (800 / 2 - 600 / 2)
                                     props props' "points"
                      /\ forall k, k <> "position" -> k <> "path" -> k <> "points" ->
                                    prop_lookup k props' = prop_lookup k props)
                /\ (prop_lookup "type" props <> VStr "line" ->
                    prop_lookup "type" props <> VStr "path" ->
                    forall k, k <> "position" ->
                              prop_lookup k props' = prop_lookup k props))
           test_elements outs.
Proof.
  split; [vm_compute; reflexivity | ].
  split; [vm_compute; reflexivity | ].
  split; [vm_compute; reflexivity | ].
  apply (recentre_shift_semantics test_store test_ref test_elements 800 600 1000 800);
    vm_compute; reflexivity.
Defined.

Lemma recentre_identity_tests :
  recentreEmittersOnResize test_ref 800 600 800 600 test_store = (inr test_ref, test_store)
  /\ recentreEmittersOnResize (VRef 0) 800 600 1000 800 [CArr []] = (inr (VRef 0), [CArr []]).
Proof.
  split.
  - apply (recentre_identity test_store test_ref 800 600 800 600).
    left. split; vm_compute; reflexivity.
  - apply (recentre_identity [CArr []] (VRef 0) 800 600 1000 800).
    right. vm_compute. reflexivity.
Defined.

Lemma recentre_no_mutation_tests :
  recentreEmittersOnResize test_ref 800 600 1000 800 test_store
  = (inr resized_ref, resized_store)
  /\ heap_extends test_store resized_store
  /\ forall out,
      @inr error val resized_ref = inr out ->
      (out = test_ref /\ resized_store = test_store)
      \/ (fresh_ref (length test_store) out
          /\ exists es outs,
              array_elems test_store test_ref = Some es
              /\ array_elems resized_store out = Some outs
              /\ Forall2 (fresh_copy (length test_store) resized_store) es outs).
Proof.
  split; [vm_compute; reflexivity | ].
  apply (recentre_no_mutation test_store test_ref 800 600 1000 800
                              (inr resized_ref) resized_store).
  vm_compute. reflexivity.
Defined.

(** * Further properties *)

(** ** The filename pattern *)

Section Pattern.

Lemma append_nil_r (s : string) : s +:+ EmptyString = s.
Proof.
  induction s as [ | c s IH]; [reflexivity | ].
  change (String c (s +:+ EmptyString) = String c s). now f_equal.
Qed.

Lemma nat_of_ascii_eq (c : ascii) (n : nat) :
  n < 256 -> Nat.eqb (nat_of_ascii c) n = true -> c = ascii_of_nat n.
Proof.
  intros Hn H. apply Nat.eqb_eq in H. rewrite <- H. symmetry. apply ascii_nat_embedding.
Qed.

(** A line terminator starts [s] exactly when one of the four is a prefix
    of [s]. *)
Lemma at_line_terminator_prefix (s : string) :
  SD.at_line_terminator s = true
  <-> exists t post, In t line_terminators /\ s = t +:+ post.
Proof.
  split.
  - destruct s as [ | c s]; [discriminate | ].
    cbn [SD.at_line_terminator]. unfold SD.is_line_terminator.
    rewrite !orb_true_iff, andb_true_iff.
    intros [[H | H] | [H Hrest]].
    + apply nat_of_ascii_eq in H as ->; [ | lia].
      exists (String "010" EmptyString), s. split; [cbn; auto | reflexivity].
    + apply nat_of_ascii_eq in H as ->; [ | lia].
      exists (String "013" EmptyString), s. split; [cbn; auto | reflexivity].
    + apply nat_of_ascii_eq in H as ->; [ | lia].
      destruct s as [ | c1 [ | c2 s]]; try discriminate.
      apply andb_true_iff in Hrest as [H1 H2].
      apply nat_of_ascii_eq in H1 as ->; [ | lia].
      apply orb_true_iff in H2 as [H2 | H2]; apply nat_of_ascii_eq in H2 as ->; try lia.
      * exists (String "226" (String "128" (String "168" EmptyString))), s.
        split; [cbn; auto | reflexivity].
      * exists (String "226" (String "128" (String "169" EmptyString))), s.
        split; [cbn; auto 6 | reflexivity].
  - intros (t & post & Ht & ->).
    destruct Ht as [<- | [<- | [<- | [<- | []]]]]; reflexivity.
Qed.

Lemma tail_char_plain (c : ascii) :
  SD.is_digit c = true \/ SD.is_underscore c = true ->
  Nat.eqb (nat_of_ascii c) 128 = false
  /\ Nat.eqb (nat_of_ascii c) 168 = false
  /\ Nat.eqb (nat_of_ascii c) 169 = false.
Proof.
  unfold SD.is_digit, SD.is_underscore. intros [H | H].
  - apply andb_true_iff in H as [_ H]. apply Nat.leb_le in H.
    repeat split; apply Nat.eqb_neq; lia.
  - apply Ascii.eqb_eq in H as ->. repeat split; reflexivity.
Qed.

(** Before an underscore or a digit, the scan passes the strings in which
    no line terminator occurs. *)
Lemma scans_spec (c : ascii) (tail : string) :
  SD.is_digit c = true \/ SD.is_underscore c = true ->
  forall s, scans s (String c tail) = true <-> no_line_terminator s.
Proof.
  intros Hc. destruct (tail_char_plain c Hc) as (H128 & H168 & H169).
  induction s as [ | a s IH].
  - split; [ | reflexivity]. intros _ t Ht (pre & post & Heq).
    destruct pre; [ | discriminate].
    destruct Ht as [<- | [<- | [<- | [<- | []]]]]; discriminate.
  - cbn [scans]. rewrite andb_true_iff, negb_true_iff, IH. split.
    + intros [Hhere Hrest] t Ht (pre & post & Heq).
      destruct pre as [ | a' pre].
      * change (EmptyString +:+ t +:+ post) with (t +:+ post) in Heq.
        assert (Hat : SD.at_line_terminator (String a s +:+ String c tail) = true).
        { apply at_line_terminator_prefix. exists t, (post +:+ String c tail).
          split; [exact Ht | ]. now rewrite Heq, append_assoc3. }
        congruence.
      * change (String a' pre +:+ t +:+ post) with (String a' (pre +:+ t +:+ post)) in Heq.
        injection Heq as _ Heq. apply (Hrest t Ht). now exists pre, post.
    + intros Hfree. split.
      * destruct (SD.at_line_terminator (String a s +:+ String c tail)) eqn:Hat;
          [exfalso | reflexivity].
        change (String a s +:+ String c tail) with (String a (s +:+ String c tail)) in Hat.
        cbn [SD.at_line_terminator] in Hat.
        apply orb_true_iff in Hat as [Hat | Hat].
        { assert (Hpre : SD.at_line_terminator (String a EmptyString) = true)
            by (cbn [SD.at_line_terminator]; now rewrite Hat).
          apply at_line_terminator_prefix in Hpre as (t & post & Ht & Heq).
          destruct Ht as [<- | [<- | [<- | [<- | []]]]]; try discriminate;
            injection Heq as ->.
          - apply (Hfree (String "010" EmptyString)); [cbn; auto | ].
            now exists EmptyString, s.
          - apply (Hfree (String "013" EmptyString)); [cbn; auto | ].
            now exists EmptyString, s. }
        apply andb_true_iff in Hat as [Ha Hat].
        destruct s as [ | c1 [ | c2 s]].
        { change (EmptyString +:+ String c tail) with (String c tail) in Hat.
          destruct tail; [discriminate | ]. now rewrite H128 in Hat. }
        { change (String c1 EmptyString +:+ String c tail)
            with (String c1 (String c tail)) in Hat.
          cbv beta iota in Hat.
          rewrite H168, H169 in Hat. now rewrite andb_false_r in Hat. }
        change (String c1 (String c2 s) +:+ String c tail)
          with (String c1 (String c2 (s +:+ String c tail))) in Hat.
        cbv beta iota in Hat.
        assert (Hpre : SD.at_line_terminator (String a (String c1 (String c2 s))) = true)
          by (cbn [SD.at_line_terminator]; rewrite Ha, Hat; apply orb_true_r).
        apply at_line_terminator_prefix in Hpre as (t & post & Ht & Heq).
        apply (Hfree t Ht). now exists EmptyString, post.
      * intros t Ht (pre & post & ->). apply (Hfree t Ht).
        now exists (String a pre), post.
Qed.

Lemma take_digits_spec (s : string) :
  s = fst (SD.take_digits s) +:+ snd (SD.take_digits s)
  /\ all_digits (fst (SD.take_digits s)) = true
  /\ match snd (SD.take_digits s) with
     | EmptyString => True
     | String c _ => SD.is_digit c = false
     end.
Proof.
  induction s as [ | c s (IH1 & IH2 & IH3)]; cbn [SD.take_digits]; [repeat split | ].
  destruct (SD.is_digit c) eqn:Hc.
  - destruct (SD.take_digits s) as [d r]. cbn [fst snd] in *.
    split; [change (String c s = String c (d +:+ r)); now f_equal | ].
    split; [cbn [all_digits]; now rewrite Hc | exact IH3].
  - cbn [fst snd]. repeat split. exact Hc.
Qed.

Lemma take_digits_run (d r : string) :
  all_digits d = true ->
  match r with EmptyString => True | String c _ => SD.is_digit c = false end ->
  SD.take_digits (d +:+ r) = (d, r).
Proof.
  induction d as [ | c d IH]; intros Hd Hr.
  - destruct r as [ | c r]; [reflexivity | ].
    change (EmptyString +:+ String c r) with (String c r).
    cbn [SD.take_digits]. now rewrite Hr.
  - cbn [all_digits] in Hd. apply andb_prop in Hd as [Hc Hd].
    change (String c d +:+ r) with (String c (d +:+ r)).
    cbn [SD.take_digits]. now rewrite Hc, (IH Hd Hr).
Qed.

Lemma digit_not_underscore (c : ascii) : SD.is_digit c = true -> SD.is_underscore c = false.
Proof.
  unfold SD.is_digit, SD.is_underscore. intros H.
  destruct (Ascii.eqb_spec c "_") as [-> | ]; [discriminate H | reflexivity].
Qed.

(** What the tail of the pattern accepts. *)
Lemma match_tail_sound (s d e : string) :
  SD.match_tail s = Some (d, e) ->
  exists sep,
    s = sep +:+ d +:+ "." +:+ e
    /\ (sep = EmptyString \/ sep = "_")
    /\ d <> EmptyString /\ all_digits d = true
    /\ e <> EmptyString /\ SD.no_dot e = true.
Proof.
  unfold SD.match_tail.
  set (s1 := match s with
             | EmptyString => s
             | String c s' => if SD.is_underscore c then s' else s
             end).
  assert (Hs : exists sep, s = sep +:+ s1 /\ (sep = EmptyString \/ sep = "_")).
  { unfold s1. destruct s as [ | c s']; [exists EmptyString; auto | ].
    destruct (SD.is_underscore c) eqn:Hc; [ | exists EmptyString; auto].
    unfold SD.is_underscore in Hc. apply Ascii.eqb_eq in Hc as ->.
    exists "_". auto. }
  destruct Hs as (sep & Hs & Hsep).
  destruct (take_digits_spec s1) as (Hsplit & Hdigits & _).
  destruct (SD.take_digits s1) as [[ | c0 d0] [ | c r]]; cbn [fst snd] in *; try discriminate.
  destruct (SD.is_dot c) eqn:Hc; [ | discriminate].
  destruct (String.eqb_spec r EmptyString) as [ | Hr]; [discriminate | ].
  destruct (SD.no_dot r) eqn:Hnd; [ | discriminate].
  cbn [andb negb]. intros [= <- <-].
  unfold SD.is_dot in Hc. apply Ascii.eqb_eq in Hc as ->.
  exists sep. rewrite Hs, Hsplit. repeat split; auto; discriminate.
Qed.

Lemma match_tail_complete (sep d e : string) :
  sep = EmptyString \/ sep = "_" ->
  d <> EmptyString -> all_digits d = true ->
  e <> EmptyString -> SD.no_dot e = true ->
  SD.match_tail (sep +:+ d +:+ "." +:+ e) = Some (d, e).
Proof.
  intros Hsep Hd Hdigits He Hnd.
  assert (Hrun : SD.take_digits (d +:+ "." +:+ e) = (d, "." +:+ e)).
  { apply take_digits_run; [exact Hdigits | reflexivity]. }
  assert (Hgo : match SD.take_digits (d +:+ "." +:+ e) with
                | (EmptyString, _) => None
                | (numberStr, String c ext) =>
                    if SD.is_dot c && negb (String.eqb ext EmptyString) && SD.no_dot ext
                    then Some (numberStr, ext)
                    else None
                | (_, EmptyString) => None
                end = Some (d, e)).
  { rewrite Hrun. change ("." +:+ e) with (String "."%char e).
    destruct d as [ | c d]; [congruence | ].
    cbv iota beta. change (SD.is_dot ".") with true. rewrite Hnd.
    destruct (String.eqb_spec e EmptyString); [congruence | reflexivity]. }
  destruct Hsep as [-> | ->].
  - change (EmptyString +:+ d +:+ "." +:+ e) with (d +:+ "." +:+ e).
    destruct d as [ | c d]; [congruence | ].
    cbn [all_digits] in Hdigits. apply andb_prop in Hdigits as [Hc _].
    change (String c d +:+ "." +:+ e) with (String c (d +:+ "." +:+ e)) in *.
    unfold SD.match_tail. cbv zeta iota beta.
    rewrite (digit_not_underscore c Hc). exact Hgo.
  - change ("_" +:+ d +:+ "." +:+ e) with (String "_"%char (d +:+ "." +:+ e)).
    unfold SD.match_tail. cbv zeta iota beta.
    change (SD.is_underscore "_") with true. exact Hgo.
Qed.

Lemma scan_base_sound (rest : string) :
  forall base b d e,
    SD.scan_base base rest = Some (b, d, e) ->
    exists mid sep,
      b = base +:+ mid /\ scans mid (sep +:+ d +:+ "." +:+ e) = true
      /\ rest = mid +:+ sep +:+ d +:+ "." +:+ e
      /\ (sep = EmptyString \/ sep = "_")
      /\ d <> EmptyString /\ all_digits d = true
      /\ e <> EmptyString /\ SD.no_dot e = true.
Proof.
  induction rest as [ | c rest IH]; intros base b d e; cbn [SD.scan_base].
  - destruct (SD.match_tail EmptyString) as [[d' e'] | ] eqn:Htail; [ | discriminate].
    intros [= <- <- <-]. apply match_tail_sound in Htail as (sep & Hs & Hrest).
    exists EmptyString, sep. rewrite append_nil_r. repeat split; tauto.
  - destruct (SD.match_tail (String c rest)) as [[d' e'] | ] eqn:Htail.
    + intros [= <- <- <-]. apply match_tail_sound in Htail as (sep & Hs & Hrest).
      exists EmptyString, sep. rewrite append_nil_r. repeat split; tauto.
    + destruct (SD.at_line_terminator (String c rest)) eqn:Hc; [discriminate | ].
      intros Hscan. apply IH in Hscan as (mid & sep & -> & Hmid & -> & Hrest).
      exists (String c mid), sep. rewrite append_assoc3.
      split; [reflexivity | ]. split; [ | split; [reflexivity | exact Hrest]].
      cbn [scans].
      change (String c mid +:+ sep +:+ d +:+ "." +:+ e)
        with (String c (mid +:+ sep +:+ d +:+ "." +:+ e)).
      now rewrite Hc, Hmid.
Qed.

Lemma scan_base_complete (mid : string) :
  forall base tail,
    scans mid tail = true ->
    SD.match_tail tail <> None ->
    SD.scan_base base (mid +:+ tail) <> None.
Proof.
  induction mid as [ | c mid IH]; intros base tail Hmid Htail.
  - change (EmptyString +:+ tail) with tail.
    destruct tail as [ | c tail]; cbn [SD.scan_base];
      destruct (SD.match_tail _) as [[d e] | ]; congruence.
  - cbn [scans] in Hmid. apply andb_prop in Hmid as [Hc Hmid].
    apply negb_true_iff in Hc.
    change (String c mid +:+ tail) with (String c (mid +:+ tail)) in *.
    cbn [SD.scan_base].
    destruct (SD.match_tail (String c (mid +:+ tail))) as [[d e] | ]; [discriminate | ].
    rewrite Hc. now apply IH.
Qed.

(** What follows the base starts with an underscore or a digit. *)
Lemma tail_starts (sep d e : string) :
  sep = EmptyString \/ sep = "_" ->
  d <> EmptyString -> all_digits d = true ->
  exists c tail,
    sep +:+ d +:+ "." +:+ e = String c tail
    /\ (SD.is_digit c = true \/ SD.is_underscore c = true).
Proof.
  intros [-> | ->] Hd Hdigits.
  - destruct d as [ | c d]; [congruence | ].
    cbn [all_digits] in Hdigits. apply andb_prop in Hdigits as [Hc _].
    exists c, (d +:+ "." +:+ e). split; [reflexivity | now left].
  - exists "_"%char, (d +:+ "." +:+ e). split; [reflexivity | now right].
Qed.

End Pattern.

(** ** Groups of frames *)

Section Groups.

Lemma seen_key_In (k : string) (l : list string) : seen_key k l = true <-> In k l.
Proof.
  unfold seen_key. rewrite existsb_exists. split.
  - intros (x & Hx & Heq). apply String.eqb_eq in Heq. now subst.
  - intros Hin. exists k. split; [exact Hin | apply String.eqb_refl].
Qed.

Lemma push_group_keys (key : string) (item : SD.Item) (groups : list (string * list SD.Item)) :
  map fst (SD.push_group key item groups)
  = if seen_key key (map fst groups) then map fst groups else map fst groups ++ [key].
Proof.
  induction groups as [ | [k g] groups IH]; [reflexivity | ].
  cbn [SD.push_group map fst]. unfold seen_key in *. cbn [existsb].
  destruct (String.eqb key k); [reflexivity | ].
  cbn [map fst orb]. rewrite IH.
  now destruct (existsb (String.eqb key) (map fst groups)).
Qed.

Lemma push_group_entries (key : string) (item : SD.Item) (groups : list (string * list SD.Item)) :
  List.NoDup (map fst groups) ->
  forall k g,
    In (k, g) (SD.push_group key item groups) ->
    (k <> key /\ In (k, g) groups)
    \/ (k = key
        /\ ((exists g0, In (k, g0) groups /\ g = g0 ++ [item])
            \/ (~ In key (map fst groups) /\ g = [item]))).
Proof.
  induction groups as [ | [k0 g0] groups IH]; intros Hnodup k g; cbn [SD.push_group].
  - intros [[= <- <-] | []]. right. split; [reflexivity | right; auto].
  - cbn [map fst] in Hnodup. apply List.NoDup_cons_iff in Hnodup as [Hfresh Hnodup].
    destruct (String.eqb_spec key k0) as [-> | Hne].
    + intros [[= <- <-] | Hin].
      * right. split; [reflexivity | left]. exists g0. split; [now left | reflexivity].
      * left. split; [ | now right]. intros ->. apply Hfresh.
        now apply (in_map fst) in Hin.
    + intros [[= <- <-] | Hin].
      * left. split; [congruence | now left].
      * destruct (IH Hnodup k g Hin) as [[Hk Hg] | [-> [(g1 & Hg1 & ->) | [Hnew ->]]]].
        -- left. split; [exact Hk | now right].
        -- right. split; [reflexivity | left]. exists g1. split; [now right | reflexivity].
        -- right. split; [reflexivity | right]. split; [ | reflexivity].
           cbn [map fst]. intros [Heq | Hin']; [congruence | contradiction].
Qed.

Lemma filter_none {A : Type} (p : A -> bool) (l : list A) :
  (forall x, In x l -> p x = false) -> List.filter p l = [].
Proof.
  induction l as [ | x l IH]; intros Hall; [reflexivity | ].
  cbn [List.filter]. rewrite (Hall x (or_introl eq_refl)).
  apply IH. intros y Hy. apply Hall. now right.
Qed.

Lemma push_group_groups_of (item : SD.Item) (items : list SD.Item)
      (groups : list (string * list SD.Item)) :
  groups_of items groups ->
  groups_of (items ++ [item]) (SD.push_group (SD.group_key (SD.info item)) item groups).
Proof.
  intros (Hnodup & Hall & Hkeys).
  set (key := SD.group_key (SD.info item)).
  assert (Hsub : forall k, In k (map fst groups)
                           -> In k (map fst (SD.push_group key item groups))).
  { intros k Hk. rewrite push_group_keys.
    destruct (seen_key key (map fst groups)); [exact Hk | apply in_or_app; now left]. }
  split; [ | split].
  - rewrite push_group_keys. destruct (seen_key key (map fst groups)) eqn:Hmem; [exact Hnodup | ].
    apply (Permutation_NoDup (Permutation_cons_append (map fst groups) key)).
    constructor; [ | exact Hnodup]. intros Hk. apply seen_key_In in Hk. congruence.
  - intros k g Hin. rewrite List.filter_app. cbn [List.filter]. unfold in_group at 2. fold key.
    destruct (push_group_entries key item groups Hnodup k g Hin)
      as [[Hk Hg] | [-> [(g0 & Hg0 & ->) | [Hnew ->]]]].
    + destruct (Hall k g Hg) as [Hfilter Hne].
      destruct (String.eqb_spec key k) as [ | _]; [congruence | ].
      now rewrite app_nil_r.
    + destruct (Hall key g0 Hg0) as [Hfilter Hne]. rewrite String.eqb_refl, <- Hfilter.
      split; [reflexivity | ]. now destruct g0.
    + rewrite String.eqb_refl. rewrite filter_none; [split; [reflexivity | discriminate] | ].
      intros x Hx. unfold in_group. apply String.eqb_neq. intros Heq. apply Hnew.
      rewrite <- Heq. now apply Hkeys.
  - intros x Hx. apply in_app_or in Hx as [Hx | [<- | []]]; [now apply Hsub, Hkeys | ].
    fold key. rewrite push_group_keys.
    destruct (seen_key key (map fst groups)) eqn:Hmem; [now apply seen_key_In | ].
    apply in_or_app. right. now left.
Qed.

Lemma group_items_from (items : list SD.Item) :
  forall done groups,
    groups_of done groups ->
    groups_of (done ++ items)
              (fold_left (fun groups item => SD.push_group (SD.group_key (SD.info item)) item groups)
                         items groups).
Proof.
  induction items as [ | item items IH]; intros done groups Hgroups; cbn [fold_left].
  - now rewrite app_nil_r.
  - replace (done ++ item :: items) with ((done ++ [item]) ++ items)
      by (now rewrite <- app_assoc).
    apply IH. now apply push_group_groups_of.
Qed.

Lemma group_items_groups_of (items : list SD.Item) : groups_of items (SD.group_items items).
Proof.
  apply (group_items_from items [] []). split; [constructor | ].
  split; [intros k g [] | intros item []].
Qed.

Lemma group_items_keys_from (items : list SD.Item) :
  forall groups,
    map fst (fold_left (fun groups item => SD.push_group (SD.group_key (SD.info item)) item groups)
                       items groups)
    = fold_left (fun acc k => if seen_key k acc then acc else acc ++ [k])
                (map (fun item => SD.group_key (SD.info item)) items) (map fst groups).
Proof.
  induction items as [ | item items IH]; intros groups; [reflexivity | ].
  cbn [fold_left map]. now rewrite IH, push_group_keys.
Qed.

Lemma group_items_keys (items : list SD.Item) :
  map fst (SD.group_items items)
  = first_keys (map (fun item => SD.group_key (SD.info item)) items).
Proof. apply (group_items_keys_from items []). Qed.

(** Folding further keys only appends. *)
Lemma first_keys_from (l : list string) :
  forall acc,
    exists more,
      fold_left (fun acc k => if seen_key k acc then acc else acc ++ [k]) l acc = acc ++ more
      /\ (forall k, In k l -> In k (acc ++ more)).
Proof.
  induction l as [ | k l IH]; intros acc; cbn [fold_left].
  - exists []. rewrite app_nil_r. split; [reflexivity | intros k []].
  - destruct (seen_key k acc) eqn:Hmem.
    + destruct (IH acc) as (more & Heq & Hin). exists more. split; [exact Heq | ].
      intros k' [<- | Hk']; [ | now apply Hin].
      apply in_or_app. left. now apply seen_key_In.
    + destruct (IH (acc ++ [k])) as (more & Heq & Hin). exists (k :: more).
      rewrite <- app_assoc in Heq, Hin. split; [exact Heq | ].
      intros k' [<- | Hk']; [ | now apply Hin].
      apply in_or_app. right. now left.
Qed.

Lemma first_keys_incl (l : list string) :
  forall acc k,
    In k (fold_left (fun acc k => if seen_key k acc then acc else acc ++ [k]) l acc) ->
    In k acc \/ In k l.
Proof.
  induction l as [ | k0 l IH]; intros acc k; cbn [fold_left]; [now left | ].
  intros Hin. apply IH in Hin as [Hin | Hin]; [ | right; now right].
  destruct (seen_key k0 acc); [now left | ].
  apply in_app_or in Hin as [Hin | [<- | []]]; [now left | right; now left].
Qed.

(** The keys met before the first occurrence of [k] are those listed
    before [k]. *)
Lemma first_keys_before (before after pre post : list string) (k : string) :
  ~ In k before ->
  List.NoDup (pre ++ k :: post) ->
  first_keys (before ++ k :: after) = pre ++ k :: post ->
  forall x, In x before -> In x pre.
Proof.
  intros Hfresh Hnodup Hkeys x Hx.
  unfold first_keys in Hkeys. rewrite fold_left_app in Hkeys. cbn [fold_left] in Hkeys.
  destruct (first_keys_from before []) as (seen & Hseen & Hall). cbn [app] in Hseen, Hall.
  rewrite Hseen in Hkeys.
  assert (Hk : seen_key k seen = false).
  { destruct (seen_key k seen) eqn:Hmem; [ | reflexivity].
    apply seen_key_In in Hmem. rewrite <- Hseen in Hmem.
    apply first_keys_incl in Hmem as [[] | Hmem]. contradiction. }
  rewrite Hk in Hkeys.
  destruct (first_keys_from after (seen ++ [k])) as (more & Hmore & _).
  rewrite Hmore, <- app_assoc in Hkeys. cbn [app] in Hkeys.
  assert (Hpre : seen = pre).
  { rewrite <- Hkeys in Hnodup. clear - Hkeys Hnodup.
    revert pre Hkeys. induction seen as [ | s seen IH]; intros pre Hkeys.
    - destruct pre as [ | p pre]; [reflexivity | ]. cbn [app] in *.
      injection Hkeys as <- Hrest. apply List.NoDup_cons_iff in Hnodup as [Hfresh _].
      exfalso. apply Hfresh. rewrite Hrest. apply in_or_app. right. now left.
    - destruct pre as [ | p pre]; cbn [app] in *.
      + injection Hkeys as -> Hrest. apply List.NoDup_cons_iff in Hnodup as [Hfresh _].
        exfalso. apply Hfresh. apply in_or_app. right. now left.
      + injection Hkeys as <- Hrest. f_equal. apply IH; [ | exact Hrest].
        now apply List.NoDup_cons_iff in Hnodup as [_ Hnodup]. }
  subst pre. now apply Hall.
Qed.

(** The first group of maximal length. *)
Lemma largest_first (groups : list (string * list SD.Item)) :
  forall acc,
    let largest :=
      fold_left (fun largestGroup kg =>
                   if Nat.ltb (length largestGroup) (length (snd kg)) then snd kg
                   else largestGroup) groups acc in
    length acc <= length largest
    /\ (forall k g, In (k, g) groups -> length g <= length largest)
    /\ (largest = acc
        \/ exists pre k post,
            groups = pre ++ (k, largest) :: post
            /\ length acc < length largest
            /\ forall k' g', In (k', g') pre -> length g' < length largest).
Proof.
  induction groups as [ | [k g] groups IH]; intros acc; cbn [fold_left snd].
  - split; [lia | ]. split; [intros k g [] | now left].
  - destruct (Nat.ltb_spec (length acc) (length g)) as [Hlt | Hge].
    + destruct (IH g) as (Hacc & Hall & Hfirst). cbv zeta in *.
      set (largest := fold_left _ groups g) in *.
      split; [lia | ]. split.
      * intros k' g' [[= <- <-] | Hin]; [exact Hacc | now apply (Hall k')].
      * right. destruct Hfirst as [Heq | (pre & k' & post & Hsplit & Hgt & Hpre)].
        -- exists [], k, groups. rewrite Heq.
           split; [reflexivity | ]. split; [exact Hlt | intros k' g' []].
        -- exists ((k, g) :: pre), k', post.
           split; [cbn [app]; f_equal; exact Hsplit | ]. split; [lia | ].
           intros k'' g'' [[= <- <-] | Hin]; [exact Hgt | now apply (Hpre k'')].
    + destruct (IH acc) as (Hacc & Hall & Hfirst). cbv zeta in *.
      set (largest := fold_left _ groups acc) in *.
      split; [exact Hacc | ]. split.
      * intros k' g' [[= <- <-] | Hin]; [lia | now apply (Hall k')].
      * destruct Hfirst as [Heq | (pre & k' & post & Hsplit & Hgt & Hpre)]; [now left | right].
        exists ((k, g) :: pre), k', post.
        split; [cbn [app]; f_equal; exact Hsplit | ]. split; [exact Hgt | ].
        intros k'' g'' [[= <- <-] | Hin]; [lia | now apply (Hpre k'')].
Qed.

Lemma filter_first {A : Type} (p : A -> bool) (l : list A) :
  List.filter p l <> [] ->
  exists before first after,
    l = before ++ first :: after /\ p first = true
    /\ forall x, In x before -> p x = false.
Proof.
  induction l as [ | x l IH]; cbn [List.filter]; [congruence | ].
  destruct (p x) eqn:Hx.
  - intros _. exists [], x, l. split; [reflexivity | ]. split; [exact Hx | intros y []].
  - intros Hne. destruct (IH Hne) as (before & first & after & -> & Hfirst & Hbefore).
    exists (x :: before), first, after. split; [reflexivity | ]. split; [exact Hfirst | ].
    intros y [<- | Hy]; [exact Hx | now apply Hbefore].
Qed.

(** The group selected among [items]: under one key, all its items; no
    key has more; and what comes before its first item belongs to strictly
    smaller groups. *)
Lemma largest_group_spec (items : list SD.Item) :
  items <> [] ->
  exists key before first after,
    items = before ++ first :: after
    /\ in_group key first = true
    /\ (forall x, In x before -> in_group key x = false)
    /\ SD.largest_group (SD.group_items items) = List.filter (in_group key) items
    /\ (forall k, length (List.filter (in_group k) items)
                  <= length (List.filter (in_group key) items))
    /\ (forall x, In x before ->
                  length (List.filter (in_group (SD.group_key (SD.info x))) items)
                  < length (List.filter (in_group key) items)).
Proof.
  intros Hitems.
  destruct (group_items_groups_of items) as (Hnodup & Hall & Hkeys).
  pose proof (group_items_keys items) as Horder.
  unfold SD.largest_group.
  destruct (largest_first (SD.group_items items) []) as (_ & Hmax & Hfirst).
  cbv zeta in *.
  set (largest := fold_left _ (SD.group_items items) []) in *.
  assert (Hgroup : forall k, List.filter (in_group k) items <> [] ->
                             In (k, List.filter (in_group k) items) (SD.group_items items)).
  { intros k Hk. apply filter_first in Hk as (b & x & a & Hsplit & Hx & _).
    assert (Hin : In k (map fst (SD.group_items items))).
    { unfold in_group in Hx. apply String.eqb_eq in Hx as <-. apply Hkeys.
      rewrite Hsplit. apply in_or_app. right. now left. }
    apply in_map_iff in Hin as ([k' g] & Heq & Hin). cbn [fst] in Heq. subst k'.
    destruct (Hall k g Hin) as [<- _]. exact Hin. }
  destruct Hfirst as [Hnil | (pre & key & post & Hsplit & Hlen & Hpre)].
  { exfalso. destruct items as [ | x items]; [congruence | ].
    assert (Hx : In (SD.group_key (SD.info x)) (map fst (SD.group_items (x :: items))))
      by (apply Hkeys; now left).
    apply in_map_iff in Hx as ([k g] & _ & Hin).
    destruct (Hall k g Hin) as [_ Hne]. specialize (Hmax k g Hin).
    rewrite Hnil in Hmax. destruct g; [congruence | cbn in Hmax; lia]. }
  assert (Hin : In (key, largest) (SD.group_items items))
    by (rewrite Hsplit; apply in_or_app; right; now left).
  destruct (Hall key largest Hin) as [Hlargest Hne].
  rewrite Hlargest in Hne.
  destruct (filter_first _ _ Hne) as (before & first & after & Hitems' & Hfst & Hbefore).
  exists key, before, first, after. rewrite <- Hlargest.
  split; [exact Hitems' | ]. split; [exact Hfst | ]. split; [exact Hbefore | ].
  split; [reflexivity | ]. split.
  - intros k. destruct (List.filter (in_group k) items) eqn:Hk; [cbn; lia | ].
    rewrite <- Hk. apply (Hmax k), Hgroup. congruence.
  - intros x Hx.
    assert (Hxk : In (SD.group_key (SD.info x)) pre.*1).
    { apply (first_keys_before
               (map (fun item => SD.group_key (SD.info item)) before)
               (map (fun item => SD.group_key (SD.info item)) after)
               (pre.*1) (post.*1) key).
      - intros Hkey. apply in_map_iff in Hkey as (y & Hy & Hyin).
        specialize (Hbefore y Hyin). unfold in_group in Hbefore.
        apply String.eqb_neq in Hbefore. contradiction.
      - rewrite Hsplit, map_app in Hnodup. exact Hnodup.
      - assert (Hk : first_keys (map (fun item => SD.group_key (SD.info item))
                                     (before ++ first :: after))
                     = map fst (pre ++ (key, largest) :: post))
          by (rewrite <- Hitems', <- Hsplit; symmetry; exact Horder).
        rewrite !map_app in Hk. cbn [map fst] in Hk.
        unfold in_group in Hfst. apply String.eqb_eq in Hfst. now rewrite Hfst in Hk.
      - now apply (in_map (fun item => SD.group_key (SD.info item))). }
    apply in_map_iff in Hxk as ([k g] & Heq & Hg). cbn [fst] in Heq. subst k.
    specialize (Hpre _ g Hg).
    assert (Hg' : In (SD.group_key (SD.info x), g) (SD.group_items items))
      by (rewrite Hsplit; apply in_or_app; now left).
    destruct (Hall _ g Hg') as [<- _]. exact Hpre.
Qed.

End Groups.

(** ** detectSequence, autoDetectSequences and validateSequence *)

Section Detector.

Lemma length_append (a b : string) :
  String.length (a +:+ b) = String.length a + String.length b.
Proof.
  induction a as [ | c a IH]; [reflexivity | ].
  change (S (String.length (a +:+ b)) = S (String.length a + String.length b)).
  now f_equal.
Qed.

Lemma scan_base_minimal (rest : string) :
  forall base b d e,
    SD.scan_base base rest = Some (b, d, e) ->
    forall mid tail,
      rest = mid +:+ tail -> SD.match_tail tail <> None ->
      String.length b <= String.length base + String.length mid.
Proof.
  induction rest as [ | c rest IH]; intros base b d e; cbn [SD.scan_base].
  - destruct (SD.match_tail EmptyString) as [[d' e'] | ] eqn:Htail; [ | discriminate].
    intros [= <- <- <-] mid tail _ _. lia.
  - destruct (SD.match_tail (String c rest)) as [[d' e'] | ] eqn:Htail.
    + intros [= <- <- <-] mid tail _ _. lia.
    + destruct (SD.at_line_terminator (String c rest)); [discriminate | ].
      intros Hscan mid tail Hsplit Hmatch.
      destruct mid as [ | c' mid].
      * change (EmptyString +:+ tail) with tail in Hsplit. subst tail. congruence.
      * change (String c' mid +:+ tail) with (String c' (mid +:+ tail)) in Hsplit.
        injection Hsplit as <- Hrest.
        pose proof (IH _ _ _ _ Hscan mid tail Hrest Hmatch) as Hlen.
        rewrite length_append in Hlen. cbn [String.length] in *. lia.
Qed.

Lemma no_dot_append (a b : string) : SD.no_dot (a +:+ "." +:+ b) = false.
Proof.
  induction a as [ | c a IH]; [reflexivity | ].
  change (String c a +:+ "." +:+ b) with (String c (a +:+ "." +:+ b)).
  cbn [SD.no_dot]. rewrite IH. apply andb_false_r.
Qed.

Lemma extension_unique (x : string) :
  forall x' e e',
    x +:+ "." +:+ e = x' +:+ "." +:+ e' ->
    SD.no_dot e = true -> SD.no_dot e' = true -> e = e'.
Proof.
  induction x as [ | c x IH]; intros [ | c' x'] e e' Heq He He'.
  - now injection Heq.
  - change (String "." e = String c' (x' +:+ "." +:+ e')) in Heq.
    injection Heq as _ ->. now rewrite no_dot_append in He.
  - change (String c (x +:+ "." +:+ e) = String "." e') in Heq.
    injection Heq as _ <-. now rewrite no_dot_append in He'.
  - change (String c (x +:+ "." +:+ e) = String c' (x' +:+ "." +:+ e')) in Heq.
    injection Heq as _ Heq. now apply (IH x').
Qed.

Lemma regex_match_shape (filename b d e : string) :
  SD.regex_match filename = Some (b, d, e) ->
  exists sep,
    frame_name_shape filename b sep d e
    /\ forall b' sep' d' e', frame_name_shape filename b' sep' d' e' ->
                             String.length b <= String.length b' /\ e' = e.
Proof.
  unfold SD.regex_match. destruct filename as [ | c rest]; [discriminate | ].
  destruct (SD.at_line_terminator (String c rest)) eqn:Hc; [discriminate | ].
  intros Hscan.
  destruct (scan_base_sound _ _ _ _ _ Hscan)
    as (mid & sep & -> & Hmid & -> & Hsep & Hd & Hdigits & He & Hnd).
  assert (Hshape : frame_name_shape (String c (mid +:+ sep +:+ d +:+ "." +:+ e))
                                    (String c EmptyString +:+ mid) sep d e).
  { unfold frame_name_shape. repeat split; auto; try discriminate.
    change (String c EmptyString +:+ mid) with (String c mid).
    destruct (tail_starts sep d e Hsep Hd Hdigits) as (c0 & tail & Htail & Hc0).
    apply (scans_spec c0 tail Hc0). rewrite <- Htail. cbn [scans].
    change (String c mid +:+ sep +:+ d +:+ "." +:+ e)
      with (String c (mid +:+ sep +:+ d +:+ "." +:+ e)).
    now rewrite Hc, Hmid. }
  exists sep. split; [exact Hshape | ].
  intros b' sep' d' e' (Hname & Hb' & _ & Hsep' & Hd' & Hdigits' & He' & Hnd').
  split.
  - destruct b' as [ | c' m']; [congruence | ].
    change (String c' m' +:+ sep' +:+ d' +:+ "." +:+ e')
      with (String c' (m' +:+ sep' +:+ d' +:+ "." +:+ e')) in Hname.
    injection Hname as _ Hrest.
    apply (scan_base_minimal _ _ _ _ _ Hscan m' (sep' +:+ d' +:+ "." +:+ e') Hrest).
    now rewrite match_tail_complete.
  - destruct Hshape as (Hname0 & _). rewrite Hname0 in Hname.
    rewrite <- !append_assoc3 in Hname.
    rewrite (append_assoc3 _ "." e), (append_assoc3 _ "." e') in Hname. symmetry.
    exact (extension_unique _ _ _ _ Hname Hnd Hnd').
Qed.

Lemma regex_match_accepts (filename b sep d e : string) :
  frame_name_shape filename b sep d e -> SD.regex_match filename <> None.
Proof.
  intros (-> & Hb & Hlt & Hsep & Hd & Hdigits & He & Hnd).
  destruct (tail_starts sep d e Hsep Hd Hdigits) as (c0 & tail & Htail & Hc0).
  apply (scans_spec c0 tail Hc0) in Hlt. rewrite <- Htail in Hlt.
  destruct b as [ | c mid]; [congruence | ].
  cbn [scans] in Hlt. apply andb_prop in Hlt as [Hc Hmid].
  apply negb_true_iff in Hc.
  change (String c mid +:+ sep +:+ d +:+ "." +:+ e)
    with (String c (mid +:+ sep +:+ d +:+ "." +:+ e)) in *.
  unfold SD.regex_match. rewrite Hc.
  apply scan_base_complete; [exact Hmid | ]. now rewrite match_tail_complete.
Qed.

Lemma File_eqb_eq (a b : SD.File) : SD.File_eqb a b = true <-> a = b.
Proof.
  unfold SD.File_eqb. rewrite andb_true_iff, String.eqb_eq, Z.eqb_eq.
  destruct a, b; cbn. split; [intros [-> ->]; reflexivity | intros [= -> ->]; auto].
Qed.

Lemma existsb_File_eqb (f : SD.File) (l : list SD.File) :
  existsb (SD.File_eqb f) l = true <-> In f l.
Proof.
  rewrite existsb_exists. split.
  - intros (g & Hg & Heq). apply File_eqb_eq in Heq. now subst.
  - intros Hin. exists f. split; [exact Hin | now apply File_eqb_eq].
Qed.

(** The files of a group are the files that carry its key, in the order
    they were given. *)
Lemma group_files (key : string) (files : list SD.File) :
  map SD.file (List.filter (in_group key) (SD.frameInfos files))
  = List.filter (carries key) files.
Proof.
  unfold SD.frameInfos, carries.
  induction files as [ | f files IH]; [reflexivity | ].
  cbn [omap list_omap List.filter].
  destruct (SD.extractFrameInfo (SD.name f)) as [i | ]; [ | exact IH].
  cbn [List.filter]. unfold in_group at 1. cbn [SD.info].
  destruct (String.eqb (SD.group_key i) key); [ | exact IH].
  cbn [map SD.file]. now f_equal.
Qed.

Lemma filter_split {A : Type} (p : A -> bool) (l : list A) :
  Permutation (List.filter p l ++ List.filter (fun x => negb (p x)) l) l.
Proof.
  induction l as [ | x l IH]; [constructor | ].
  cbn [List.filter]. destruct (p x); cbn [negb app].
  - now constructor.
  - rewrite <- Permutation_middle. now constructor.
Qed.

Lemma frameInfos_nil (files : list SD.File) :
  SD.frameInfos files = [] -> selected_group files = [].
Proof. intros Hnil. unfold selected_group. now rewrite Hnil. Qed.

Lemma selected_group_files (files : list SD.File) :
  2 <= length (selected_group files) ->
  exists key,
    selected_group files = List.filter (in_group key) (SD.frameInfos files).
Proof.
  intros Hlen. destruct (SD.frameInfos files) as [ | x items] eqn:Hitems.
  - rewrite (frameInfos_nil files Hitems) in Hlen. cbn in Hlen. lia.
  - destruct (largest_group_spec (x :: items)) as (key & _ & _ & _ & _ & _ & _ & Hsel & _);
      [discriminate | ].
    exists key. unfold selected_group. now rewrite Hitems.
Qed.

Lemma sorted_lt_NoDup (l : list Z) : StronglySorted Z.lt l -> List.NoDup l.
Proof.
  induction 1 as [ | x l Hsorted IH Hall]; constructor; [ | exact IH].
  intros Hin. rewrite List.Forall_forall in Hall. specialize (Hall x Hin). lia.
Qed.

Lemma length_nodup_le (l : list Z) : length (nodup Z.eq_dec l) <= length l.
Proof.
  induction l as [ | x l IH]; [reflexivity | ].
  cbn [nodup]. destruct (in_dec Z.eq_dec x l); cbn [length]; lia.
Qed.

Lemma length_nodup_eq (l : list Z) :
  length (nodup Z.eq_dec l) = length l <-> List.NoDup l.
Proof.
  split; [ | intros H; now rewrite nodup_fixed_point].
  induction l as [ | x l IH]; [constructor | ].
  cbn [nodup]. pose proof (length_nodup_le l).
  destruct (in_dec Z.eq_dec x l); cbn [length]; [lia | ].
  intros Hlen. constructor; [assumption | apply IH; lia].
Qed.

(** The frame numbers met and the gaps fill the range from the first to
    the last frame. *)
Lemma range_filled (nums gaps : list Z) (first last : Z) :
  In first nums -> In last nums ->
  (forall n, In n nums -> (first <= n <= last)%Z) ->
  (forall z, In z gaps <-> (first < z < last)%Z /\ ~ In z nums) ->
  List.NoDup gaps ->
  (Z.of_nat (length (nodup Z.eq_dec nums)) + Z.of_nat (length gaps) = last - first + 1)%Z.
Proof.
  intros Hfirst Hlast Hbounds Hgaps Hnodup.
  assert (Hperm : Permutation (nodup Z.eq_dec nums ++ gaps)
                              (SD.between (first - 1) (last + 1))).
  { apply Permutation.NoDup_Permutation.
    - apply List.NoDup_app; [apply List.NoDup_nodup | exact Hnodup | ].
      intros z Hz Hg. apply nodup_In in Hz. apply Hgaps in Hg. tauto.
    - apply sorted_lt_NoDup, between_increasing.
    - intros z. rewrite in_app_iff, nodup_In, Hgaps, In_between. split.
      + intros [Hz | [Hz _]]; [apply Hbounds in Hz | ]; lia.
      + intros Hz.
        destruct (in_dec Z.eq_dec z nums) as [Hin | Hout]; [now left | ].
        right. split; [ | exact Hout].
        assert (z <> first) by (intros ->; contradiction).
        assert (z <> last) by (intros ->; contradiction).
        lia. }
  apply Permutation_length in Hperm. rewrite length_app in Hperm.
  unfold SD.between in Hperm. rewrite length_map, length_seq in Hperm.
  specialize (Hbounds first Hfirst). lia.
Qed.

Lemma detectSequence_counts (files : list SD.File) (sequence : SD.SequenceInfo) :
  SD.detectSequence files = Some sequence ->
  2 <= length (SD.files sequence)
  /\ length (SD.files sequence) = length (frame_numbers (selected_group files))
  /\ (Z.of_nat (length (nodup Z.eq_dec (frame_numbers (selected_group files))))
      + Z.of_nat (length (SD.gaps sequence))
      = SD.endFrame sequence - SD.startFrame sequence + 1)%Z.
Proof.
  intros Hdetect.
  assert (Hlen : 2 <= length (selected_group files))
    by (apply detectSequence_succeeds; congruence).
  destruct (detectSequence_output_general files sequence Hdetect)
    as (_ & (sorted & Hperm & _ & Hfiles) & Hfirst & Hlast & Hbounds & Hgaps & Hsorted).
  assert (Hcount : length (SD.files sequence) = length (frame_numbers (selected_group files))).
  { rewrite Hfiles. unfold frame_numbers. rewrite !length_map.
    now apply Permutation_length. }
  split; [rewrite Hcount; unfold frame_numbers; rewrite length_map; exact Hlen | ].
  split; [exact Hcount | ].
  apply range_filled; auto. now apply sorted_lt_NoDup.
Qed.

End Detector.

(** X2. [extractFrameInfo] returns frame info exactly for the names made
    of a non-empty base without line terminator, an optional underscore, one
    digit or more, a dot, and a non-empty extension without dot. *)
Theorem extractFrameInfo_accepts (filename : string) :
  SD.extractFrameInfo filename <> None
  <-> exists b sep d e, frame_name_shape filename b sep d e.
Proof.
  unfold SD.extractFrameInfo. split.
  - destruct (SD.regex_match filename) as [[[b d] e] | ] eqn:Hmatch; [ | congruence].
    intros _. destruct (regex_match_shape _ _ _ _ Hmatch) as (sep & Hshape & _).
    now exists b, sep, d, e.
  - intros (b & sep & d & e & Hshape).
    apply regex_match_accepts in Hshape.
    destruct (SD.regex_match filename) as [[[b' d'] e'] | ]; congruence.
Qed.

(** A line separator or a line feed in the base of a name has it refused;
    in the extension it does not. *)
Example extractFrameInfo_line_separator :
  SD.extractFrameInfo ("a" +:+ String "226" (String "128" (String "168" "_1.png"))) = None
  /\ SD.extractFrameInfo ("a" +:+ String "010" "_1.png") = None
  /\ SD.extractFrameInfo ("a_1.p" +:+ String "226" (String "128" (String "168" "g")))
     <> None.
Proof.
  split; [vm_compute; reflexivity | ]. split; [vm_compute; reflexivity | ].
  vm_compute. discriminate.
Qed.

(** X3. Among the files that carry a frame number, the group selected
    holds every file of one key, in the order the files were given; no key
    is carried by more files; and every file given before the first file of
    the group belongs to a strictly smaller group. *)
Theorem selected_group_first_largest (files : list SD.File) :
  (SD.frameInfos files = [] /\ selected_group files = [])
  \/ exists key before first after,
      SD.frameInfos files = before ++ first :: after
      /\ in_group key first = true
      /\ (forall x, In x before -> in_group key x = false)
      /\ selected_group files = List.filter (in_group key) (SD.frameInfos files)
      /\ map SD.file (selected_group files) = List.filter (carries key) files
      /\ (forall k, length (List.filter (carries k) files)
                    <= length (selected_group files))
      /\ (forall x, In x before ->
                    length (List.filter (carries (SD.group_key (SD.info x))) files)
                    < length (selected_group files)).
Proof.
  destruct (SD.frameInfos files) as [ | x items] eqn:Hitems.
  - left. split; [reflexivity | now apply frameInfos_nil].
  - right.
    destruct (largest_group_spec (x :: items))
      as (key & before & first & after & Hsplit & Hfirst & Hbefore & Hsel & Hmax & Hless);
      [discriminate | ].
    exists key, before, first, after. unfold selected_group.
    rewrite <- Hitems in *. rewrite Hsel.
    split; [exact Hsplit | ]. split; [exact Hfirst | ]. split; [exact Hbefore | ].
    split; [reflexivity | ]. split; [apply group_files | ].
    split.
    + intros k. rewrite <- (group_files k), length_map. apply Hmax.
    + intros y Hy. rewrite <- group_files, length_map. now apply Hless.
Qed.

(** X4. For files whose frame numbers are below 2^32,
    [SD.autoDetectSequences] splits the upload in two: with no sequence
    detected every file is individual; with one, its files are, up to the
    order of frame numbers, the files that carry the key of the selected
    group, and the individual files are all the others, in the order given.
    No file is lost or doubled. *)
Theorem autoDetectSequences_partition (files : list SD.File) :
  safe_frames files = true ->
  let result := SD.autoDetectSequences files in
  match SD.detectSequence files with
  | None => SD.sequences result = [] /\ SD.individualFiles result = files
  | Some sequence =>
      SD.sequences result = [sequence]
      /\ exists key,
          Permutation (SD.files sequence) (List.filter (carries key) files)
          /\ SD.individualFiles result = List.filter (fun f => negb (carries key f)) files
          /\ Permutation (SD.files sequence ++ SD.individualFiles result) files
  end.
Proof.
  intros _. unfold SD.autoDetectSequences.
  destruct (SD.detectSequence files) as [sequence | ] eqn:Hdetect;
    cbn [SD.sequences SD.individualFiles].
  - split; [reflexivity | ].
    assert (Hlen : 2 <= length (selected_group files))
      by (apply detectSequence_succeeds; congruence).
    destruct (selected_group_files files Hlen) as (key & Hsel).
    destruct (detectSequence_output_general files sequence Hdetect)
      as (_ & (sorted & Hperm & _ & Hfiles) & _).
    assert (Hseq : Permutation (SD.files sequence) (List.filter (carries key) files)).
    { rewrite Hfiles, <- group_files, <- Hsel. now apply Permutation_map. }
    assert (Hrest : List.filter (fun file => negb (existsb (SD.File_eqb file) (SD.files sequence))) files
                    = List.filter (fun f => negb (carries key f)) files).
    { apply filter_ext_in. intros f Hf. f_equal.
      apply eq_true_iff_eq. rewrite existsb_File_eqb. split.
      - intros Hin. rewrite Hseq in Hin. now apply filter_In in Hin.
      - intros Hc. rewrite Hseq. apply filter_In. auto. }
    exists key. split; [exact Hseq | ]. split; [exact Hrest | ].
    rewrite Hrest, Hseq. apply filter_split.
  - split; [reflexivity | ]. cbn [existsb negb]. clear Hdetect.
    induction files as [ | f files IH]; [reflexivity | ]. cbn [List.filter]. now f_equal.
Qed.

Lemma autoDetectSequences_partition_mixed :
  SD.sequences (SD.autoDetectSequences mixed_files) = [gapped_sequence]
  /\ exists key,
      Permutation (SD.files gapped_sequence) (List.filter (carries key) mixed_files)
      /\ SD.individualFiles (SD.autoDetectSequences mixed_files)
         = List.filter (fun f => negb (carries key f)) mixed_files
      /\ Permutation (SD.files gapped_sequence
                      ++ SD.individualFiles (SD.autoDetectSequences mixed_files))
                     mixed_files.
Proof.
  assert (Hsafe : safe_frames mixed_files = true) by (vm_compute; reflexivity).
  assert (Hdetect : SD.detectSequence mixed_files = Some gapped_sequence)
    by (vm_compute; reflexivity).
  generalize (autoDetectSequences_partition mixed_files Hsafe).
  cbv zeta. rewrite Hdetect. exact (fun H => H).
Defined.

(** X5. For files whose frame numbers are below 2^32: in a detected
    sequence the distinct frame numbers and the gaps fill the range from
    [startFrame] to [endFrame]: files and gaps together count at least the
    length of the range, and exactly that length when, and only when, no two
    files of the sequence have the same frame number. *)
Theorem detectSequence_gap_count (files : list SD.File) (sequence : SD.SequenceInfo) :
  safe_frames files = true ->
  SD.detectSequence files = Some sequence ->
  (SD.endFrame sequence - SD.startFrame sequence + 1
   <= Z.of_nat (length (SD.files sequence)) + Z.of_nat (length (SD.gaps sequence)))%Z
  /\ (List.NoDup (frame_numbers (selected_group files))
      <-> (Z.of_nat (length (SD.files sequence)) + Z.of_nat (length (SD.gaps sequence))
           = SD.endFrame sequence - SD.startFrame sequence + 1)%Z).
Proof.
  intros _ Hdetect.
  destruct (detectSequence_counts files sequence Hdetect) as (_ & Hcount & Hrange).
  pose proof (length_nodup_le (frame_numbers (selected_group files))) as Hle.
  rewrite <- length_nodup_eq. rewrite Hcount. split; [lia | ]. split; lia.
Qed.

Lemma detectSequence_gap_count_gapped :
  (SD.endFrame gapped_sequence - SD.startFrame gapped_sequence + 1
   <= Z.of_nat (length (SD.files gapped_sequence)) + Z.of_nat (length (SD.gaps gapped_sequence)))%Z
  /\ (List.NoDup (frame_numbers (selected_group gapped_files))
      <-> (Z.of_nat (length (SD.files gapped_sequence)) + Z.of_nat (length (SD.gaps gapped_sequence))
           = SD.endFrame gapped_sequence - SD.startFrame gapped_sequence + 1)%Z).
Proof.
  apply (detectSequence_gap_count gapped_files gapped_sequence); vm_compute; reflexivity.
Defined.

(** X6. What [validateSequence] says of a sequence [detectSequence]
    returned for files whose frame numbers are below 2^32: it is valid exactly when it has no gap; the warning for less
    than two frames is never given; and the warning for a frame count below
    the length of the range is given only together with the warning for
    missing frames. *)
Theorem validateSequence_of_detected (files : list SD.File) (sequence : SD.SequenceInfo) :
  safe_frames files = true ->
  SD.detectSequence files = Some sequence ->
  let result := SD.validateSequence sequence in
  (SD.valid result = true <-> SD.gaps sequence = [])
  /\ ~ In "Sequence has less than 2 frames" (SD.warnings result)
  /\ (SD.gaps sequence = [] -> SD.warnings result = [])
  /\ (SD.gaps sequence <> [] ->
      exists missing rest,
        SD.warnings result = missing :: rest
        /\ missing = "Missing frames: " +:+ SD.join ", " (map Z_to_string (SD.gaps sequence))
                     +:+ " (" +:+ nat_to_string (length (SD.gaps sequence)) +:+ " gaps)"
        /\ (rest = []
            \/ rest = ["Expected "
                       +:+ Z_to_string (SD.endFrame sequence - SD.startFrame sequence + 1)
                       +:+ " frames, found "
                       +:+ Z_to_string (Z.of_nat (length (SD.files sequence)))])).
Proof.
  intros _ Hdetect.
  destruct (detectSequence_counts files sequence Hdetect) as (Htwo & Hcount & Hrange).
  pose proof (length_nodup_le (frame_numbers (selected_group files))) as Hle.
  cbv zeta. unfold SD.validateSequence. cbn [SD.valid SD.warnings].
  destruct (Z.ltb_spec (Z.of_nat (length (SD.files sequence))) 2) as [ | _]; [lia | ].
  rewrite app_nil_r.
  destruct (SD.gaps sequence) as [ | z gaps] eqn:Hgaps.
  - cbn [length Nat.ltb Nat.leb app].
    destruct (Z.ltb_spec (Z.of_nat (length (SD.files sequence)))
                         (SD.endFrame sequence - SD.startFrame sequence + 1)) as [ | _];
      [cbn [length] in Hrange; lia | ].
    cbn [length Nat.eqb]. repeat split; auto. congruence.
  - change (Nat.ltb 0 (length (z :: gaps))) with true. cbv iota.
    split; [split; [intros Hvalid | discriminate] | ].
    { destruct (Z.ltb _ _); discriminate Hvalid. }
    split.
    { intros [Hin | Hin]; [discriminate Hin | ].
      destruct (Z.ltb _ _); [destruct Hin as [Hin | []]; discriminate Hin | destruct Hin]. }
    split; [congruence | ]. intros _.
    eexists _, _. split; [reflexivity | ]. split; [reflexivity | ].
    destruct (Z.ltb _ _); [now right | now left].
Qed.

Lemma validateSequence_of_detected_gapped :
  let result := SD.validateSequence gapped_sequence in
  (SD.valid result = true <-> SD.gaps gapped_sequence = [])
  /\ ~ In "Sequence has less than 2 frames" (SD.warnings result)
  /\ (SD.gaps gapped_sequence = [] -> SD.warnings result = [])
  /\ (SD.gaps gapped_sequence <> [] ->
      exists missing rest,
        SD.warnings result = missing :: rest
        /\ missing = "Missing frames: " +:+ SD.join ", " (map Z_to_string (SD.gaps gapped_sequence))
                     +:+ " (" +:+ nat_to_string (length (SD.gaps gapped_sequence)) +:+ " gaps)"
        /\ (rest = []
            \/ rest = ["Expected "
                       +:+ Z_to_string (SD.endFrame gapped_sequence - SD.startFrame gapped_sequence + 1)
                       +:+ " frames, found "
                       +:+ Z_to_string (Z.of_nat (length (SD.files gapped_sequence)))])).
Proof.
  apply (validateSequence_of_detected gapped_files gapped_sequence); vm_compute; reflexivity.
Defined.

(** ** Padding, names and frame numbers of a sequence *)

Section Names.

Lemma count_padding_keys (p : nat) (counts : list (nat * nat)) :
  map fst (SD.count_padding p counts)
  = if existsb (Nat.eqb p) (map fst counts) then map fst counts else map fst counts ++ [p].
Proof.
  induction counts as [ | [q c] counts IH]; [reflexivity | ].
  cbn [SD.count_padding map fst existsb].
  destruct (Nat.eqb p q); [reflexivity | ].
  cbn [map fst orb]. rewrite IH.
  now destruct (existsb (Nat.eqb p) (map fst counts)).
Qed.

Lemma existsb_eqb_In (p : nat) (l : list nat) : existsb (Nat.eqb p) l = true <-> In p l.
Proof.
  rewrite existsb_exists. split.
  - intros (x & Hx & Heq). apply Nat.eqb_eq in Heq. now subst.
  - intros Hin. exists p. split; [exact Hin | apply Nat.eqb_refl].
Qed.

Lemma count_padding_entries (p : nat) (counts : list (nat * nat)) :
  List.NoDup (map fst counts) ->
  forall q c,
    In (q, c) (SD.count_padding p counts) ->
    (q <> p /\ In (q, c) counts)
    \/ (q = p
        /\ ((exists c0, In (q, c0) counts /\ c = c0 + 1)
            \/ (~ In p (map fst counts) /\ c = 1))).
Proof.
  induction counts as [ | [q0 c0] counts IH]; intros Hnodup q c; cbn [SD.count_padding].
  - intros [[= <- <-] | []]. right. split; [reflexivity | right; auto].
  - cbn [map fst] in Hnodup. apply List.NoDup_cons_iff in Hnodup as [Hfresh Hnodup].
    destruct (Nat.eqb_spec p q0) as [-> | Hne].
    + intros [[= <- <-] | Hin].
      * right. split; [reflexivity | left]. exists c0. split; [now left | reflexivity].
      * left. split; [ | now right]. intros ->. apply Hfresh.
        now apply (in_map fst) in Hin.
    + intros [[= <- <-] | Hin].
      * left. split; [congruence | now left].
      * destruct (IH Hnodup q c Hin) as [[Hq Hc] | [-> [(c1 & Hc1 & ->) | [Hnew ->]]]].
        -- left. split; [exact Hq | now right].
        -- right. split; [reflexivity | left]. exists c1. split; [now right | reflexivity].
        -- right. split; [reflexivity | right]. split; [ | reflexivity].
           cbn [map fst]. intros [Heq | Hin']; [congruence | contradiction].
Qed.

Lemma count_occ_snoc (ps : list nat) (p q : nat) :
  count_occ Nat.eq_dec (ps ++ [p]) q
  = count_occ Nat.eq_dec ps q + (if Nat.eqb p q then 1 else 0).
Proof.
  rewrite count_occ_app. cbn [count_occ].
  destruct (Nat.eq_dec p q) as [-> | Hne].
  - now rewrite Nat.eqb_refl.
  - apply Nat.eqb_neq in Hne. now rewrite Hne.
Qed.

Lemma count_padding_tally (p : nat) (ps : list nat) (counts : list (nat * nat)) :
  tally_of ps counts -> tally_of (ps ++ [p]) (SD.count_padding p counts).
Proof.
  intros (Hnodup & Hall & Hkeys).
  assert (Hsub : forall q, In q (map fst counts) -> In q (map fst (SD.count_padding p counts))).
  { intros q Hq. rewrite count_padding_keys.
    destruct (existsb (Nat.eqb p) (map fst counts)); [exact Hq | apply in_or_app; now left]. }
  split; [ | split].
  - rewrite count_padding_keys.
    destruct (existsb (Nat.eqb p) (map fst counts)) eqn:Hmem; [exact Hnodup | ].
    apply (Permutation_NoDup (Permutation_cons_append (map fst counts) p)).
    constructor; [ | exact Hnodup]. intros Hp. apply existsb_eqb_In in Hp. congruence.
  - intros q c Hin. rewrite count_occ_snoc.
    destruct (count_padding_entries p counts Hnodup q c Hin)
      as [[Hq Hc] | [-> [(c0 & Hc0 & ->) | [Hnew ->]]]].
    + destruct (Hall q c Hc) as [-> Hpos].
      destruct (Nat.eqb_spec p q); [congruence | lia].
    + destruct (Hall p c0 Hc0) as [-> Hpos]. rewrite Nat.eqb_refl. lia.
    + rewrite Nat.eqb_refl.
      assert (count_occ Nat.eq_dec ps p = 0); [ | lia].
      apply count_occ_not_In. intros Hp. now apply Hnew, Hkeys.
  - intros q Hq. apply in_app_or in Hq as [Hq | [<- | []]]; [now apply Hsub, Hkeys | ].
    rewrite count_padding_keys.
    destruct (existsb (Nat.eqb p) (map fst counts)) eqn:Hmem; [now apply existsb_eqb_In | ].
    apply in_or_app. right. now left.
Qed.

Lemma count_padding_from (items : list SD.Item) :
  forall done counts,
    tally_of (paddings done) counts ->
    tally_of (paddings (done ++ items))
             (fold_left (fun counts item => SD.count_padding (SD.padding (SD.info item)) counts)
                        items counts).
Proof.
  induction items as [ | item items IH]; intros done counts Htally; cbn [fold_left].
  - now rewrite app_nil_r.
  - replace (done ++ item :: items) with ((done ++ [item]) ++ items)
      by (now rewrite <- app_assoc).
    apply IH. unfold paddings. rewrite map_app. now apply count_padding_tally.
Qed.

Lemma most_common_from (counts : list (nat * nat)) :
  forall acc : nat * nat,
    let best :=
      fold_left (fun (acc : nat * nat) pc =>
                   if Nat.ltb (snd acc) (snd pc) then (fst pc, snd pc) else acc)
                counts acc in
    snd acc <= snd best
    /\ (forall q c, In (q, c) counts -> c <= snd best)
    /\ (best = acc \/ In best counts).
Proof.
  induction counts as [ | [q c] counts IH]; intros acc; cbn [fold_left fst snd].
  - split; [lia | ]. split; [intros q c [] | now left].
  - destruct (Nat.ltb_spec (snd acc) c) as [Hlt | Hge].
    + destruct (IH (q, c)) as (Hacc & Hall & Hbest). cbv zeta in *. cbn [snd] in Hacc.
      split; [lia | ]. split.
      * intros q' c' [[= <- <-] | Hin]; [exact Hacc | now apply (Hall q')].
      * right. destruct Hbest as [-> | Hin]; [now left | now right].
    + destruct (IH acc) as (Hacc & Hall & Hbest). cbv zeta in *.
      split; [exact Hacc | ]. split.
      * intros q' c' [[= <- <-] | Hin]; [lia | now apply (Hall q')].
      * destruct Hbest as [-> | Hin]; [now left | right; now right].
Qed.

(** The padding chosen for a group is one met most often in it. *)
Lemma most_common_padding_mode (group : list SD.Item) :
  group <> [] ->
  In (SD.most_common_padding group) (paddings group)
  /\ forall p, count_occ Nat.eq_dec (paddings group) p
               <= count_occ Nat.eq_dec (paddings group) (SD.most_common_padding group).
Proof.
  intros Hgroup. unfold SD.most_common_padding.
  destruct (count_padding_from group [] []) as (Hnodup & Hall & Hkeys).
  { split; [constructor | ]. split; [intros q c [] | intros p []]. }
  cbn [app] in Hall, Hkeys.
  set (counts := fold_left _ group []) in *.
  destruct (most_common_from counts (0, 0)) as (_ & Hmax & Hbest). cbv zeta in *.
  set (best := fold_left _ counts (0, 0)) in *.
  assert (Hin : In best counts).
  { destruct Hbest as [Hzero | Hin]; [ | exact Hin]. exfalso.
    destruct group as [ | x group]; [congruence | ].
    assert (Hx : In (SD.padding (SD.info x)) (map fst counts)) by (apply Hkeys; now left).
    apply in_map_iff in Hx as ([q c] & _ & Hqc).
    destruct (Hall q c Hqc) as [_ Hpos]. specialize (Hmax q c Hqc).
    rewrite Hzero in Hmax. cbn [snd] in Hmax. lia. }
  destruct best as [m c]. cbn [fst snd] in *.
  destruct (Hall m c Hin) as [Hc Hpos]. split.
  - apply (count_occ_In Nat.eq_dec). lia.
  - intros p. rewrite <- Hc.
    destruct (in_dec Nat.eq_dec p (paddings group)) as [Hp | Hp].
    + apply Hkeys in Hp. apply in_map_iff in Hp as ([q c'] & Heq & Hqc). cbn [fst] in Heq. subst q.
      destruct (Hall p c' Hqc) as [<- _]. now apply (Hmax p).
    + apply (count_occ_not_In Nat.eq_dec) in Hp. lia.
Qed.

(** What [detectSequence] returns, in terms of the sorted group. *)
Lemma detectSequence_fields (files : list SD.File) (sequence : SD.SequenceInfo) :
  SD.detectSequence files = Some sequence ->
  exists first rest,
    SD.sort_items (selected_group files) = first :: rest
    /\ SD.baseName sequence = SD.strip_trailing_underscore (SD.base (SD.info first))
    /\ SD.pattern sequence
       = SD.base (SD.info first) +:+ "{"
         +:+ SD.padStart (Z_to_string (SD.startFrame sequence)) (SD.seqPadding sequence)
         +:+ "-"
         +:+ SD.padStart (Z_to_string (SD.endFrame sequence)) (SD.seqPadding sequence)
         +:+ "}." +:+ SD.extension (SD.info first)
    /\ SD.startFrame sequence = SD.number (SD.info first)
    /\ SD.seqPadding sequence = SD.most_common_padding (first :: rest)
    /\ SD.files sequence = map SD.file (first :: rest).
Proof.
  unfold SD.detectSequence. fold (selected_group files).
  destruct (Nat.ltb (length files) 2); [discriminate | ].
  destruct (Nat.ltb (length (SD.frameInfos files)) 2); [discriminate | ].
  destruct (Nat.ltb (length (selected_group files)) 2); [discriminate | ].
  destruct (SD.sort_items (selected_group files)) as [ | first rest]; [discriminate | ].
  intros [= <-]. exists first, rest. cbn. repeat split.
Qed.

Lemma list_ascii_append (a b : string) :
  list_ascii_of_string (a +:+ b) = list_ascii_of_string a ++ list_ascii_of_string b.
Proof.
  induction a as [ | c a IH]; [reflexivity | ].
  change (c :: list_ascii_of_string (a +:+ b)
          = c :: (list_ascii_of_string a ++ list_ascii_of_string b)).
  now f_equal.
Qed.

Lemma includes_underscore_append (a b : string) :
  SD.includes_underscore (a +:+ b) = SD.includes_underscore a || SD.includes_underscore b.
Proof. unfold SD.includes_underscore. now rewrite list_ascii_append, existsb_app. Qed.

Lemma strip_appended (b : string) : SD.strip_trailing_underscore (b +:+ "_") = b.
Proof.
  induction b as [ | c b IH]; [reflexivity | ].
  change (String c b +:+ "_") with (String c (b +:+ "_")).
  cbn [SD.strip_trailing_underscore]. rewrite IH. now destruct b.
Qed.

Lemma strip_nothing (b : string) :
  SD.includes_underscore b = false -> SD.strip_trailing_underscore b = b.
Proof.
  induction b as [ | c b IH]; [reflexivity | ].
  unfold SD.includes_underscore. cbn [list_ascii_of_string existsb].
  intros H. apply orb_false_iff in H as [Hc Hb].
  cbn [SD.strip_trailing_underscore]. rewrite Hc.
  destruct b as [ | c' b]; [reflexivity | ]. f_equal. now apply IH.
Qed.

(** The base name shown for a name is the base of its split. *)
Lemma strip_base (filename b sep d e : string) :
  frame_name_shape filename b sep d e ->
  SD.strip_trailing_underscore
    (b +:+ (if SD.includes_underscore filename then "_" else EmptyString)) = b.
Proof.
  intros (Hname & _). destruct (SD.includes_underscore filename) eqn:Hu.
  - apply strip_appended.
  - rewrite append_nil_r. apply strip_nothing.
    rewrite Hname, includes_underscore_append in Hu. now apply orb_false_iff in Hu.
Qed.

(** *** The sort keeps the order of equal frame numbers *)

Lemma filter_above (n : Z) (l : list SD.Item) :
  Forall (fun y => (n < SD.number (SD.info y))%Z) l ->
  List.filter (same_number n) l = [].
Proof.
  intros Hall. apply filter_none. intros y Hy. rewrite List.Forall_forall in Hall.
  specialize (Hall y Hy). unfold same_number. apply Z.eqb_neq. lia.
Qed.

Lemma insert_item_filter (n : Z) (x : SD.Item) (l : list SD.Item) :
  StronglySorted frame_le l ->
  List.filter (same_number n) (SD.insert_item x l)
  = List.filter (same_number n) l ++ (if same_number n x then [x] else []).
Proof.
  induction 1 as [ | y ys Hsorted IH Hall]; cbn [SD.insert_item List.filter].
  - now destruct (same_number n x).
  - destruct (Z.ltb_spec (SD.number (SD.info x)) (SD.number (SD.info y))) as [Hlt | Hge];
      cbn [List.filter].
    + destruct (same_number n x) eqn:Hx; [ | now rewrite app_nil_r].
      unfold same_number in Hx. apply Z.eqb_eq in Hx.
      assert (Hnone : List.filter (same_number n) (y :: ys) = []).
      { apply filter_above. constructor; [lia | ].
        eapply List.Forall_impl; [ | exact Hall]. unfold frame_le. intros z Hz. lia. }
      cbn [List.filter] in Hnone. now rewrite Hnone.
    + rewrite IH. now destruct (same_number n y).
Qed.

Lemma sort_from_filter (n : Z) (l : list SD.Item) :
  forall acc,
    StronglySorted frame_le acc ->
    List.filter (same_number n) (fold_left (fun acc x => SD.insert_item x acc) l acc)
    = List.filter (same_number n) acc ++ List.filter (same_number n) l.
Proof.
  induction l as [ | x l IH]; intros acc Hacc; cbn [fold_left List.filter].
  - now rewrite app_nil_r.
  - rewrite IH by (now apply insert_item_sorted).
    rewrite insert_item_filter by exact Hacc. rewrite <- app_assoc.
    now destruct (same_number n x).
Qed.

Lemma sort_items_stable (n : Z) (l : list SD.Item) :
  List.filter (same_number n) (SD.sort_items l) = List.filter (same_number n) l.
Proof. apply (sort_from_filter n l []). constructor. Qed.

(** *** [parseInt] reads back what [toString] prints *)

Lemma parseInt_acc (d : uint) :
  forall acc : positive,
    fold_left (fun acc c => 10 * acc + SD.digit_value c)%Z
              (list_ascii_of_string (NilEmpty.string_of_uint d)) (Zpos acc)
    = Zpos (Pos.of_uint_acc d acc).
Proof.
  induction d as [ | d IH | d IH | d IH | d IH | d IH | d IH | d IH | d IH | d IH | d IH];
    intros acc; [reflexivity | .. ];
    cbn [NilEmpty.string_of_uint list_ascii_of_string fold_left Pos.of_uint_acc];
    rewrite <- IH; f_equal;
    match goal with
    | |- context [SD.digit_value ?c] =>
        let v := eval vm_compute in (SD.digit_value c) in
        change (SD.digit_value c) with v
    end; lia.
Qed.

Lemma parseInt_of_uint (d : uint) :
  SD.parseInt (NilEmpty.string_of_uint d) = Z.of_N (Pos.of_uint d).
Proof.
  unfold SD.parseInt.
  induction d as [ | d IH | d IH | d IH | d IH | d IH | d IH | d IH | d IH | d IH | d IH];
    [reflexivity | exact IH | .. ];
    cbn [NilEmpty.string_of_uint list_ascii_of_string fold_left Pos.of_uint];
    apply parseInt_acc.
Qed.

Lemma parseInt_to_string (z : Z) : (0 <= z)%Z -> SD.parseInt (Z_to_string z) = z.
Proof.
  intros Hz. unfold Z_to_string.
  pose proof (DecimalZ.of_to z) as Hback.
  destruct z as [ | p | p]; [reflexivity | | lia].
  cbn [Z.to_int] in *. cbn [NilZero.string_of_int Z.of_int] in *.
  unfold NilZero.string_of_uint.
  destruct (Pos.to_uint p) as [ | | | | | | | | | | ] eqn:Hp;
    [discriminate Hback | .. ]; rewrite parseInt_of_uint; exact Hback.
Qed.

Lemma parseInt_zeros (n : nat) (s : string) : SD.parseInt (SD.zeros n +:+ s) = SD.parseInt s.
Proof.
  unfold SD.parseInt. rewrite list_ascii_append, fold_left_app.
  f_equal. induction n as [ | n IH]; [reflexivity | exact IH].
Qed.

Lemma parseInt_padStart (z : Z) (width : nat) :
  (0 <= z)%Z -> SD.parseInt (SD.padStart (Z_to_string z) width) = z.
Proof. intros Hz. unfold SD.padStart. now rewrite parseInt_zeros, parseInt_to_string. Qed.

Lemma parseInt_nonneg (s : string) : (0 <= SD.parseInt s)%Z.
Proof.
  unfold SD.parseInt.
  assert (H : forall l acc, (0 <= acc)%Z ->
                            (0 <= fold_left (fun acc c => 10 * acc + SD.digit_value c) l acc)%Z).
  { induction l as [ | c l IH]; intros acc Hacc; [exact Hacc | ].
    cbn [fold_left]. apply IH. unfold SD.digit_value. lia. }
  now apply H.
Qed.

Lemma length_zeros (n : nat) : String.length (SD.zeros n) = n.
Proof. induction n as [ | n IH]; [reflexivity | cbn; now f_equal]. Qed.

Lemma length_padStart (s : string) (width : nat) :
  String.length (SD.padStart s width) = Nat.max width (String.length s).
Proof. unfold SD.padStart. rewrite length_append, length_zeros. lia. Qed.

(** *** Keys and the pairs of base and extension *)

Lemma includes_underscore_middle (a b : string) :
  SD.includes_underscore (a +:+ "_" +:+ b) = true.
Proof.
  rewrite !includes_underscore_append. apply orb_true_iff. right. reflexivity.
Qed.

Lemma key_split_unique (x : string) :
  forall x' e e',
    x +:+ "_" +:+ e = x' +:+ "_" +:+ e' ->
    SD.includes_underscore e = false -> SD.includes_underscore e' = false ->
    x = x' /\ e = e'.
Proof.
  induction x as [ | c x IH]; intros [ | c' x'] e e' Heq He He'.
  - change (String "_" e = String "_" e') in Heq. injection Heq as ->. auto.
  - change (String "_" e = String c' (x' +:+ "_" +:+ e')) in Heq.
    injection Heq as _ ->. now rewrite includes_underscore_middle in He.
  - change (String c (x +:+ "_" +:+ e) = String "_" e') in Heq.
    injection Heq as _ <-. now rewrite includes_underscore_middle in He'.
  - change (String c (x +:+ "_" +:+ e) = String c' (x' +:+ "_" +:+ e')) in Heq.
    injection Heq as -> Heq. destruct (IH x' e e' Heq He He') as [-> ->]. auto.
Qed.

End Names.

Lemma all_digits_uint (d : string) :
  all_digits d = true -> exists u, NilEmpty.uint_of_string d = Some u.
Proof.
  induction d as [ | c d IH]; [exists Nil; reflexivity | ].
  cbn [all_digits]. intros H. apply andb_prop in H as [Hc Hd].
  destruct (IH Hd) as (u & Hu). cbn [NilEmpty.uint_of_string]. rewrite Hu.
  destruct c as [[] [] [] [] [] [] [] []]; try discriminate Hc; eexists; reflexivity.
Qed.

(** [parseInt] returns the number the digits denote. *)
Lemma parseInt_decimal_value (d : string) :
  all_digits d = true -> decimal_value d = Some (SD.parseInt d).
Proof.
  intros Hd. destruct (all_digits_uint d Hd) as (u & Hu).
  unfold decimal_value. rewrite Hu. cbn [option_map]. f_equal.
  apply NilEmpty.sus in Hu. rewrite <- Hu. symmetry. apply parseInt_of_uint.
Qed.

Lemma all_digits_append (a b : string) :
  all_digits a = true -> all_digits b = true -> all_digits (a +:+ b) = true.
Proof.
  intros Ha Hb. induction a as [ | c a IH]; [exact Hb | ].
  cbn [all_digits] in Ha. apply andb_prop in Ha as [Hc Ha].
  change (String c a +:+ b) with (String c (a +:+ b)).
  cbn [all_digits]. now rewrite Hc, IH.
Qed.

Lemma all_digits_zeros (n : nat) : all_digits (SD.zeros n) = true.
Proof. induction n as [ | n IH]; [reflexivity | exact IH]. Qed.

Lemma Z_to_string_digits (z : Z) : (0 <= z)%Z -> all_digits (Z_to_string z) = true.
Proof.
  intros Hz. unfold Z_to_string. destruct z as [ | p | p]; [reflexivity | | lia].
  cbn [Z.to_int NilZero.string_of_int]. unfold NilZero.string_of_uint.
  destruct (Pos.to_uint p); try reflexivity; apply string_of_uint_digits.
Qed.

(** A frame number printed and padded denotes that number. *)
Lemma decimal_value_padStart (z : Z) (width : nat) :
  (0 <= z)%Z -> decimal_value (SD.padStart (Z_to_string z) width) = Some z.
Proof.
  intros Hz. rewrite parseInt_decimal_value.
  - now rewrite parseInt_padStart.
  - unfold SD.padStart. apply all_digits_append; [apply all_digits_zeros | ].
    now apply Z_to_string_digits.
Qed.



Lemma extractFrameInfo_number_nonneg (filename : string) (info : SD.FrameInfo) :
  SD.extractFrameInfo filename = Some info -> (0 <= SD.number info)%Z.
Proof.
  unfold SD.extractFrameInfo.
  destruct (SD.regex_match filename) as [[[b d] e] | ]; [ | discriminate].
  intros [= <-]. apply parseInt_nonneg.
Qed.

Lemma frame_numbers_nonneg (files : list SD.File) (n : Z) :
  In n (frame_numbers (selected_group files)) -> (0 <= n)%Z.
Proof.
  intros Hn. apply in_map_iff in Hn as (item & <- & Hitem).
  destruct (selected_group_members files) as [Hnil | (key & Hkey)].
  - rewrite Hnil in Hitem. destruct Hitem.
  - destruct (Hkey item Hitem) as [[_ Hinfo] _].
    exact (extractFrameInfo_number_nonneg _ _ Hinfo).
Qed.

(** X7. The padding of a detected sequence is a padding met most often
    among the files of the selected group. *)
Theorem detectSequence_padding_mode (files : list SD.File) (sequence : SD.SequenceInfo) :
  SD.detectSequence files = Some sequence ->
  In (SD.seqPadding sequence) (paddings (selected_group files))
  /\ forall p,
      count_occ Nat.eq_dec (paddings (selected_group files)) p
      <= count_occ Nat.eq_dec (paddings (selected_group files)) (SD.seqPadding sequence).
Proof.
  intros Hdetect.
  destruct (detectSequence_fields files sequence Hdetect)
    as (first & rest & Hsort & _ & _ & _ & -> & _).
  pose proof (sort_items_perm (selected_group files)) as Hperm. rewrite Hsort in Hperm.
  assert (Hp : Permutation (paddings (first :: rest)) (paddings (selected_group files)))
    by (now apply Permutation_map).
  destruct (most_common_padding_mode (first :: rest)) as [Hin Hmax]; [discriminate | ].
  split.
  - now rewrite <- Hp.
  - intros p. pose proof (proj1 (Permutation_count_occ Nat.eq_dec _ _) Hp) as Hc.
    rewrite <- !Hc. apply Hmax.
Qed.

Lemma detectSequence_padding_mode_gapped :
  In (SD.seqPadding gapped_sequence) (paddings (selected_group gapped_files))
  /\ forall p,
      count_occ Nat.eq_dec (paddings (selected_group gapped_files)) p
      <= count_occ Nat.eq_dec (paddings (selected_group gapped_files))
                   (SD.seqPadding gapped_sequence).
Proof.
  apply (detectSequence_padding_mode gapped_files gapped_sequence). vm_compute. reflexivity.
Defined.

(** X8. For files whose frame numbers are below 2^32, the names of a
    detected sequence come from a file of the lowest frame number:
    [baseName] is the base of that file's name, without the underscore that
    separates it from the digits, and [pattern] is the file's base, the two
    frame numbers in braces, and its extension.  The two numbers printed in
    the pattern are strings of digits at least as wide as the padding, which
    denote [startFrame] and [endFrame]; these are not negative. *)
Theorem detectSequence_names (files : list SD.File) (sequence : SD.SequenceInfo) :
  safe_frames files = true ->
  SD.detectSequence files = Some sequence ->
  exists item sep d startStr endStr,
    In item (selected_group files)
    /\ SD.number (SD.info item) = SD.startFrame sequence
    /\ frame_name_shape (SD.name (SD.file item)) (SD.baseName sequence) sep d
                        (SD.extension (SD.info item))
    /\ SD.pattern sequence
       = SD.baseName sequence
         +:+ (if SD.includes_underscore (SD.name (SD.file item)) then "_" else EmptyString)
         +:+ "{" +:+ startStr +:+ "-" +:+ endStr +:+ "}." +:+ SD.extension (SD.info item)
    /\ decimal_value startStr = Some (SD.startFrame sequence)
    /\ decimal_value endStr = Some (SD.endFrame sequence)
    /\ SD.seqPadding sequence <= String.length startStr
    /\ SD.seqPadding sequence <= String.length endStr
    /\ (0 <= SD.startFrame sequence <= SD.endFrame sequence)%Z.
Proof.
  intros _ Hdetect.
  destruct (detectSequence_fields files sequence Hdetect)
    as (first & rest & Hsort & Hbase & Hpattern & Hstart & _ & _).
  destruct (detectSequence_output_general files sequence Hdetect)
    as (_ & _ & Hs & He & Hbounds & _).
  pose proof (frame_numbers_nonneg files _ Hs) as Hs0.
  pose proof (frame_numbers_nonneg files _ He) as He0.
  assert (Hfirst : In first (selected_group files)).
  { rewrite <- (sort_items_perm (selected_group files)), Hsort. now left. }
  destruct (selected_group_members files) as [Hnil | (key & Hkey)];
    [rewrite Hnil in Hfirst; destruct Hfirst | ].
  destruct (Hkey first Hfirst) as [[_ Hinfo] _].
  unfold SD.extractFrameInfo in Hinfo.
  destruct (SD.regex_match (SD.name (SD.file first))) as [[[b d] e] | ] eqn:Hmatch;
    [ | discriminate].
  destruct (regex_match_shape _ _ _ _ Hmatch) as (sep & Hshape & _).
  assert (Hb : SD.baseName sequence = b).
  { rewrite Hbase. injection Hinfo as <-. cbn [SD.base]. exact (strip_base _ _ _ _ _ Hshape). }
  assert (Hfb : SD.base (SD.info first)
                = b +:+ (if SD.includes_underscore (SD.name (SD.file first))
                         then "_" else EmptyString))
    by (injection Hinfo as <-; reflexivity).
  assert (Hfe : SD.extension (SD.info first) = e) by (injection Hinfo as <-; reflexivity).
  exists first, sep, d,
    (SD.padStart (Z_to_string (SD.startFrame sequence)) (SD.seqPadding sequence)),
    (SD.padStart (Z_to_string (SD.endFrame sequence)) (SD.seqPadding sequence)).
  split; [exact Hfirst | ]. split; [now symmetry | ].
  split; [rewrite Hb, Hfe; exact Hshape | ].
  split; [rewrite Hpattern, Hfb, Hb, !append_assoc3; reflexivity | ].
  split; [now apply decimal_value_padStart | ].
  split; [now apply decimal_value_padStart | ].
  rewrite !length_padStart. split; [lia | ]. split; [lia | ].
  specialize (Hbounds _ Hs). lia.
Qed.

Lemma detectSequence_names_gapped :
  exists item sep d startStr endStr,
    In item (selected_group gapped_files)
    /\ SD.number (SD.info item) = SD.startFrame gapped_sequence
    /\ frame_name_shape (SD.name (SD.file item)) (SD.baseName gapped_sequence) sep d
                        (SD.extension (SD.info item))
    /\ SD.pattern gapped_sequence
       = SD.baseName gapped_sequence
         +:+ (if SD.includes_underscore (SD.name (SD.file item)) then "_" else EmptyString)
         +:+ "{" +:+ startStr +:+ "-" +:+ endStr +:+ "}." +:+ SD.extension (SD.info item)
    /\ decimal_value startStr = Some (SD.startFrame gapped_sequence)
    /\ decimal_value endStr = Some (SD.endFrame gapped_sequence)
    /\ SD.seqPadding gapped_sequence <= String.length startStr
    /\ SD.seqPadding gapped_sequence <= String.length endStr
    /\ (0 <= SD.startFrame gapped_sequence <= SD.endFrame gapped_sequence)%Z.
Proof.
  apply (detectSequence_names gapped_files gapped_sequence); vm_compute; reflexivity.
Defined.

(** X9. The key of a group stands for one pair of base and extension as
    long as the extensions hold no underscore: two infos with the same key
    and such extensions have the same base and the same extension.  With an
    underscore in an extension two pairs can share a key: a_1.b__c and
    a__b_2.c fall into one group and are detected as one sequence. *)
Theorem group_key_pairs :
  (forall i j : SD.FrameInfo,
      SD.group_key i = SD.group_key j ->
      SD.includes_underscore (SD.extension i) = false ->
      SD.includes_underscore (SD.extension j) = false ->
      SD.base i = SD.base j /\ SD.extension i = SD.extension j)
  /\ (exists i j,
         SD.extractFrameInfo "a_1.b__c" = Some i
         /\ SD.extractFrameInfo "a__b_2.c" = Some j
         /\ SD.group_key i = SD.group_key j
         /\ SD.extension i <> SD.extension j
         /\ SD.detectSequence [mock_file "a_1.b__c"; mock_file "a__b_2.c"] <> None).
Proof.
  split.
  - intros i j Hkey Hi Hj. unfold SD.group_key in Hkey.
    exact (key_split_unique _ _ _ _ Hkey Hi Hj).
  - eexists _, _. split; [vm_compute; reflexivity | ]. split; [vm_compute; reflexivity | ].
    split; [vm_compute; reflexivity | ]. split; [discriminate | ].
    vm_compute. discriminate.
Qed.

(** X25. For files whose frame numbers are below 2^32, the files of a
    detected sequence are those of the selected group sorted by frame
    number, and the sort is stable: files with the same frame number come in
    the order they were given. *)
Theorem detectSequence_files_stable (files : list SD.File) (sequence : SD.SequenceInfo) :
  safe_frames files = true ->
  SD.detectSequence files = Some sequence ->
  exists sorted,
    SD.files sequence = map SD.file sorted
    /\ StronglySorted frame_le sorted
    /\ Permutation sorted (selected_group files)
    /\ forall n, List.filter (same_number n) sorted
                 = List.filter (same_number n) (selected_group files).
Proof.
  intros _ Hdetect.
  destruct (detectSequence_fields files sequence Hdetect)
    as (first & rest & Hsort & _ & _ & _ & _ & Hfiles).
  exists (first :: rest). split; [exact Hfiles | ]. rewrite <- Hsort.
  split; [apply sort_items_sorted | ]. split; [apply sort_items_perm | ].
  intros n. apply sort_items_stable.
Qed.

Lemma detectSequence_files_stable_gapped :
  exists sorted,
    SD.files gapped_sequence = map SD.file sorted
    /\ StronglySorted frame_le sorted
    /\ Permutation sorted (selected_group gapped_files)
    /\ forall n, List.filter (same_number n) sorted
                 = List.filter (same_number n) (selected_group gapped_files).
Proof.
  apply (detectSequence_files_stable gapped_files gapped_sequence); vm_compute; reflexivity.
Defined.

Lemma group_key_pairs_coin :
  SD.base {| SD.base := "coin_"; SD.number := 1; SD.padding := 2; SD.extension := "png" |}
  = SD.base {| SD.base := "coin_"; SD.number := 2; SD.padding := 3; SD.extension := "png" |}
  /\ SD.extension {| SD.base := "coin_"; SD.number := 1; SD.padding := 2;
                     SD.extension := "png" |}
     = SD.extension {| SD.base := "coin_"; SD.number := 2; SD.padding := 3;
                       SD.extension := "png" |}.
Proof.
  apply (proj1 group_key_pairs
           {| SD.base := "coin_"; SD.number := 1; SD.padding := 2; SD.extension := "png" |}
           {| SD.base := "coin_"; SD.number := 2; SD.padding := 3; SD.extension := "png" |});
    reflexivity.
Defined.

(** ** The group of a base and an extension *)

Section PairGroups.

Lemma same_pair_key (x y : SD.Item) :
  SD.includes_underscore (SD.extension (SD.info x)) = false ->
  SD.includes_underscore (SD.extension (SD.info y)) = false ->
  in_group (SD.group_key (SD.info y)) x
  = same_pair (SD.base (SD.info y)) (SD.extension (SD.info y)) x.
Proof.
  intros Hx Hy. unfold in_group, same_pair, SD.group_key.
  destruct (String.eqb_spec (SD.base (SD.info x) +:+ "_" +:+ SD.extension (SD.info x))
                            (SD.base (SD.info y) +:+ "_" +:+ SD.extension (SD.info y)))
    as [Hkey | Hkey].
  - destruct (key_split_unique _ _ _ _ Hkey Hx Hy) as [-> ->].
    now rewrite !String.eqb_refl.
  - destruct (String.eqb_spec (SD.base (SD.info x)) (SD.base (SD.info y))) as [Hb | ];
      [ | reflexivity].
    destruct (String.eqb_spec (SD.extension (SD.info x)) (SD.extension (SD.info y)))
      as [He | ]; [ | reflexivity].
    rewrite Hb, He in Hkey. congruence.
Qed.

Lemma plain_extensions_In (files : list SD.File) (x : SD.Item) :
  plain_extensions files = true -> In x (SD.frameInfos files) ->
  SD.includes_underscore (SD.extension (SD.info x)) = false.
Proof.
  unfold plain_extensions. rewrite forallb_forall. intros Hall Hx.
  apply negb_true_iff. now apply Hall.
Qed.

(** With plain extensions, the items under the key of a candidate are the
    group of its base and extension. *)
Lemma key_group_pair_group (files : list SD.File) (y : SD.Item) :
  plain_extensions files = true -> In y (SD.frameInfos files) ->
  List.filter (in_group (SD.group_key (SD.info y))) (SD.frameInfos files)
  = pair_group (SD.base (SD.info y)) (SD.extension (SD.info y)) files.
Proof.
  intros Hplain Hy. unfold pair_group. apply filter_ext_in. intros x Hx.
  apply same_pair_key; now apply (plain_extensions_In files).
Qed.

Lemma same_pair_eq (b e : string) (x : SD.Item) :
  same_pair b e x = true -> SD.base (SD.info x) = b /\ SD.extension (SD.info x) = e.
Proof.
  unfold same_pair. intros H. apply andb_prop in H as [Hb He].
  now apply String.eqb_eq in Hb, He.
Qed.

(** With plain extensions, the group [detectSequence] selects is the first
    largest group of a base and an extension. *)
Lemma selected_pair_group (files : list SD.File) :
  plain_extensions files = true ->
  SD.frameInfos files <> [] ->
  exists b e, selected_group files = pair_group b e files /\ first_largest b e files.
Proof.
  intros Hplain Hitems.
  destruct (largest_group_spec (SD.frameInfos files) Hitems)
    as (key & before & first & after & Hsplit & Hfirst & Hbefore & Hsel & Hmax & Hless).
  assert (Hin : In first (SD.frameInfos files))
    by (rewrite Hsplit; apply in_or_app; right; now left).
  assert (Hkey : key = SD.group_key (SD.info first)).
  { unfold in_group in Hfirst. now apply String.eqb_eq in Hfirst. }
  subst key. rewrite (key_group_pair_group files first Hplain Hin) in *.
  exists (SD.base (SD.info first)), (SD.extension (SD.info first)).
  split; [exact Hsel | ]. split.
  - intros b' e'.
    destruct (pair_group b' e' files) as [ | y ys] eqn:Hgroup; [cbn; lia | ].
    assert (Hy : In y (pair_group b' e' files)) by (rewrite Hgroup; now left).
    unfold pair_group in Hy. apply filter_In in Hy as [Hy Hpair].
    apply same_pair_eq in Hpair as [<- <-].
    rewrite <- Hgroup, <- (key_group_pair_group files y Hplain Hy). apply Hmax.
  - exists before, first, after. split; [exact Hsplit | ]. split.
    + unfold same_pair. now rewrite !String.eqb_refl.
    + intros x Hx.
      assert (Hx' : In x (SD.frameInfos files))
        by (rewrite Hsplit; apply in_or_app; now left).
      rewrite <- (key_group_pair_group files x Hplain Hx'). now apply Hless.
Qed.

Lemma collision_groups (b e : string) : length (pair_group b e collision_files) <= 1.
Proof.
  unfold pair_group.
  assert (Hitems : SD.frameInfos collision_files
                   = [ {| SD.file := mock_file "a_1.b__c";
                          SD.info := {| SD.base := "a_"; SD.number := 1;
                                        SD.padding := 1; SD.extension := "b__c" |} |};
                       {| SD.file := mock_file "a__b_2.c";
                          SD.info := {| SD.base := "a__b_"; SD.number := 2;
                                        SD.padding := 1; SD.extension := "c" |} |} ])
    by (vm_compute; reflexivity).
  rewrite Hitems. unfold same_pair. cbn [List.filter SD.info SD.base SD.extension].
  destruct (String.eqb_spec "b__c" e) as [<- | _].
  - change (String.eqb "c" "b__c") with false. rewrite andb_false_r.
    destruct (String.eqb "a_" b); cbn; lia.
  - rewrite andb_false_r. destruct (String.eqb "a__b_" b && String.eqb "c" e); cbn; lia.
Qed.

End PairGroups.

(** C9. For files whose frame numbers are below 2^32 and whose extensions
    hold no underscore, [detectSequence] succeeds exactly when a group of
    files of one base and one extension has at least two members.  It then
    works on the first largest such group: the files returned are those of
    the group sorted by frame number, ascending; [startFrame] and [endFrame]
    are the least and the greatest frame number of the group, and [gaps]
    lists, in ascending order, exactly the integers strictly between them
    that are no frame number of the group.  In particular the files
    coin_000.png, coin_001.png, coin_002.png are detected as base name
    coin, frames 0 to 2, padding 3, pattern coin_{000-002}.png, no gap.

    With an underscore in an extension the program leaves the groups of
    base and extension: a_1.b__c and a__b_2.c differ in both, no group has
    two members, and the two files are detected as one sequence. *)
Theorem detectSequence_output :
  (forall files : list SD.File,
      safe_frames files = true ->
      plain_extensions files = true ->
      (SD.detectSequence files <> None
       <-> exists b e, 2 <= length (pair_group b e files))
      /\ forall sequence : SD.SequenceInfo,
          SD.detectSequence files = Some sequence ->
          exists b e,
            first_largest b e files
            /\ 2 <= length (pair_group b e files)
            /\ (forall item,
                   In item (pair_group b e files) ->
                   In (SD.file item) files
                   /\ SD.extractFrameInfo (SD.name (SD.file item)) = Some (SD.info item)
                   /\ SD.base (SD.info item) = b
                   /\ SD.extension (SD.info item) = e)
            /\ (exists sorted,
                   Permutation sorted (pair_group b e files)
                   /\ StronglySorted frame_le sorted
                   /\ SD.files sequence = map SD.file sorted)
            /\ In (SD.startFrame sequence) (frame_numbers (pair_group b e files))
            /\ In (SD.endFrame sequence) (frame_numbers (pair_group b e files))
            /\ (forall n, In n (frame_numbers (pair_group b e files)) ->
                          (SD.startFrame sequence <= n <= SD.endFrame sequence)%Z)
            /\ (forall z, In z (SD.gaps sequence)
                          <-> (SD.startFrame sequence < z < SD.endFrame sequence)%Z
                              /\ ~ In z (frame_numbers (pair_group b e files)))
            /\ StronglySorted Z.lt (SD.gaps sequence))
  /\ SD.detectSequence coin_files = Some coin_sequence
  /\ (SD.detectSequence collision_files = Some collision_sequence
      /\ forall b e, length (pair_group b e collision_files) <= 1).
Proof.
  split; [ | split; [vm_compute; reflexivity | ]];
    [ | split; [vm_compute; reflexivity | exact collision_groups]].
  intros files _ Hplain. split.
  - rewrite detectSequence_succeeds. split.
    + intros Hlen.
      destruct (selected_pair_group files Hplain) as (b & e & Hsel & _).
      { intros Hnil. rewrite (frameInfos_nil files Hnil) in Hlen. cbn in Hlen. lia. }
      exists b, e. now rewrite <- Hsel.
    + intros (b & e & Hlen).
      destruct (selected_pair_group files Hplain) as (b0 & e0 & Hsel & Hmax & _).
      { intros Hnil. unfold pair_group in Hlen. rewrite Hnil in Hlen. cbn in Hlen. lia. }
      rewrite Hsel. specialize (Hmax b e). lia.
  - intros sequence Hdetect.
    assert (Hlen : 2 <= length (selected_group files))
      by (apply detectSequence_succeeds; congruence).
    destruct (selected_pair_group files Hplain) as (b & e & Hsel & Hfirst).
    { intros Hnil. rewrite (frameInfos_nil files Hnil) in Hlen. cbn in Hlen. lia. }
    destruct (detectSequence_output_general files sequence Hdetect)
      as (_ & Hsorted & Hstart & Hend & Hbounds & Hgaps & Hinc).
    rewrite Hsel in *. exists b, e.
    split; [exact Hfirst | ]. split; [exact Hlen | ]. split.
    { intros item Hitem. unfold pair_group in Hitem.
      apply filter_In in Hitem as [Hitem Hpair].
      destruct (In_frameInfos files item Hitem) as [Hfile Hinfo].
      destruct (same_pair_eq b e item Hpair) as [Hb He]. auto. }
    auto 10.
Qed.

(** The general statement at the gapped upload among other files. *)
Lemma detectSequence_output_mixed :
  safe_frames mixed_files = true
  /\ plain_extensions mixed_files = true
  /\ (SD.detectSequence mixed_files <> None
      <-> exists b e, 2 <= length (pair_group b e mixed_files))
  /\ forall sequence : SD.SequenceInfo,
      SD.detectSequence mixed_files = Some sequence ->
      exists b e,
        first_largest b e mixed_files
        /\ 2 <= length (pair_group b e mixed_files)
        /\ (forall item,
               In item (pair_group b e mixed_files) ->
               In (SD.file item) mixed_files
               /\ SD.extractFrameInfo (SD.name (SD.file item)) = Some (SD.info item)
               /\ SD.base (SD.info item) = b
               /\ SD.extension (SD.info item) = e)
        /\ (exists sorted,
               Permutation sorted (pair_group b e mixed_files)
               /\ StronglySorted frame_le sorted
               /\ SD.files sequence = map SD.file sorted)
        /\ In (SD.startFrame sequence) (frame_numbers (pair_group b e mixed_files))
        /\ In (SD.endFrame sequence) (frame_numbers (pair_group b e mixed_files))
        /\ (forall n, In n (frame_numbers (pair_group b e mixed_files)) ->
                      (SD.startFrame sequence <= n <= SD.endFrame sequence)%Z)
        /\ (forall z, In z (SD.gaps sequence)
                      <-> (SD.startFrame sequence < z < SD.endFrame sequence)%Z
                          /\ ~ In z (frame_numbers (pair_group b e mixed_files)))
        /\ StronglySorted Z.lt (SD.gaps sequence).
Proof.
  split; [vm_compute; reflexivity | ]. split; [vm_compute; reflexivity | ].
  apply (proj1 detectSequence_output mixed_files); vm_compute; reflexivity.
Defined.

(** ** The verdict of the validator *)

Section Rules.

Lemma app_nil_iff {A : Type} (l1 l2 : list A) : l1 ++ l2 = [] <-> l1 = [] /\ l2 = [].
Proof.
  split; [apply app_eq_nil | intros [-> ->]; reflexivity].
Qed.

Lemma when_nil (b : bool) (msg : string) : when b msg = [] <-> b = false.
Proof. destruct b; cbn; split; congruence. Qed.

Lemma emitterErrors_nil (index : nat) (e : JValue) :
  emitterErrors index e = [] <-> emitter_passes e = true.
Proof.
  unfold emitterErrors, emitter_passes.
  rewrite !app_nil_iff, !when_nil, !andb_true_iff.
  assert (Hburst :
            (if is_str (get e "type") "burst"
             then when (negb (JsType_eqb (typeof (get e "burstCount")) TNumber)
                        || num_ltb (get e "burstCount") 1) (msg_burstCount index)
             else []) = []
            <-> negb (is_str (get e "type") "burst")
                || JsType_eqb (typeof (get e "burstCount")) TNumber
                   && negb (num_ltb (get e "burstCount") 1) = true).
  { destruct (is_str (get e "type") "burst"); [rewrite when_nil | ];
      destruct (JsType_eqb (typeof (get e "burstCount")) TNumber),
        (num_ltb (get e "burstCount") 1); cbn; split; congruence. }
  assert (Hparticle :
            (if negb (truthy (get e "particle"))
             then [msg_missing_particle index]
             else when (negb (truthy (get (get e "particle") "type")))
                       (msg_missing_particle_type index)
                  ++ when (negb (truthy (get (get e "particle") "lifetime")))
                          (msg_missing_lifetime index)) = []
            <-> (truthy (get e "particle") = true
                 /\ truthy (get (get e "particle") "type") = true)
                /\ truthy (get (get e "particle") "lifetime") = true).
  { destruct (truthy (get e "particle")); cbn [negb]; [ | split; [discriminate | intuition discriminate]].
    rewrite app_nil_iff, !when_nil, !negb_false_iff. tauto. }
  rewrite Hburst, Hparticle.
  rewrite negb_false_iff.
  assert (Hpos : negb (truthy (get e "position"))
                 || negb (JsType_eqb (typeof (get (get e "position") "x")) TNumber)
                 || negb (JsType_eqb (typeof (get (get e "position") "y")) TNumber) = false
                 <-> (truthy (get e "position") = true
                      /\ JsType_eqb (typeof (get (get e "position") "x")) TNumber = true)
                     /\ JsType_eqb (typeof (get (get e "position") "y")) TNumber = true).
  { destruct (truthy (get e "position")),
      (JsType_eqb (typeof (get (get e "position") "x")) TNumber),
      (JsType_eqb (typeof (get (get e "position") "y")) TNumber);
      cbn; intuition congruence. }
  assert (Hrate : negb (is_str (get e "type") "burst")
                  && negb (is_str (get e "type") "triggered")
                  && (negb (JsType_eqb (typeof (get e "emissionRate")) TNumber)
                      || num_ltb (get e "emissionRate") 0) = false
                  <-> is_str (get e "type") "burst" || is_str (get e "type") "triggered"
                      || JsType_eqb (typeof (get e "emissionRate")) TNumber
                         && negb (num_ltb (get e "emissionRate") 0) = true).
  { destruct (is_str (get e "type") "burst"), (is_str (get e "type") "triggered"),
      (JsType_eqb (typeof (get e "emissionRate")) TNumber), (num_ltb (get e "emissionRate") 0);
      cbn; intuition congruence. }
  rewrite Hpos, Hrate. tauto.
Qed.

Lemma emitter_passes_not_nullish (e : JValue) : emitter_passes e = true -> nullish e = false.
Proof. destruct e; try reflexivity; discriminate. Qed.

Lemma forEachEmitter_none (es : list JValue) :
  forall index, forEachEmitter index es = None <-> existsb nullish es = true.
Proof.
  induction es as [ | e es IH]; intros index; cbn [forEachEmitter existsb].
  - split; discriminate.
  - destruct (nullish e); [split; reflexivity | ]. rewrite orb_false_l, <- (IH (S index)).
    destruct (forEachEmitter (S index) es); split; congruence.
Qed.

Lemma forEachEmitter_nil (es : list JValue) :
  forall index,
    forEachEmitter index es = Some [] <-> forallb emitter_passes es = true.
Proof.
  induction es as [ | e es IH]; intros index; cbn [forEachEmitter forallb].
  - split; reflexivity.
  - rewrite andb_true_iff, <- (IH (S index)), <- (emitterErrors_nil index). split.
    + destruct (nullish e); [discriminate | ].
      destruct (forEachEmitter (S index) es) as [errs | ]; [ | discriminate].
      intros [= H]. apply app_eq_nil in H as [-> ->]. auto.
    + intros [He Hes]. rewrite Hes, He.
      assert (Hn : nullish e = false).
      { apply emitter_passes_not_nullish. now apply (emitterErrors_nil index). }
      now rewrite Hn.
Qed.

(** Every message about an emitter starts with its label. *)
Lemma In_emitterErrors_cases (m : string) (j : nat) (e : JValue) :
  In m (emitterErrors j e) <->
  (truthy (get e "type") = false /\ msg_missing_type j = m)
  \/ (negb (truthy (get e "position"))
      || negb (JsType_eqb (typeof (get (get e "position") "x")) TNumber)
      || negb (JsType_eqb (typeof (get (get e "position") "y")) TNumber) = true
      /\ msg_invalid_position j = m)
  \/ (negb (is_str (get e "type") "burst") && negb (is_str (get e "type") "triggered")
      && (negb (JsType_eqb (typeof (get e "emissionRate")) TNumber)
          || num_ltb (get e "emissionRate") 0) = true
      /\ msg_invalid_emissionRate j = m)
  \/ (is_str (get e "type") "burst"
      && (negb (JsType_eqb (typeof (get e "burstCount")) TNumber)
          || num_ltb (get e "burstCount") 1) = true
      /\ msg_burstCount j = m)
  \/ (truthy (get e "particle") = false /\ msg_missing_particle j = m)
  \/ (truthy (get e "particle") = true
      /\ truthy (get (get e "particle") "type") = false
      /\ msg_missing_particle_type j = m)
  \/ (truthy (get e "particle") = true
      /\ truthy (get (get e "particle") "lifetime") = false
      /\ msg_missing_lifetime j = m).
Proof.
  unfold emitterErrors. rewrite !in_app_iff, !In_when, negb_true_iff.
  destruct (is_str (get e "type") "burst"); cbn [andb];
    destruct (truthy (get e "particle")); cbn [negb In];
    rewrite ?in_app_iff, ?In_when, ?negb_true_iff; intuition congruence.
Qed.

Lemma emitterErrors_labelled (m : string) (j : nat) (e : JValue) :
  In m (emitterErrors j e) -> exists r, m = emitter_label j +:+ String ":" r.
Proof.
  rewrite In_emitterErrors_cases.
  intros [[_ <-] | [[_ <-] | [[_ <-] | [[_ <-] | [[_ <-] | [(_ & _ & <-) | (_ & _ & <-)]]]]]];
    eexists; reflexivity.
Qed.

(** The errors of a result about the emitter at [index] are those the
    rules give for it. *)
Lemma In_errors_emitter (config : EditorConfig) (es : list JValue) (result : Validation)
      (index : nat) (emitter : JValue) (r : string) :
  emitters config = JArr es ->
  validateEditorConfig config = Some result ->
  es !! index = Some emitter ->
  In (emitter_label index +:+ String ":" r) (errors result)
  <-> In (emitter_label index +:+ String ":" r) (emitterErrors index emitter).
Proof.
  intros Hes Hvalid Hidx. unfold validateEditorConfig in Hvalid. rewrite Hes in Hvalid.
  assert (Hne : Nat.eqb (length es) 0 = false).
  { destruct es; [discriminate Hidx | reflexivity]. }
  rewrite Hne in Hvalid.
  destruct (forEachEmitter 0 es) as [errs | ] eqn:Herrs; [ | discriminate].
  injection Hvalid as <-. cbn [errors].
  rewrite in_app_iff, (In_forEachEmitter es 0 errs _ Herrs). cbn [Nat.add]. split.
  - intros [H | (n & e & Hn & H)]; [now apply systemErrors_not_emitter in H | ].
    destruct (emitterErrors_labelled _ _ _ H) as (r' & Heq).
    apply emitter_message_inj in Heq as [-> _].
    rewrite Hidx in Hn. now injection Hn as <-.
  - intros H. right. now exists index, emitter.
Qed.

Lemma errors_not_labelled (config : EditorConfig) (result : Validation) (m : string) :
  validateEditorConfig config = Some result ->
  In m (errors result) ->
  In m (systemErrors config)
  \/ m = "Emitters must be an array"
  \/ exists n r, m = emitter_label n +:+ String ":" r.
Proof.
  unfold validateEditorConfig.
  destruct (emitters config) as [ | | ? | ? | ? | es | ?];
    try (intros [= <-]; cbn [errors]; rewrite in_app_iff; intros [H | [<- | []]]; auto).
  destruct (Nat.eqb (length es) 0).
  - intros [= <-]. cbn [errors]. rewrite in_app_iff. intros [H | []]. auto.
  - destruct (forEachEmitter 0 es) as [errs | ] eqn:Herrs; [ | discriminate].
    intros [= <-]. cbn [errors].
    rewrite in_app_iff, (In_forEachEmitter es 0 errs _ Herrs).
    intros [H | (n & e & _ & H)]; [auto | ].
    right; right. exists (0 + n). now apply emitterErrors_labelled in H.
Qed.

Lemma valid_passes (config : EditorConfig) :
  validateEditorConfig config = Some {| valid := true; errors := [] |}
  <-> system_in_range config = true
      /\ exists es, emitters config = JArr es /\ forallb emitter_passes es = true.
Proof.
  assert (Hsys : systemErrors config = [] <-> system_in_range config = true).
  { unfold systemErrors, system_in_range. destruct (system config) as [s | ].
    - rewrite when_nil. destruct (PrimFloat.ltb _ _), (PrimFloat.ltb _ _); cbn; split; congruence.
    - split; discriminate. }
  rewrite <- Hsys. unfold validateEditorConfig. split.
  - intros H.
    destruct (emitters config) as [ | | ? | ? | ? | es | ?];
      try (injection H as _ H; apply app_eq_nil in H as [_ H]; discriminate H).
    destruct (Nat.eqb_spec (length es) 0) as [Hlen | _].
    + injection H as _ H. apply app_eq_nil in H as [H _].
      split; [exact H | ]. exists es. apply length_zero_iff_nil in Hlen. now subst.
    + destruct (forEachEmitter 0 es) as [errs | ] eqn:Herrs; [ | discriminate].
      injection H as _ H. apply app_eq_nil in H as [H ->].
      split; [exact H | ]. exists es. split; [reflexivity | ].
      now apply (forEachEmitter_nil es 0).
  - intros (Hs & es & -> & Hes). rewrite Hs.
    apply (forEachEmitter_nil es 0) in Hes.
    destruct (Nat.eqb (length es) 0); [reflexivity | ]. now rewrite Hes.
Qed.

End Rules.

(** X10. [validateEditorConfig] throws exactly when [emitters] is an
    array one of whose entries is [null] or [undefined]; in every other case
    it returns a result. *)
Theorem validateEditorConfig_throws_iff (config : EditorConfig) :
  validateEditorConfig config = None
  <-> exists es, emitters config = JArr es /\ existsb nullish es = true.
Proof.
  unfold validateEditorConfig. split.
  - destruct (emitters config) as [ | | ? | ? | ? | es | ?]; try discriminate.
    destruct es as [ | e es]; [discriminate | ]. cbn [length Nat.eqb].
    destruct (forEachEmitter 0 (e :: es)) as [errs | ] eqn:Herrs; [discriminate | ].
    intros _. exists (e :: es). split; [reflexivity | now apply (forEachEmitter_none _ 0)].
  - intros (es & -> & Hnull).
    destruct es as [ | e es]; [discriminate Hnull | ]. cbn [length Nat.eqb].
    apply (forEachEmitter_none _ 0) in Hnull. now rewrite Hnull.
Qed.

(** X11. [validateEditorConfig] finds a configuration valid exactly when
    it has a system section whose [maxParticles] is neither below 1 nor
    above 10000, its [emitters] is an array, and every emitter has a truthy
    type, a position with numbers for x and y, a rate that is a number not
    below 0 unless the type is burst or triggered, for the type burst a
    [burstCount] that is a number not below 1, and a particle with a truthy
    type and a truthy lifetime.  A valid result carries no error. *)
Theorem validateEditorConfig_valid_iff (config : EditorConfig) :
  (validateEditorConfig config = Some {| valid := true; errors := [] |}
   <-> system_in_range config = true
       /\ exists es, emitters config = JArr es /\ forallb emitter_passes es = true)
  /\ (forall result,
         validateEditorConfig config = Some result ->
         valid result = true -> errors result = []).
Proof.
  split; [apply valid_passes | ].
  unfold validateEditorConfig. intros result.
  destruct (match emitters config with
            | JArr es => if Nat.eqb (length es) 0 then Some [] else forEachEmitter 0 es
            | _ => Some ["Emitters must be an array"]
            end) as [errs | ]; [ | discriminate].
  intros [= <-]. cbn [valid errors]. intros H. apply Nat.eqb_eq in H.
  now apply length_zero_iff_nil.
Qed.

Lemma validateEditorConfig_valid_iff_tests :
  errors {| valid := true; errors := [] |} = [].
Proof.
  apply (proj2 (validateEditorConfig_valid_iff (config_of [burst_emitter]))
               {| valid := true; errors := [] |});
    vm_compute; reflexivity.
Defined.

(** ** Export, import and validation together *)

Section Exchange.

Variable Text : Type.
Variable load : Text -> string + JValue.
Variable dump : JValue -> Text.

Lemma lookup_indexed {A : Type} (f : A -> JValue) (k : string) (l : list A) :
  all_digits k = false -> lookup_prop k (indexed f l) = JUndefined.
Proof.
  intros Hk. unfold indexed.
  assert (H : forall start,
             lookup_prop k (imap (fun i a => (nat_to_string (start + i), f a)) l) = JUndefined).
  { induction l as [ | a l IH]; intros start; [reflexivity | ].
    cbn [imap lookup_prop].
    destruct (String.eqb_spec k (nat_to_string (start + 0))) as [-> | _].
    - unfold nat_to_string in Hk. now rewrite string_of_uint_digits in Hk.
    - rewrite <- (IH (S start)). f_equal. apply imap_ext. intros i x _. cbn.
      now rewrite Nat.add_succ_r. }
  exact (H 0).
Qed.

Lemma plain_data_indexed {A : Type} (f : A -> JValue) (l : list A) :
  (forall a, In a l -> plain_data (f a) = true) ->
  forallb (fun kv => plain_data (snd kv)) (indexed f l) = true.
Proof.
  intros Hall. unfold indexed.
  assert (H : forall g : nat -> string,
             forallb (fun kv => plain_data (snd kv)) (imap (fun i a => (g i, f a)) l) = true).
  { induction l as [ | a l IH]; intros g; [reflexivity | ].
    cbn [imap forallb snd]. rewrite (Hall a (or_introl eq_refl)). cbn [andb].
    apply (IH (fun a' Ha' => Hall a' (or_intror Ha')) (fun i => g (S i))). }
  exact (H nat_to_string).
Qed.

Lemma plain_data_respread (e : JValue) :
  plain_data e = true -> plain_data (JObj (spread e)) = true.
Proof.
  destruct e as [ | | b | n | s | l | ps]; try reflexivity; cbn [spread plain_data].
  - intros _. apply plain_data_indexed. reflexivity.
  - intros Hl. apply plain_data_indexed. intros a Ha.
    rewrite forallb_forall in Hl. now apply Hl.
  - auto.
Qed.

Lemma isEmitterConfig_respread (e : JValue) :
  isEmitterConfig (JObj (spread e)) = isEmitterConfig e.
Proof.
  destruct e as [ | | b | n | s | l | ps]; try reflexivity;
    unfold isEmitterConfig;
    cbn [spread isRecord typeof JsType_eqb is_null negb andb get];
    rewrite ?lookup_indexed by reflexivity; reflexivity.
Qed.

Lemma filter_respread (es : list JValue) :
  List.filter isEmitterConfig (map (fun emitter => JObj (spread emitter)) es)
  = List.filter isEmitterConfig es.
Proof.
  induction es as [ | e es IH]; [reflexivity | ].
  cbn [map List.filter]. rewrite isEmitterConfig_respread, IH.
  destruct (isEmitterConfig e) eqn:He; [ | reflexivity].
  destruct (isEmitterConfig_object e He) as [ps ->]. reflexivity.
Qed.

Lemma filter_all {A : Type} (p : A -> bool) (l : list A) :
  List.filter p l = l <-> forallb p l = true.
Proof.
  induction l as [ | x l IH]; cbn [List.filter forallb]; [tauto | ].
  destruct (p x) eqn:Hx; cbn [andb].
  - rewrite <- IH. split; [intros [= H]; exact H | intros ->; reflexivity].
  - split; [ | discriminate]. intros H.
    assert (Hlen : length (List.filter p l) = length (x :: l)) by (now rewrite H).
    pose proof (filter_length_le p l). cbn [length] in Hlen. lia.
Qed.

(** An emitter the validator accepts, whose two type tags are strings,
    passes the shape check of the import. *)
Lemma emitter_passes_shape (e : JValue) :
  emitter_passes e = true ->
  typeof (get e "type") = TString ->
  typeof (get (get e "particle") "type") = TString ->
  isEmitterConfig e = true.
Proof.
  unfold emitter_passes, isEmitterConfig. intros Hpass Hty Hpty.
  apply andb_prop in Hpass as [Hpass HQ]. apply andb_prop in Hpass as [Hpass HB].
  apply andb_prop in Hpass as [Hpass HR]. apply andb_prop in Hpass as [Ha HP].
  apply andb_prop in HP as [HP Hy]. apply andb_prop in HP as [Hpos Hx].
  apply andb_prop in HQ as [HQ _]. apply andb_prop in HQ as [Hpar _].
  assert (He : isRecord e = true).
  { destruct e; try discriminate Hty; reflexivity. }
  assert (Hposr : isRecord (get e "position") = true).
  { destruct (get e "position"); try discriminate Hx; try discriminate Hpos; reflexivity. }
  assert (Hparr : isRecord (get e "particle") = true).
  { destruct (get e "particle"); try discriminate Hpty; try discriminate Hpar; reflexivity. }
  rewrite He, Hposr, Hparr, Hty, Hpty, Hx, Hy. cbn [negb JsType_eqb andb orb].
  destruct (is_str (get e "type") "burst"), (is_str (get e "type") "triggered");
    cbn [negb andb orb] in *; try reflexivity.
  apply andb_prop in HR as [-> _]. reflexivity.
Qed.

(** What an imported emitter is known to have. *)
Lemma isEmitterConfig_fields (e : JValue) :
  isEmitterConfig e = true ->
  nullish e = false
  /\ (exists ty, get e "type" = JStr ty)
  /\ truthy (get e "position") = true
  /\ JsType_eqb (typeof (get (get e "position") "x")) TNumber = true
  /\ JsType_eqb (typeof (get (get e "position") "y")) TNumber = true
  /\ truthy (get e "particle") = true
  /\ (exists pty, get (get e "particle") "type" = JStr pty)
  /\ (is_str (get e "type") "burst" = false ->
      is_str (get e "type") "triggered" = false ->
      JsType_eqb (typeof (get e "emissionRate")) TNumber = true).
Proof.
  unfold isEmitterConfig.
  destruct (isRecord e) eqn:He; [ | discriminate]. cbn [negb].
  destruct (get e "type") as [ | | ? | ? | ty | ? | ?] eqn:Hty; try discriminate.
  cbn [typeof JsType_eqb negb].
  destruct (negb (is_str (JStr ty) "burst") && negb (is_str (JStr ty) "triggered")
            && negb (JsType_eqb (typeof (get e "emissionRate")) TNumber)) eqn:Hrate;
    [discriminate | ].
  destruct (isRecord (get e "position")) eqn:Hpos; [ | discriminate]. cbn [negb].
  destruct (JsType_eqb (typeof (get (get e "position") "x")) TNumber); [ | discriminate].
  destruct (JsType_eqb (typeof (get (get e "position") "y")) TNumber); [ | discriminate].
  cbn [negb orb]. intros H. apply andb_prop in H as [Hpar Hpty].
  split; [destruct e; try discriminate; reflexivity | ].
  split; [eauto | ].
  split; [destruct (get e "position"); try discriminate; reflexivity | ].
  split; [reflexivity | ]. split; [reflexivity | ].
  split; [destruct (get e "particle"); try discriminate; reflexivity | ].
  split.
  - destruct (get (get e "particle") "type"); try discriminate. eauto.
  - intros Hb Ht. rewrite Hb, Ht in Hrate. cbn [negb andb] in Hrate.
    now apply negb_false_iff in Hrate.
Qed.

Lemma label_not_system (n : nat) (r : string) :
  emitter_label n +:+ r <> "Missing system configuration".
Proof. unfold emitter_label. discriminate. Qed.

Lemma label_not_array (n : nat) (r : string) :
  emitter_label n +:+ r <> "Emitters must be an array".
Proof.
  unfold emitter_label. rewrite append_assoc3.
  change ("Emitter " +:+ nat_to_string n +:+ r)
    with (String "E" (String "m" (String "i" (String "t" (String "t" (String "e"
           (String "r" (String " " (nat_to_string n +:+ r))))))))).
  discriminate.
Qed.

(** X14. What validation says of a configuration the import returned:
    it never throws; it never reports a missing system section, emitters
    that are no array, an invalid position or a missing particle
    configuration; a type or a particle type is reported missing only when
    it is the empty string, and a rate is reported only when it is below
    zero. *)
Theorem import_then_validate (yaml : Text) (config : EditorConfig) :
  yamlToEditorConfig load yaml = inr config ->
  exists es result,
    emitters config = JArr es
    /\ validateEditorConfig config = Some result
    /\ ~ In "Missing system configuration" (errors result)
    /\ ~ In "Emitters must be an array" (errors result)
    /\ forall index emitter,
        es !! index = Some emitter ->
        ~ In (msg_invalid_position index) (errors result)
        /\ ~ In (msg_missing_particle index) (errors result)
        /\ (In (msg_missing_type index) (errors result)
            <-> get emitter "type" = JStr EmptyString)
        /\ (In (msg_missing_particle_type index) (errors result)
            <-> get (get emitter "particle") "type" = JStr EmptyString)
        /\ (In (msg_invalid_emissionRate index) (errors result)
            <-> rate_required emitter /\ num_ltb (get emitter "emissionRate") 0 = true).
Proof.
  intros Himport.
  assert (Hshape : exists es sys,
             config = {| system := Some sys; emitters := JArr es |}
             /\ Forall (fun e => isEmitterConfig e = true) es).
  { unfold yamlToEditorConfig in Himport.
    destruct (load yaml) as [msg | value]; [discriminate | ].
    injection Himport as <-. eexists _, _. split; [reflexivity | ].
    destruct (parsed_emitters (toParsedYamlConfig value)); try constructor.
    apply List.Forall_forall. intros e He. now apply filter_In in He. }
  destruct Hshape as (es & sys & -> & Hes).
  assert (Hnn : Forall (fun e => nullish e = false) es).
  { eapply List.Forall_impl; [ | exact Hes]. intros e He.
    now apply isEmitterConfig_fields in He. }
  destruct (validator_rules_general {| system := Some sys; emitters := JArr es |} es
              eq_refl Hnn) as (result & Hvalid & _).
  exists es, result. split; [reflexivity | ]. split; [exact Hvalid | ].
  assert (Hsys : forall m, In m (systemErrors {| system := Some sys; emitters := JArr es |}) ->
                           m = "maxParticles must be between 1 and 10000").
  { intros m Hm. unfold systemErrors in Hm. cbn [system] in Hm.
    apply In_when in Hm as [_ <-]. reflexivity. }
  split.
  { intros H. destruct (errors_not_labelled _ _ _ Hvalid H) as [Hm | [Hm | (n & r & Hm)]].
    - apply Hsys in Hm. discriminate Hm.
    - discriminate Hm.
    - symmetry in Hm. now apply label_not_system in Hm. }
  split.
  { intros H. destruct (errors_not_labelled _ _ _ Hvalid H) as [Hm | [Hm | (n & r & Hm)]].
    - apply Hsys in Hm. discriminate Hm.
    - clear - Hvalid H Hes. unfold validateEditorConfig in Hvalid. cbn [emitters] in Hvalid.
      destruct (Nat.eqb (length es) 0).
      + injection Hvalid as <-. cbn [errors] in H. rewrite app_nil_r in H.
        unfold systemErrors in H. cbn [system] in H.
        apply In_when in H as [_ H]. discriminate H.
      + destruct (forEachEmitter 0 es) as [errs | ] eqn:Herrs; [ | discriminate].
        injection Hvalid as <-. cbn [errors] in H. apply in_app_iff in H as [H | H].
        * unfold systemErrors in H. cbn [system] in H.
          apply In_when in H as [_ H]. discriminate H.
        * apply (In_forEachEmitter es 0 errs _ Herrs) in H as (n & e & _ & H).
          apply emitterErrors_labelled in H as (r & H). symmetry in H.
          now apply label_not_array in H.
    - symmetry in Hm. now apply label_not_array in Hm. }
  intros index emitter Hidx.
  assert (He : isEmitterConfig emitter = true).
  { rewrite List.Forall_forall in Hes. apply Hes. eapply list_elem_of_In, list_elem_of_lookup_2.
    exact Hidx. }
  destruct (isEmitterConfig_fields emitter He)
    as (_ & (ty & Hty) & Hpos & Hx & Hy & Hpar & (pty & Hpty) & Hrate).
  pose proof (fun r => In_errors_emitter {| system := Some sys; emitters := JArr es |}
                                         es result index emitter r eq_refl Hvalid Hidx) as Hin.
  unfold msg_invalid_position, msg_missing_particle, msg_missing_type,
    msg_missing_particle_type, msg_invalid_emissionRate.
  rewrite !Hin, !In_emitterErrors_cases. rewrite Hpos, Hx, Hy, Hpar, Hty, Hpty.
  cbn [negb orb truthy].
  assert (Hne : forall r1 r2 : string,
             r1 <> r2 -> emitter_label index +:+ String ":" r1
                         <> emitter_label index +:+ String ":" r2).
  { intros r1 r2 Hr H. apply emitter_message_inj in H as [_ H]. contradiction. }
  unfold msg_missing_type, msg_invalid_position, msg_invalid_emissionRate, msg_burstCount,
    msg_missing_particle, msg_missing_particle_type, msg_missing_lifetime.
  split; [ | split; [ | split; [split | split; split]]].
  - intros [[_ H] | [[H _] | [[_ H] | [[_ H] | [[H _] | [(_ & _ & H) | (_ & _ & H)]]]]]];
      try discriminate H; revert H; apply Hne; discriminate.
  - intros [[_ H] | [[H _] | [[_ H] | [[_ H] | [[H _] | [(_ & _ & H) | (_ & _ & H)]]]]]];
      try discriminate H; revert H; apply Hne; discriminate.
  - intros [[H _] | [[H _] | [[_ H] | [[_ H] | [[H _] | [(_ & _ & H) | (_ & _ & H)]]]]]];
      try discriminate H; try (exfalso; revert H; apply Hne; discriminate).
    apply negb_false_iff, String.eqb_eq in H. now subst.
  - intros [= ->]. left. split; reflexivity.
  - intros [[_ H] | [[H _] | [[_ H] | [[_ H] | [[H _] | [(_ & Hc & _) | (_ & _ & H)]]]]]];
      try discriminate H; try (exfalso; revert H; apply Hne; discriminate).
    apply negb_false_iff, String.eqb_eq in Hc. now subst.
  - intros [= ->]. do 5 right. left. repeat split.
  - intros [[_ H] | [[H _] | [[Hc _] | [[_ H] | [[H _] | [(_ & _ & H) | (_ & _ & H)]]]]]];
      try discriminate H; try (exfalso; revert H; apply Hne; discriminate).
    apply andb_prop in Hc as [Hc Hlt]. apply andb_prop in Hc as [Hb Ht].
    apply negb_true_iff in Hb, Ht. rewrite <- Hty in *.
    rewrite (Hrate Hb Ht) in Hlt. cbn [negb orb] in Hlt.
    apply is_str_false in Hb, Ht. repeat split; assumption.
  - intros [[Hb Ht] Hlt]. right; right; left. split; [ | reflexivity].
    apply is_str_false in Hb, Ht. rewrite <- Hty. rewrite Hb, Ht, Hlt.
    cbn [negb andb]. apply orb_true_r.
Qed.

Hypothesis load_dump : forall v, plain_data v = true -> load (dump v) = inr v.

Lemma export_then_import (s : SystemConfig) (es : list JValue) :
  forallb plain_data es = true ->
  exists yaml,
    editorConfigToYAML dump {| system := Some s; emitters := JArr es |} = Some yaml
    /\ yamlToEditorConfig load yaml
       = inr {| system := Some s; emitters := JArr (List.filter isEmitterConfig es) |}.
Proof.
  intros Hplain. unfold editorConfigToYAML. cbn [system emitters].
  eexists. split; [reflexivity | ].
  assert (Hdoc : plain_data
                   (JObj [("system", systemToJValue s);
                          ("emitters", JArr (map (fun emitter => JObj (spread emitter)) es))])
                 = true).
  { cbn [plain_data forallb snd systemToJValue andb]. rewrite andb_true_r.
    clear - Hplain. induction es as [ | e es IH]; [reflexivity | ].
    cbn [map forallb] in *. apply andb_prop in Hplain as [He Hes].
    change (plain_data (JObj (spread e))
            && forallb plain_data (map (fun emitter => JObj (spread emitter)) es) = true).
    now rewrite (plain_data_respread e He), (IH Hes). }
  rewrite (yamlToEditorConfig_loaded Text load _ _ (load_dump _ Hdoc)).
  cbn [get lookup_prop String.eqb Ascii.eqb Bool.eqb systemToJValue].
  rewrite filter_respread. now destruct s.
Qed.

(** X12. Export, then import, of any configuration of plain data with a
    system section and an array of emitters: the export does not throw, and
    the import gives the configuration back with the emitters that fail the
    shape check dropped; so the configuration comes back unchanged exactly
    when all its emitters pass the shape check. *)
Theorem export_import_general (s : SystemConfig) (es : list JValue) :
  forallb plain_data es = true ->
  exists yaml,
    editorConfigToYAML dump {| system := Some s; emitters := JArr es |} = Some yaml
    /\ yamlToEditorConfig load yaml
       = inr {| system := Some s; emitters := JArr (List.filter isEmitterConfig es) |}
    /\ (yamlToEditorConfig load yaml = inr {| system := Some s; emitters := JArr es |}
        <-> forallb isEmitterConfig es = true).
Proof.
  intros Hplain. destruct (export_then_import s es Hplain) as (yaml & Hexport & Himport).
  exists yaml. split; [exact Hexport | ]. split; [exact Himport | ].
  rewrite Himport, <- filter_all. split; [intros [= H]; exact H | intros ->; reflexivity].
Qed.

(** X13. A configuration of plain data the validator finds valid, in
    which the type of every emitter and of its particle is a string, is
    exported and imported back unchanged. *)
Theorem valid_config_roundtrip (config : EditorConfig) (es : list JValue) :
  emitters config = JArr es ->
  validateEditorConfig config = Some {| valid := true; errors := [] |} ->
  Forall (fun e => plain_data e = true
                   /\ typeof (get e "type") = TString
                   /\ typeof (get (get e "particle") "type") = TString) es ->
  exists yaml,
    editorConfigToYAML dump config = Some yaml
    /\ yamlToEditorConfig load yaml = inr config.
Proof.
  intros Hes Hvalid Hall.
  assert (Hok : system_in_range config = true /\ forallb emitter_passes es = true).
  { unfold validateEditorConfig in Hvalid. rewrite Hes in Hvalid.
    assert (Hsys : systemErrors config = [] /\ forEachEmitter 0 es = Some []).
    { destruct (Nat.eqb_spec (length es) 0) as [Hlen | _].
      - apply length_zero_iff_nil in Hlen. subst es.
        injection Hvalid as _ H. apply app_eq_nil in H as [H _]. auto.
      - destruct (forEachEmitter 0 es) as [errs | ]; [ | discriminate].
        injection Hvalid as _ H. apply app_eq_nil in H as [H ->]. auto. }
    destruct Hsys as [Hsys Hemit]. split; [ | now apply (forEachEmitter_nil es 0)].
    unfold systemErrors, system_in_range in *. destruct (system config); [ | discriminate].
    apply when_nil in Hsys. apply orb_false_iff in Hsys as [-> ->]. reflexivity. }
  destruct Hok as [Hsys Hpass].
  destruct config as [[s | ] emitters0]; [ | discriminate Hsys]. cbn [emitters] in Hes. subst.
  assert (Hplain : forallb plain_data es = true).
  { apply forallb_forall. intros e He. rewrite List.Forall_forall in Hall.
    now apply Hall. }
  assert (Hshape : forallb isEmitterConfig es = true).
  { apply forallb_forall. intros e He. rewrite List.Forall_forall in Hall.
    destruct (Hall e He) as (_ & Hty & Hpty). rewrite forallb_forall in Hpass.
    now apply emitter_passes_shape; [apply Hpass | | ]. }
  destruct (export_then_import s es Hplain) as (yaml & Hexport & Himport).
  exists yaml. split; [exact Hexport | ].
  rewrite Himport. apply filter_all in Hshape. now rewrite Hshape.
Qed.

End Exchange.

Lemma import_then_validate_sample :
  exists es result,
    emitters sample_config = JArr es
    /\ validateEditorConfig sample_config = Some result
    /\ ~ In "Missing system configuration" (errors result)
    /\ ~ In "Emitters must be an array" (errors result)
    /\ forall index emitter,
        es !! index = Some emitter ->
        ~ In (msg_invalid_position index) (errors result)
        /\ ~ In (msg_missing_particle index) (errors result)
        /\ (In (msg_missing_type index) (errors result)
            <-> get emitter "type" = JStr EmptyString)
        /\ (In (msg_missing_particle_type index) (errors result)
            <-> get (get emitter "particle") "type" = JStr EmptyString)
        /\ (In (msg_invalid_emissionRate index) (errors result)
            <-> rate_required emitter /\ num_ltb (get emitter "emissionRate") 0 = true).
Proof.
  apply (import_then_validate TreeCodec.Text TreeCodec.load sample_document sample_config).
  vm_compute. reflexivity.
Defined.

Lemma export_import_general_sample :
  exists yaml,
    editorConfigToYAML TreeCodec.dump
      {| system := Some {| maxParticles := 1000; autoStart := true |};
         emitters := JArr [point_emitter; emitter_without_particle] |} = Some yaml
    /\ yamlToEditorConfig TreeCodec.load yaml
       = inr {| system := Some {| maxParticles := 1000; autoStart := true |};
                emitters := JArr (List.filter isEmitterConfig
                                              [point_emitter; emitter_without_particle]) |}
    /\ (yamlToEditorConfig TreeCodec.load yaml
        = inr {| system := Some {| maxParticles := 1000; autoStart := true |};
                 emitters := JArr [point_emitter; emitter_without_particle] |}
        <-> forallb isEmitterConfig [point_emitter; emitter_without_particle] = true).
Proof.
  apply (export_import_general TreeCodec.Text TreeCodec.load TreeCodec.dump
           TreeCodec_load_dump {| maxParticles := 1000; autoStart := true |}
           [point_emitter; emitter_without_particle]).
  vm_compute. reflexivity.
Defined.

Lemma valid_config_roundtrip_sample :
  exists yaml,
    editorConfigToYAML TreeCodec.dump (config_of [point_emitter; burst_emitter]) = Some yaml
    /\ yamlToEditorConfig TreeCodec.load yaml = inr (config_of [point_emitter; burst_emitter]).
Proof.
  apply (valid_config_roundtrip TreeCodec.Text TreeCodec.load TreeCodec.dump
           TreeCodec_load_dump (config_of [point_emitter; burst_emitter])
           [point_emitter; burst_emitter]).
  - reflexivity.
  - vm_compute. reflexivity.
  - repeat constructor.
Defined.

(** ** The emitter a new layer starts from *)

Section Defaults.

Lemma defaultEmitter_passes (type : EmitterType) (cx cy : float) :
  emitter_passes (defaultEmitter type cx cy) = true
  /\ isEmitterConfig (defaultEmitter type cx cy) = true
  /\ plain_data (defaultEmitter type cx cy) = true.
Proof. destruct type; repeat split; vm_compute; reflexivity. Qed.

Lemma forEachEmitter_app (es : list JValue) (e : JValue) :
  forall index,
    forEachEmitter index es = Some [] ->
    emitter_passes e = true ->
    forEachEmitter index (es ++ [e]) = Some [].
Proof.
  intros index Hes He. apply forEachEmitter_nil. rewrite forallb_app.
  apply forEachEmitter_nil in Hes. rewrite Hes. cbn [forallb]. now rewrite He.
Qed.

End Defaults.

(** X15. Whatever the emitter type, known or not, the default velocity
    is radial, its angle and its speed are ranges with [min <= max], and the
    least speed is above zero. *)
Theorem getDefaultVelocityConfig_ranges (emitterType : string) :
  let velocity := getDefaultVelocityConfig emitterType in
  get velocity "mode" = JStr "radial"
  /\ ordered_range (get velocity "angle") = true
  /\ ordered_range (get velocity "speed") = true
  /\ exists lo, get (get velocity "speed") "min" = JNum lo /\ PrimFloat.ltb 0 lo = true.
Proof.
  cbv zeta. unfold getDefaultVelocityConfig.
  destruct (String.eqb emitterType "circle");
    [ | destruct (String.eqb emitterType "point");
        [ | destruct (String.eqb emitterType "area");
            [ | destruct (String.eqb emitterType "line");
                [ | destruct (String.eqb emitterType "burst")]]]];
    (split; [reflexivity | ]; split; [reflexivity | ]; split; [reflexivity | ];
     eexists; split; reflexivity).
Qed.

(** X16. The emitter a new layer starts from, for each of the nine types
    of the menu and whatever the centre of the viewport: the validator has
    no error for it, it passes the shape check of the import, and it is plain
    data; its particle has the velocity behaviour for every type but
    triggered.  Appended to the emitters of a valid configuration it leaves
    the configuration valid. *)
Theorem defaultEmitter_accepted (type : EmitterType) (cx cy : float) :
  validateEditorConfig (config_of [defaultEmitter type cx cy])
  = Some {| valid := true; errors := [] |}
  /\ isEmitterConfig (defaultEmitter type cx cy) = true
  /\ plain_data (defaultEmitter type cx cy) = true
  /\ get (defaultEmitter type cx cy) "type" = JStr (EmitterType_value type)
  /\ get (get (defaultEmitter type cx cy) "particle") "behaviors"
     = JArr (match type with
             | Triggered => []
             | _ => [JObj [("type", JStr "velocity"); ("priority", JNum 5)]]
             end)
  /\ forall (config : EditorConfig) (es : list JValue),
      emitters config = JArr es ->
      validateEditorConfig config = Some {| valid := true; errors := [] |} ->
      validateEditorConfig {| system := system config;
                              emitters := JArr (es ++ [defaultEmitter type cx cy]) |}
      = Some {| valid := true; errors := [] |}.
Proof.
  destruct (defaultEmitter_passes type cx cy) as (Hpass & Hshape & Hplain).
  split; [destruct type; vm_compute; reflexivity | ].
  split; [exact Hshape | ]. split; [exact Hplain | ].
  split; [destruct type; reflexivity | ]. split; [destruct type; reflexivity | ].
  intros config es Hes Hvalid.
  apply valid_passes in Hvalid as (Hsys & es' & Hes' & Hall).
  rewrite Hes in Hes'. injection Hes' as <-.
  apply valid_passes. split; [exact Hsys | ].
  exists (es ++ [defaultEmitter type cx cy]). split; [reflexivity | ].
  rewrite forallb_app, Hall. cbn [forallb]. now rewrite Hpass.
Qed.

Lemma defaultEmitter_accepted_tests :
  validateEditorConfig
    {| system := system (config_of [burst_emitter]);
       emitters := JArr ([burst_emitter] ++ [defaultEmitter Line 400 300]) |}
  = Some {| valid := true; errors := [] |}.
Proof.
  apply (proj2 (proj2 (proj2 (proj2 (proj2 (defaultEmitter_accepted Line 400 300)))))
               (config_of [burst_emitter]) [burst_emitter]);
    vm_compute; reflexivity.
Defined.

(** ** The store actions that resize *)

Section Callers.

Lemma recentre_noop (h : heap) (emitters : val) (es : list val)
      (oldWidth oldHeight newWidth newHeight : float) :
  array_elems h emitters = Some es ->
  PrimFloat.eqb (newWidth / 2 - oldWidth / 2) 0
  && PrimFloat.eqb (newHeight / 2 - oldHeight / 2) 0 = true
  \/ es = [] ->
  recentreEmittersOnResize emitters oldWidth oldHeight newWidth newHeight h
  = (inr emitters, h).
Proof.
  intros Hes Hcase. unfold recentreEmittersOnResize.
  destruct (_ && _); [reflexivity | ].
  destruct Hcase as [Hcase | ->]; [discriminate | ].
  destruct emitters as [ | | | | | l]; try discriminate.
  cbn [array_elems] in Hes. unfold bind. cbn [elements_to_map]. unfold bind, deref.
  destruct (h !! l) as [[ps | es] | ]; try discriminate.
  injection Hes as ->. reflexivity.
Qed.

Lemma recentre_moves (h : heap) (emitters e : val) (es : list val)
      (oldWidth oldHeight newWidth newHeight : float) :
  let dx := (newWidth / 2 - oldWidth / 2)%float in
  let dy := (newHeight / 2 - oldHeight / 2)%float in
  array_elems h emitters = Some (e :: es) ->
  forallb (wt_emitter h) (e :: es) = true ->
  PrimFloat.eqb dx 0 && PrimFloat.eqb dy 0 = false ->
  exists outs h1,
    recentreEmittersOnResize emitters oldWidth oldHeight newWidth newHeight h
    = (inr (VRef (length h1)), h1 ++ [CArr outs])
    /\ heap_extends h h1
    /\ Forall2 (recentred h (h1 ++ [CArr outs]) dx dy) (e :: es) outs.
Proof.
  intros dx dy Hes Hwt Hmove. unfold recentreEmittersOnResize.
  fold dx dy. rewrite Hmove.
  rewrite (bind_inr _ _ _ _ _ (elements_to_map_array emitters h e es Hes)).
  destruct (traverse_recentreEmitter_total h dx dy (e :: es) Hwt h (heap_extends_refl h))
    as (outs & h1 & Hrun & Hext & Hall).
  rewrite (bind_inr _ _ _ _ _ Hrun).
  exists outs, h1. split; [reflexivity | ]. split; [exact Hext | ].
  eapply Forall2_impl; [exact Hall | ].
  intros e' u'. apply recentred_stable, heap_extends_app.
Qed.

Lemma recentre_frame (h : heap) (emitters : val)
      (oldWidth oldHeight newWidth newHeight : float) (r : error + val) (h' : heap) :
  recentreEmittersOnResize emitters oldWidth oldHeight newWidth newHeight h = (r, h') ->
  heap_extends h h'.
Proof.
  unfold recentreEmittersOnResize.
  destruct (_ && _); [intros [= <- <-]; apply heap_extends_refl | ].
  intros Hrun.
  apply bind_run in Hrun as [(err & Hm & ->) | (todo & h0 & Htodo & Hrun)].
  { apply reads_only_run in Hm as ->; [ | apply elements_to_map_reads].
    apply heap_extends_refl. }
  pose proof (reads_only_run _ _ _ _ (elements_to_map_reads emitters) Htodo) as ->.
  destruct todo as [es | ]; [ | injection Hrun as <- <-; apply heap_extends_refl].
  apply bind_run in Hrun as [(err & Hm & ->) | (outs & h1 & Hm & Hrun)].
  { now apply traverse_recentreEmitter_frame in Hm as [Hext _]. }
  apply traverse_recentreEmitter_frame in Hm as [Hext _].
  injection Hrun as <- <-.
  eapply heap_extends_trans; [exact Hext | apply heap_extends_app].
Qed.

Lemma get_prop_reads_run (v : val) (k : string) (h : heap) (r : error + val) (h' : heap) :
  get_prop v k h = (r, h') -> h' = h.
Proof. apply reads_only_run, get_prop_reads. Qed.

Lemma own_props_reads_run (v : val) (h : heap) (r : error + list (string * val)) (h' : heap) :
  own_props v h = (r, h') -> h' = h.
Proof. apply reads_only_run, own_props_reads. Qed.

Lemma with_emitters_frame (config emitters : val) (h : heap) (r : error + val) (h' : heap) :
  EditorStore.with_emitters config emitters h = (r, h') -> heap_extends h h'.
Proof.
  unfold EditorStore.with_emitters. intros Hrun.
  apply bind_run in Hrun as [(err & Hm & ->) | (props & h0 & Hm & Hrun)].
  - apply own_props_reads_run in Hm as ->. apply heap_extends_refl.
  - apply own_props_reads_run in Hm as ->. injection Hrun as <- <-. apply heap_extends_app.
Qed.

Lemma recentreEmitter_no_object (dx dy : float) (e : val) (h : heap) :
  no_object e = true ->
  exists h', recentreEmitter dx dy e h = (inl TypeError, h') /\ heap_extends h h'.
Proof.
  intros He. exists (h ++ [CObj []]). split; [ | apply heap_extends_app].
  destruct e; try discriminate; reflexivity.
Qed.

Lemma recentreEmitter_no_position (dx dy : float) (e : val) (h0 h : heap)
      (props : list (string * val)) :
  heap_extends h0 h ->
  object_props h0 e = Some props ->
  no_object (prop_lookup "position" props) = true ->
  exists h', recentreEmitter dx dy e h = (inl TypeError, h') /\ heap_extends h h'.
Proof.
  intros Hext Hprops Hpos. exists (h ++ [CObj props]). split; [ | apply heap_extends_app].
  assert (Hobj : object_props h e = Some props).
  { eapply object_props_mono; [ | exact Hprops]. now apply extends_ref. }
  assert (Hobj' : object_props (h ++ [CObj props]) e = Some props).
  { eapply object_props_mono; [ | exact Hobj]. apply extends_ref, heap_extends_app. }
  unfold recentreEmitter.
  rewrite (bind_inr _ _ _ _ _ (own_props_object h e props Hobj)).
  unfold bind at 1. cbn [alloc].
  rewrite (bind_inr _ _ _ _ _ (get_prop_object _ e props "position" Hobj')).
  destruct (prop_lookup "position" props); try discriminate; reflexivity.
Qed.

Lemma traverse_stops (dx dy : float) (h0 : heap) (pre : list val) (e : val) (post : list val) :
  forallb (wt_emitter h0) pre = true ->
  (forall h, heap_extends h0 h ->
             exists h', recentreEmitter dx dy e h = (inl TypeError, h') /\ heap_extends h h') ->
  forall h,
    heap_extends h0 h ->
    exists h',
      traverse (recentreEmitter dx dy) (pre ++ e :: post) h = (inl TypeError, h')
      /\ heap_extends h h'.
Proof.
  intros Hpre Hthrow.
  induction pre as [ | a pre IH]; intros h Hext; cbn [app traverse].
  - destruct (Hthrow h Hext) as (h' & Hrun & Hext').
    exists h'. split; [ | exact Hext']. unfold bind. now rewrite Hrun.
  - cbn [forallb] in Hpre. apply andb_prop in Hpre as [Ha Hpre].
    destruct (recentreEmitter_total h0 dx dy a h Hext Ha) as (h1 & Hrun & Hext1 & _).
    rewrite (bind_inr _ _ _ _ _ Hrun).
    destruct (IH Hpre h1) as (h' & Hrest & Hext').
    { eapply heap_extends_trans; eauto. }
    exists h'. split; [ | eapply heap_extends_trans; eauto].
    fold (traverse (recentreEmitter dx dy)). unfold bind at 1. now rewrite Hrest.
Qed.

End Callers.

(** X17. A resize that moves the centre throws a [TypeError] when it
    meets, after emitters that are as [EmitterConfig] declares them, an
    entry that is [null] or [undefined] or an emitter whose position is:
    the entries the shape check of the import would have dropped.  The
    store it leaves only extends the one it found. *)
Theorem recentre_throws_on_missing_position
    (h : heap) (emitters : val) (pre : list val) (e : val) (post : list val)
    (oldWidth oldHeight newWidth newHeight : float) :
  array_elems h emitters = Some (pre ++ e :: post) ->
  forallb (wt_emitter h) pre = true ->
  no_object e = true
  \/ (exists props, object_props h e = Some props
                    /\ no_object (prop_lookup "position" props) = true) ->
  PrimFloat.eqb (newWidth / 2 - oldWidth / 2) 0
  && PrimFloat.eqb (newHeight / 2 - oldHeight / 2) 0 = false ->
  exists h',
    recentreEmittersOnResize emitters oldWidth oldHeight newWidth newHeight h
    = (inl TypeError, h')
    /\ heap_extends h h'.
Proof.
  intros Hes Hpre He Hmove. unfold recentreEmittersOnResize. rewrite Hmove.
  assert (Hsome : exists a rest, pre ++ e :: post = a :: rest).
  { destruct pre; cbn [app]; eauto. }
  destruct Hsome as (a & rest & Hlist). rewrite Hlist in Hes.
  rewrite (bind_inr _ _ _ _ _ (elements_to_map_array emitters h a rest Hes)).
  rewrite <- Hlist.
  destruct (traverse_stops (newWidth / 2 - oldWidth / 2) (newHeight / 2 - oldHeight / 2)
                           h pre e post Hpre) with (h := h)
    as (h' & Hrun & Hext).
  - intros h1 Hext. destruct He as [He | (props & Hprops & Hpos)].
    + now apply recentreEmitter_no_object.
    + now apply (recentreEmitter_no_position _ _ e h h1 props).
  - apply heap_extends_refl.
  - exists h'. split; [ | exact Hext]. unfold bind. now rewrite Hrun.
Qed.

Lemma recentre_throws_on_missing_position_null :
  exists h',
    recentreEmittersOnResize (VRef 4) 800 600 1000 800
      [CObj [("x", VNum 1); ("y", VNum 2)];
       CObj [("type", VStr "point"); ("position", VRef 0)];
       CObj [("type", VStr "point")];
       CObj [("type", VStr "point"); ("position", VRef 0)];
       CArr [VRef 1; VRef 2; VRef 3]]
    = (inl TypeError, h')
    /\ heap_extends
         [CObj [("x", VNum 1); ("y", VNum 2)];
          CObj [("type", VStr "point"); ("position", VRef 0)];
          CObj [("type", VStr "point")];
          CObj [("type", VStr "point"); ("position", VRef 0)];
          CArr [VRef 1; VRef 2; VRef 3]] h'.
Proof.
  apply (recentre_throws_on_missing_position _ (VRef 4) [VRef 1] (VRef 2) [VRef 3]).
  - reflexivity.
  - vm_compute. reflexivity.
  - right. eexists. split; [reflexivity | reflexivity].
  - vm_compute. reflexivity.
Defined.

(** X18. [setCanvasDimensions] on a configuration whose [emitters] is an
    array, when the size of the canvas does not move the centre or there is
    no emitter: the state keeps the very same [config] object, nothing is
    allocated or written, and only the two dimensions of [ui] change. *)
Theorem setCanvasDimensions_same_centre
    (h : heap) (state : EditorStore.EditorState) (props : list (string * val))
    (es : list val) (canvasWidth canvasHeight : float) :
  object_props h (EditorStore.config state) = Some props ->
  array_elems h (prop_lookup "emitters" props) = Some es ->
  PrimFloat.eqb (canvasWidth / 2 - EditorStore.canvasWidth (EditorStore.ui state) / 2) 0
  && PrimFloat.eqb (canvasHeight / 2 - EditorStore.canvasHeight (EditorStore.ui state) / 2) 0
  = true
  \/ es = [] ->
  EditorStore.setCanvasDimensions canvasWidth canvasHeight state h
  = (inr {| EditorStore.config := EditorStore.config state;
            EditorStore.assets := EditorStore.assets state;
            EditorStore.ui :=
              EditorStore.with_canvas (EditorStore.ui state) canvasWidth canvasHeight |},
     h).
Proof.
  intros Hprops Hes Hcase. unfold EditorStore.setCanvasDimensions.
  rewrite (bind_inr _ _ _ _ _ (get_prop_object h _ props "emitters" Hprops)).
  rewrite (bind_inr _ _ _ _ _ (recentre_noop h _ es _ _ _ _ Hes Hcase)).
  rewrite (bind_inr _ _ _ _ _ (get_prop_object h _ props "emitters" Hprops)).
  destruct (prop_lookup "emitters" props) as [ | | | | | l]; try discriminate Hes.
  cbn [strict_eq]. rewrite Nat.eqb_refl. reflexivity.
Qed.

(** X19. [setCanvasDimensions] when the centre moves and the emitters are
    as [EmitterConfig] declares them: the new state has the two dimensions
    asked for and a [config] allocated by the call, with the properties of
    the old one but for [emitters], a new array of the emitters recentred by
    half the change of each dimension.  The objects the store held before
    are as they were. *)
Theorem setCanvasDimensions_resize
    (h : heap) (state : EditorStore.EditorState) (props : list (string * val))
    (e : val) (es : list val) (canvasWidth canvasHeight : float) :
  let dx := (canvasWidth / 2 - EditorStore.canvasWidth (EditorStore.ui state) / 2)%float in
  let dy := (canvasHeight / 2 - EditorStore.canvasHeight (EditorStore.ui state) / 2)%float in
  object_props h (EditorStore.config state) = Some props ->
  array_elems h (prop_lookup "emitters" props) = Some (e :: es) ->
  forallb (wt_emitter h) (e :: es) = true ->
  PrimFloat.eqb dx 0 && PrimFloat.eqb dy 0 = false ->
  exists config' emitters' outs h',
    EditorStore.setCanvasDimensions canvasWidth canvasHeight state h
    = (inr {| EditorStore.config := config';
              EditorStore.assets := EditorStore.assets state;
              EditorStore.ui :=
                EditorStore.with_canvas (EditorStore.ui state) canvasWidth canvasHeight |},
       h')
    /\ heap_extends h h'
    /\ fresh_ref (length h) config'
    /\ fresh_ref (length h) emitters'
    /\ object_props h' config' = Some (prop_set "emitters" emitters' props)
    /\ array_elems h' emitters' = Some outs
    /\ Forall2 (recentred h h' dx dy) (e :: es) outs.
Proof.
  intros dx dy Hprops Hes Hwt Hmove. unfold EditorStore.setCanvasDimensions.
  rewrite (bind_inr _ _ _ _ _ (get_prop_object h _ props "emitters" Hprops)).
  destruct (recentre_moves h _ e es _ _ canvasWidth canvasHeight Hes Hwt Hmove)
    as (outs & h1 & Hrun & Hext & Hall).
  fold dx dy in Hall.
  rewrite (bind_inr _ _ _ _ _ Hrun).
  set (h2 := h1 ++ [CArr outs]) in *.
  assert (Hext2 : heap_extends h h2).
  { eapply heap_extends_trans; [exact Hext | apply heap_extends_app]. }
  assert (Hprops2 : object_props h2 (EditorStore.config state) = Some props).
  { eapply object_props_mono; [ | exact Hprops]. now apply extends_ref. }
  rewrite (bind_inr _ _ _ _ _ (get_prop_object h2 _ props "emitters" Hprops2)).
  pose proof (heap_extends_length _ _ Hext) as Hlen.
  assert (Hneq : strict_eq (VRef (length h1)) (prop_lookup "emitters" props) = false).
  { destruct (prop_lookup "emitters" props) as [ | | | | | l]; try reflexivity.
    cbn [strict_eq]. apply Nat.eqb_neq. intros <-.
    cbn [array_elems] in Hes.
    destruct (h !! length h1) eqn:Hl; [ | discriminate].
    apply lookup_lt_Some in Hl. lia. }
  rewrite Hneq. cbn [negb]. unfold EditorStore.with_emitters.
  rewrite (bind_inr _ _ _ _ _
             (bind_inr _ _ _ _ _ (own_props_object h2 _ props Hprops2))).
  cbn [alloc].
  set (h3 := h2 ++ [CObj (prop_set "emitters" (VRef (length h1)) props)]).
  assert (Hext3 : heap_extends h2 h3) by apply heap_extends_app.
  exists (VRef (length h2)), (VRef (length h1)), outs, h3.
  split; [reflexivity | ].
  split; [eapply heap_extends_trans; eauto | ].
  split; [exists (length h2); split; [reflexivity | ];
          apply heap_extends_length in Hext2; exact Hext2 | ].
  split; [exists (length h1); split; [reflexivity | exact Hlen] | ].
  split; [cbn [object_props]; unfold h3; now rewrite lookup_app_r, Nat.sub_diag by lia | ].
  split.
  - cbn [array_elems]. rewrite (Hext3 (length h1) (CArr outs)); [reflexivity | ].
    unfold h2. now rewrite lookup_app_r, Nat.sub_diag by lia.
  - eapply Forall2_impl; [exact Hall | ].
    intros e' u'. now apply recentred_stable.
Qed.

(** X20. Whatever [setCanvasDimensions] and [loadConfig] meet, and
    whether they return or throw, every object the store held before the
    call is as it was: the two actions only allocate. *)
Theorem store_actions_only_allocate :
  (forall (canvasWidth canvasHeight : float) (state : EditorStore.EditorState)
          (h : heap) (r : error + EditorStore.EditorState) (h' : heap),
      EditorStore.setCanvasDimensions canvasWidth canvasHeight state h = (r, h') ->
      heap_extends h h')
  /\ (forall (config assets : val) (state : EditorStore.EditorState)
             (h : heap) (r : error + EditorStore.EditorState) (h' : heap),
         EditorStore.loadConfig config assets state h = (r, h') ->
         heap_extends h h').
Proof.
  split.
  - intros canvasWidth canvasHeight state h r h'. unfold EditorStore.setCanvasDimensions.
    intros Hrun.
    apply bind_run in Hrun as [(err & Hm & ->) | (current & h0 & Hm & Hrun)].
    { apply get_prop_reads_run in Hm as ->. apply heap_extends_refl. }
    apply get_prop_reads_run in Hm as ->.
    apply bind_run in Hrun as [(err & Hm & ->) | (emitters & h1 & Hm & Hrun)].
    { now apply recentre_frame in Hm. }
    apply recentre_frame in Hm.
    apply bind_run in Hrun as [(err & Hm2 & ->) | (current' & h2 & Hm2 & Hrun)].
    { now apply get_prop_reads_run in Hm2 as ->. }
    apply get_prop_reads_run in Hm2 as ->.
    apply bind_run in Hrun as [(err & Hm3 & ->) | (config' & h3 & Hm3 & Hrun)].
    + destruct (negb _); [ | discriminate Hm3].
      apply with_emitters_frame in Hm3. eapply heap_extends_trans; eauto.
    + injection Hrun as <- <-.
      destruct (negb _).
      * apply with_emitters_frame in Hm3. eapply heap_extends_trans; eauto.
      * now injection Hm3 as <- <-.
  - intros config assets state h r h'. unfold EditorStore.loadConfig.
    intros Hrun.
    apply bind_run in Hrun as [(err & Hm & ->) | (loaded & h0 & Hm & Hrun)].
    { apply get_prop_reads_run in Hm as ->. apply heap_extends_refl. }
    apply get_prop_reads_run in Hm as ->.
    apply bind_run in Hrun as [(err & Hm & ->) | (emitters & h1 & Hm & Hrun)].
    { now apply recentre_frame in Hm. }
    apply recentre_frame in Hm.
    apply bind_run in Hrun as [(err & Hm2 & ->) | (config' & h2 & Hm2 & Hrun)].
    { apply with_emitters_frame in Hm2. eapply heap_extends_trans; eauto. }
    apply with_emitters_frame in Hm2.
    assert (Hext : heap_extends h h2) by (eapply heap_extends_trans; eauto).
    apply bind_run in Hrun as [(err & Hm3 & ->) | (loaded' & h3 & Hm3 & Hrun)].
    { now apply get_prop_reads_run in Hm3 as ->. }
    apply get_prop_reads_run in Hm3 as ->.
    assert (Hread : forall v h4 (r4 : error + bool) h5,
               array_nonempty v h4 = (r4, h5) -> h5 = h4).
    { intros v h4 r4 h5. destruct v as [ | | | | | l]; cbn [array_nonempty];
        try (intros [= _ <-]; reflexivity).
      unfold bind, deref. destruct (h4 !! l) as [[ps | els] | ];
        intros [= _ <-]; reflexivity. }
    apply bind_run in Hrun as [(err & Hm4 & ->) | (nonempty & h4 & Hm4 & Hrun)].
    { now apply Hread in Hm4 as ->. }
    apply Hread in Hm4 as ->. now injection Hrun as <- <-.
Qed.

Lemma setCanvasDimensions_same_centre_tests :
  EditorStore.setCanvasDimensions 800 600 editor_state editor_store
  = (inr {| EditorStore.config := EditorStore.config editor_state;
            EditorStore.assets := EditorStore.assets editor_state;
            EditorStore.ui :=
              EditorStore.with_canvas (EditorStore.ui editor_state) 800 600 |},
     editor_store).
Proof.
  eapply (setCanvasDimensions_same_centre editor_store editor_state _ test_elements 800 600).
  - reflexivity.
  - reflexivity.
  - left. vm_compute. reflexivity.
Defined.

Lemma setCanvasDimensions_resize_tests :
  exists config' emitters' outs h',
    EditorStore.setCanvasDimensions 1000 800 editor_state editor_store
    = (inr {| EditorStore.config := config';
              EditorStore.assets := EditorStore.assets editor_state;
              EditorStore.ui :=
                EditorStore.with_canvas (EditorStore.ui editor_state) 1000 800 |},
       h')
    /\ heap_extends editor_store h'
    /\ fresh_ref (length editor_store) config'
    /\ fresh_ref (length editor_store) emitters'
    /\ object_props h' config'
       = Some (prop_set "emitters" emitters'
                        [("system", VRef (length test_store)); ("emitters", test_ref)])
    /\ array_elems h' emitters' = Some outs
    /\ Forall2 (recentred editor_store h'
                          (1000 / 2 - EditorStore.canvasWidth (EditorStore.ui editor_state) / 2)
                          (800 / 2 - EditorStore.canvasHeight (EditorStore.ui editor_state) / 2))
               test_elements outs.
Proof.
  apply (setCanvasDimensions_resize editor_store editor_state
           [("system", VRef (length test_store)); ("emitters", test_ref)]
           (VRef 5) [VRef 13; VRef 21] 1000 800);
    vm_compute; reflexivity.
Defined.

Lemma store_actions_only_allocate_tests :
  heap_extends editor_store
               (snd (EditorStore.setCanvasDimensions 1000 800 editor_state editor_store))
  /\ heap_extends editor_store
                  (snd (EditorStore.loadConfig (EditorStore.config editor_state) VNull
                                               editor_state editor_store)).
Proof.
  split.
  - apply (proj1 store_actions_only_allocate 1000%float 800%float editor_state editor_store
                 (fst (EditorStore.setCanvasDimensions 1000 800 editor_state editor_store))).
    vm_compute. reflexivity.
  - apply (proj2 store_actions_only_allocate (EditorStore.config editor_state) VNull
                 editor_state editor_store
                 (fst (EditorStore.loadConfig (EditorStore.config editor_state) VNull
                                              editor_state editor_store))).
    vm_compute. reflexivity.
Defined.

(** ** loadConfig *)

Section Loading.

Lemma array_nonempty_array (h : heap) (v : val) (es : list val) :
  array_elems h v = Some es ->
  array_nonempty v h = (inr (Nat.ltb 0 (length es)), h).
Proof.
  destruct v as [ | | | | | l]; try discriminate. cbn [array_elems array_nonempty].
  unfold bind, deref. destruct (h !! l) as [[ps | els] | ]; try discriminate.
  now intros [= ->].
Qed.

Lemma loadConfig_run
    (h : heap) (config assets : val) (state : EditorStore.EditorState)
    (props : list (string * val)) (es : list val) :
  let canvasWidth := EditorStore.canvasWidth (EditorStore.ui state) in
  let canvasHeight := EditorStore.canvasHeight (EditorStore.ui state) in
  let dx := (canvasWidth / 2 - 800 / 2)%float in
  let dy := (canvasHeight / 2 - 600 / 2)%float in
  object_props h config = Some props ->
  array_elems h (prop_lookup "emitters" props) = Some es ->
  forallb (wt_emitter h) es = true ->
  exists config' emitters' h',
    EditorStore.loadConfig config assets state h
    = (inr {| EditorStore.config := config';
              EditorStore.assets := assets;
              EditorStore.ui :=
                {| EditorStore.selectedEmitterIndex :=
                     match es with [] => None | _ :: _ => Some 0 end;
                   EditorStore.selectedBehaviorIndex := None;
                   EditorStore.previewState := "stopped";
                   EditorStore.showDebugMetrics := false;
                   EditorStore.timeScale := 1.0;
                   EditorStore.backgroundColor := 1710618;
                   EditorStore.hasUnsavedChanges := false;
                   EditorStore.showGrid := true;
                   EditorStore.gridSize := 50;
                   EditorStore.zoom := 1.0;
                   EditorStore.hiddenEmitterIndices := [];
                   EditorStore.canvasWidth := canvasWidth;
                   EditorStore.canvasHeight := canvasHeight;
                   EditorStore.inspectorSearch := EmptyString |} |},
       h')
    /\ heap_extends h h'
    /\ fresh_ref (length h) config'
    /\ object_props h' config' = Some (prop_set "emitters" emitters' props)
    /\ (PrimFloat.eqb dx 0 && PrimFloat.eqb dy 0 = true \/ es = [] ->
        emitters' = prop_lookup "emitters" props)
    /\ (PrimFloat.eqb dx 0 && PrimFloat.eqb dy 0 = false -> es <> [] ->
        fresh_ref (length h) emitters'
        /\ exists outs,
            array_elems h' emitters' = Some outs
            /\ Forall2 (recentred h h' dx dy) es outs).
Proof.
  intros canvasWidth canvasHeight dx dy Hprops Hes Hwt.
  unfold EditorStore.loadConfig.
  change (EditorStore.canvasWidth EditorStore.createDefaultUIState) with 800%float.
  change (EditorStore.canvasHeight EditorStore.createDefaultUIState) with 600%float.
  fold canvasWidth canvasHeight.
  rewrite (bind_inr _ _ _ _ _ (get_prop_object h _ props "emitters" Hprops)).
  assert (Hrun : exists emitters' h1,
             recentreEmittersOnResize (prop_lookup "emitters" props) 800 600
                                      canvasWidth canvasHeight h
             = (inr emitters', h1)
             /\ heap_extends h h1
             /\ (PrimFloat.eqb dx 0 && PrimFloat.eqb dy 0 = true \/ es = [] ->
                 emitters' = prop_lookup "emitters" props)
             /\ (PrimFloat.eqb dx 0 && PrimFloat.eqb dy 0 = false -> es <> [] ->
                 fresh_ref (length h) emitters'
                 /\ exists outs,
                     array_elems h1 emitters' = Some outs
                     /\ Forall2 (recentred h h1 dx dy) es outs)).
  { destruct (PrimFloat.eqb dx 0 && PrimFloat.eqb dy 0) eqn:Hmove.
    - exists (prop_lookup "emitters" props), h.
      split; [apply (recentre_noop h _ es); auto | ].
      split; [apply heap_extends_refl | ]. split; [reflexivity | discriminate].
    - destruct es as [ | e es].
      + exists (prop_lookup "emitters" props), h.
        split; [apply (recentre_noop h _ []); auto | ].
        split; [apply heap_extends_refl | ]. split; [reflexivity | congruence].
      + destruct (recentre_moves h _ e es 800 600 canvasWidth canvasHeight Hes Hwt Hmove)
          as (outs & h1 & Hrun & Hext & Hall).
        exists (VRef (length h1)), (h1 ++ [CArr outs]).
        split; [exact Hrun | ].
        split; [eapply heap_extends_trans; [exact Hext | apply heap_extends_app] | ].
        split; [intros [H | H]; discriminate H | ]. intros _ _.
        split; [exists (length h1); split; [reflexivity | now apply heap_extends_length] | ].
        exists outs. split; [ | exact Hall].
        cbn [array_elems]. now rewrite lookup_app_r, Nat.sub_diag by lia. }
  destruct Hrun as (emitters' & h1 & Hrun & Hext & Hsame & Hmoved).
  rewrite (bind_inr _ _ _ _ _ Hrun).
  assert (Hprops1 : object_props h1 config = Some props).
  { eapply object_props_mono; [ | exact Hprops]. now apply extends_ref. }
  unfold EditorStore.with_emitters.
  rewrite (bind_inr _ _ _ _ _
             (bind_inr _ _ _ _ _ (own_props_object h1 _ props Hprops1))).
  cbn [alloc].
  set (h2 := h1 ++ [CObj (prop_set "emitters" emitters' props)]).
  assert (Hext2 : heap_extends h1 h2) by apply heap_extends_app.
  assert (Hprops2 : object_props h2 config = Some props).
  { eapply object_props_mono; [ | exact Hprops1]. now apply extends_ref. }
  rewrite (bind_inr _ _ _ _ _ (get_prop_object h2 _ props "emitters" Hprops2)).
  assert (Hes2 : array_elems h2 (prop_lookup "emitters" props) = Some es).
  { eapply array_elems_mono; [ | exact Hes].
    apply extends_ref. eapply heap_extends_trans; eauto. }
  rewrite (bind_inr _ _ _ _ _ (array_nonempty_array h2 _ es Hes2)).
  exists (VRef (length h1)), emitters', h2.
  split.
  { unfold ret. do 3 f_equal. destruct es; reflexivity. }
  split; [eapply heap_extends_trans; eauto | ].
  split; [exists (length h1); split; [reflexivity | now apply heap_extends_length] | ].
  split; [cbn [object_props]; unfold h2; now rewrite lookup_app_r, Nat.sub_diag by lia | ].
  split; [exact Hsame | ].
  intros Hmove Hne. destruct (Hmoved Hmove Hne) as (Hfresh & outs & Houts & Hall).
  split; [exact Hfresh | ]. exists outs. split.
  - eapply array_elems_mono; [ | exact Houts]. now apply extends_ref.
  - eapply Forall2_impl; [exact Hall | ]. intros e' u'. now apply recentred_stable.
Qed.

End Loading.

(** X21. [loadConfig] of a configuration whose emitters are as
    [EmitterConfig] declares them never throws.  The state it returns has
    the assets given, the default [ui] but for the size of the canvas, which
    is kept, and the first emitter selected when there is one; its [config]
    is always an object allocated by the call, with the properties of the
    configuration given but for [emitters]: the array given itself when the
    canvas has the centre of the 800 x 600 authoring canvas or there is no
    emitter, and otherwise a new array of the emitters recentred from that
    canvas to the present one.  The configuration given is not written
    to. *)
Theorem loadConfig_result
    (h : heap) (config assets : val) (state : EditorStore.EditorState)
    (props : list (string * val)) (es : list val) :
  let canvasWidth := EditorStore.canvasWidth (EditorStore.ui state) in
  let canvasHeight := EditorStore.canvasHeight (EditorStore.ui state) in
  let dx := (canvasWidth / 2 - 800 / 2)%float in
  let dy := (canvasHeight / 2 - 600 / 2)%float in
  object_props h config = Some props ->
  array_elems h (prop_lookup "emitters" props) = Some es ->
  forallb (wt_emitter h) es = true ->
  exists config' emitters' h',
    EditorStore.loadConfig config assets state h
    = (inr {| EditorStore.config := config';
              EditorStore.assets := assets;
              EditorStore.ui :=
                {| EditorStore.selectedEmitterIndex :=
                     match es with [] => None | _ :: _ => Some 0 end;
                   EditorStore.selectedBehaviorIndex := None;
                   EditorStore.previewState := "stopped";
                   EditorStore.showDebugMetrics := false;
                   EditorStore.timeScale := 1.0;
                   EditorStore.backgroundColor := 1710618;
                   EditorStore.hasUnsavedChanges := false;
                   EditorStore.showGrid := true;
                   EditorStore.gridSize := 50;
                   EditorStore.zoom := 1.0;
                   EditorStore.hiddenEmitterIndices := [];
                   EditorStore.canvasWidth := canvasWidth;
                   EditorStore.canvasHeight := canvasHeight;
                   EditorStore.inspectorSearch := EmptyString |} |},
       h')
    /\ heap_extends h h'
    /\ fresh_ref (length h) config'
    /\ object_props h' config' = Some (prop_set "emitters" emitters' props)
    /\ (PrimFloat.eqb dx 0 && PrimFloat.eqb dy 0 = true \/ es = [] ->
        emitters' = prop_lookup "emitters" props)
    /\ (PrimFloat.eqb dx 0 && PrimFloat.eqb dy 0 = false -> es <> [] ->
        fresh_ref (length h) emitters'
        /\ exists outs,
            array_elems h' emitters' = Some outs
            /\ Forall2 (recentred h h' dx dy) es outs).
Proof. exact (loadConfig_run h config assets state props es). Qed.

Lemma loadConfig_result_tests :
  let state :=
    {| EditorStore.config := VNull;
       EditorStore.assets := VNull;
       EditorStore.ui := EditorStore.with_canvas EditorStore.createDefaultUIState 1000 800 |} in
  let config := EditorStore.config editor_state in
  let assets := EditorStore.assets editor_state in
  let props := [("system", VRef (length test_store)); ("emitters", test_ref)] in
  let dx := (1000 / 2 - 800 / 2)%float in
  let dy := (800 / 2 - 600 / 2)%float in
  exists config' emitters' h',
    EditorStore.loadConfig config assets state editor_store
    = (inr {| EditorStore.config := config';
              EditorStore.assets := assets;
              EditorStore.ui :=
                {| EditorStore.selectedEmitterIndex := Some 0;
                   EditorStore.selectedBehaviorIndex := None;
                   EditorStore.previewState := "stopped";
                   EditorStore.showDebugMetrics := false;
                   EditorStore.timeScale := 1.0;
                   EditorStore.backgroundColor := 1710618;
                   EditorStore.hasUnsavedChanges := false;
                   EditorStore.showGrid := true;
                   EditorStore.gridSize := 50;
                   EditorStore.zoom := 1.0;
                   EditorStore.hiddenEmitterIndices := [];
                   EditorStore.canvasWidth := 1000;
                   EditorStore.canvasHeight := 800;
                   EditorStore.inspectorSearch := EmptyString |} |},
       h')
    /\ heap_extends editor_store h'
    /\ fresh_ref (length editor_store) config'
    /\ object_props h' config' = Some (prop_set "emitters" emitters' props)
    /\ (PrimFloat.eqb dx 0 && PrimFloat.eqb dy 0 = true \/ test_elements = [] ->
        emitters' = prop_lookup "emitters" props)
    /\ (PrimFloat.eqb dx 0 && PrimFloat.eqb dy 0 = false -> test_elements <> [] ->
        fresh_ref (length editor_store) emitters'
        /\ exists outs,
            array_elems h' emitters' = Some outs
            /\ Forall2 (recentred editor_store h' dx dy) test_elements outs).
Proof.
  apply (loadConfig_result editor_store (EditorStore.config editor_state)
           (EditorStore.assets editor_state)
           {| EditorStore.config := VNull;
              EditorStore.assets := VNull;
              EditorStore.ui :=
                EditorStore.with_canvas EditorStore.createDefaultUIState 1000 800 |}
           [("system", VRef (length test_store)); ("emitters", test_ref)]
           test_elements);
    vm_compute; reflexivity.
Defined.

(** ** From the trees of the import to the objects of the store *)

Section Trees.

Lemma read_value_prim (fuel : nat) (h : heap) (r : val) (v : JValue) :
  read_value fuel h r = Some v ->
  match v with
  | JUndefined => r = VUndefined
  | JNull => r = VNull
  | JBool b => r = VBool b
  | JNum n => r = VNum n
  | JStr s => r = VStr s
  | JArr _ | JObj _ => exists l, r = VRef l
  end.
Proof.
  destruct fuel as [ | fuel], r as [ | | b | n | s | l]; cbn [read_value];
    try (intros [= <-]; reflexivity); try discriminate.
  destruct (h !! l) as [[ps | es] | ]; [ | | discriminate].
  - destruct (mapM _ ps); cbn [option_map]; [ | discriminate]. intros [= <-]. eauto.
  - destruct (mapM _ es); cbn [option_map]; [ | discriminate]. intros [= <-]. eauto.
Qed.

Lemma read_value_object (fuel : nat) (h : heap) (r : val) (ps : list (string * JValue)) :
  read_value fuel h r = Some (JObj ps) ->
  exists fuel' qs,
    object_props h r = Some qs
    /\ Forall2 (fun kq kp => fst kq = fst kp
                             /\ read_value fuel' h (snd kq) = Some (snd kp)) qs ps.
Proof.
  destruct fuel as [ | fuel], r as [ | | b | n | s | l]; try discriminate.
  cbn [read_value object_props].
  destruct (h !! l) as [[qs | es] | ]; [ | | discriminate].
  - destruct (mapM _ qs) as [ps' | ] eqn:Hm; cbn [option_map]; [ | discriminate].
    intros [= <-].
    exists fuel, qs. split; [reflexivity | ].
    apply mapM_Some in Hm. eapply Forall2_impl; [exact Hm | ].
    intros [k q] [k' p]. cbn [fst snd].
    destruct (read_value fuel h q); [ | discriminate]. now intros [= <- <-].
  - destruct (mapM _ es); cbn [option_map]; discriminate.
Qed.

Lemma read_value_array (fuel : nat) (h : heap) (r : val) (vs : list JValue) :
  read_value fuel h r = Some (JArr vs) ->
  exists fuel' es,
    array_elems h r = Some es
    /\ Forall2 (fun e v => read_value fuel' h e = Some v) es vs.
Proof.
  destruct fuel as [ | fuel], r as [ | | b | n | s | l]; try discriminate.
  cbn [read_value array_elems].
  destruct (h !! l) as [[qs | es] | ]; [ | | discriminate].
  - destruct (mapM _ qs); cbn [option_map]; discriminate.
  - destruct (mapM _ es) as [vs' | ] eqn:Hm; cbn [option_map]; [ | discriminate].
    intros [= <-].
    exists fuel, es. split; [reflexivity | ]. now apply mapM_Some in Hm.
Qed.

Lemma read_lookup (fuel : nat) (h : heap) (k : string)
      (qs : list (string * val)) (ps : list (string * JValue)) :
  Forall2 (fun kq kp => fst kq = fst kp /\ read_value fuel h (snd kq) = Some (snd kp)) qs ps ->
  read_value fuel h (prop_lookup k qs) = Some (lookup_prop k ps)
  /\ has_key k qs = has_prop k ps.
Proof.
  induction 1 as [ | [k1 q] [k2 p] qs ps [Hk Hv] _ [IH1 IH2]]; cbn [prop_lookup lookup_prop].
  - split; [now destruct fuel | reflexivity].
  - cbn [fst snd] in *. subst k2. cbn [has_key has_prop].
    destruct (String.eqb k k1); [split; [exact Hv | reflexivity] | ]. auto.
Qed.

Lemma read_point (fuel : nat) (h : heap) (r : val) (v : JValue) :
  read_value fuel h r = Some v -> is_point v = true -> is_vec2 h r = true.
Proof.
  destruct v as [ | | | | | | pp]; try discriminate. intros Hread Hpoint.
  apply read_value_object in Hread as (fuel' & qs & Hobj & Hall).
  unfold is_vec2, vec2_coords. rewrite Hobj. cbn [is_point] in Hpoint.
  destruct (read_lookup fuel' h "x" qs pp Hall) as [Hx _].
  destruct (read_lookup fuel' h "y" qs pp Hall) as [Hy _].
  destruct (lookup_prop "x" pp); try discriminate.
  destruct (lookup_prop "y" pp); try discriminate.
  apply read_value_prim in Hx, Hy. now rewrite Hx, Hy.
Qed.

Lemma read_coord_field (fuel : nat) (h : heap) (r : val) (v : JValue) :
  read_value fuel h r = Some v -> coord_field_ok v = true -> wt_coord_field h r = true.
Proof.
  intros Hread Hok. destruct r as [ | | | | | l]; try reflexivity.
  destruct v as [ | | | | | vs | pp]; try (apply read_value_prim in Hread; discriminate).
  - apply read_value_array in Hread as (fuel' & es & Harr & Hall).
    cbn [array_elems] in Harr. cbn [wt_coord_field].
    destruct (h !! l) as [[qs | es'] | ]; try discriminate. injection Harr as ->.
    cbn [coord_field_ok] in Hok. clear - Hall Hok.
    induction Hall as [ | e v es vs Hev _ IH]; [reflexivity | ].
    cbn [forallb] in *. apply andb_prop in Hok as [Hv Hvs].
    now rewrite (read_point _ _ _ _ Hev Hv), IH.
  - pose proof Hread as Hread'.
    apply read_value_object in Hread as (fuel' & qs & Hobj & Hall).
    pose proof Hobj as Hobj'. cbn [object_props] in Hobj. cbn [wt_coord_field].
    destruct (h !! l) as [[qs' | es'] | ]; try discriminate. injection Hobj as ->.
    cbn [coord_field_ok] in Hok.
    destruct (read_lookup fuel' h "x" qs pp Hall) as [_ ->].
    destruct (read_lookup fuel' h "y" qs pp Hall) as [_ ->].
    destruct (has_prop "x" pp && has_prop "y" pp); [ | reflexivity].
    cbn [implb] in *. exact (read_point _ _ _ _ Hread' Hok).
Qed.

(** A tree that is as [EmitterConfig] declares it is so in the store. *)
Lemma read_emitter (fuel : nat) (h : heap) (r : val) (e : JValue) :
  read_value fuel h r = Some e -> emitter_tree_ok e = true -> wt_emitter h r = true.
Proof.
  destruct e as [ | | | | | | props]; try discriminate. intros Hread Hok.
  apply read_value_object in Hread as (fuel' & qs & Hobj & Hall).
  unfold wt_emitter. rewrite Hobj. cbn [emitter_tree_ok] in Hok.
  apply andb_prop in Hok as [Hpos Hty].
  destruct (read_lookup fuel' h "position" qs props Hall) as [Hp _].
  rewrite (read_point _ _ _ _ Hp Hpos). cbn [andb].
  destruct (read_lookup fuel' h "type" qs props Hall) as [Ht _].
  destruct (lookup_prop "type" props) as [ | | | | ty | | ]; try discriminate.
  apply read_value_prim in Ht. rewrite Ht.
  apply andb_prop in Hty as [-> Hfields]. cbn [andb].
  apply forallb_forall. intros f Hf. rewrite forallb_forall in Hfields.
  destruct (read_lookup fuel' h f qs props Hall) as [Hfv _].
  exact (read_coord_field _ _ _ _ Hfv (Hfields f Hf)).
Qed.

Lemma read_emitters (fuel : nat) (h : heap) (es : list val) (vs : list JValue) :
  Forall2 (fun e v => read_value fuel h e = Some v) es vs ->
  forallb emitter_tree_ok vs = true ->
  forallb (wt_emitter h) es = true.
Proof.
  induction 1 as [ | e v es vs Hev _ IH]; [reflexivity | ].
  cbn [forallb]. intros [Hv Hvs]%andb_prop.
  now rewrite (read_emitter _ _ _ _ Hev Hv), IH.
Qed.

Lemma shape_checked_tree_ok (e : JValue) (ty : string) :
  isEmitterConfig e = true ->
  get e "type" = JStr ty ->
  ty <> "line" -> ty <> "path" ->
  mem_string ty Object_prototype_members = false ->
  emitter_tree_ok e = true.
Proof.
  intros Hshape Hty Hline Hpath Hproto.
  destruct (isEmitterConfig_fields e Hshape) as (_ & _ & Hpos & Hx & Hy & _).
  destruct e as [ | | | | | | props]; try discriminate Hty.
  cbn [get] in *. cbn [emitter_tree_ok]. rewrite Hty, Hproto.
  rewrite (fields_of_other ty Hline Hpath). cbn [negb forallb andb]. rewrite andb_true_r.
  destruct (lookup_prop "position" props) as [ | | | | | | pp]; try discriminate Hx.
  cbn [get is_point] in *.
  destruct (lookup_prop "x" pp); try discriminate Hx.
  destruct (lookup_prop "y" pp); try discriminate Hy. reflexivity.
Qed.

End Trees.

(** X22. The emitters the editor lets in are as the renormaliser needs
    them: an entry that passes the shape check of the import, unless its
    type is line or path or the name of a member of [Object.prototype], and
    every emitter a new layer starts from, of whatever type.  For the types
    line and path the shape check is not enough: a path emitter with a
    [null] waypoint passes it and is not so. *)
Theorem accepted_emitters_well_formed :
  (forall (e : JValue) (ty : string),
      isEmitterConfig e = true ->
      get e "type" = JStr ty ->
      ty <> "line" -> ty <> "path" ->
      mem_string ty Object_prototype_members = false ->
      emitter_tree_ok e = true)
  /\ (forall (type : EmitterType) (cx cy : float),
         emitter_tree_ok (defaultEmitter type cx cy) = true)
  /\ isEmitterConfig broken_path_emitter = true
  /\ emitter_tree_ok broken_path_emitter = false.
Proof.
  split; [exact shape_checked_tree_ok | ].
  split; [intros type cx cy; destruct type; vm_compute; reflexivity | ].
  split; vm_compute; reflexivity.
Qed.

Lemma accepted_emitters_well_formed_tests : emitter_tree_ok point_emitter = true.
Proof.
  apply (proj1 accepted_emitters_well_formed point_emitter "point");
    [vm_compute; reflexivity | reflexivity | discriminate | discriminate
     | vm_compute; reflexivity].
Defined.

(** X23. A resize of emitters the store holds as trees that are as
    [EmitterConfig] declares them never throws: it returns an array of as
    many emitters, and leaves the objects of the store as they were.  The
    path emitter with a [null] waypoint, which the import lets in, makes the
    same resize throw a [TypeError]. *)
Theorem stored_emitters_resize
    (fuel : nat) (h : heap) (emitters : val) (es : list JValue)
    (oldWidth oldHeight newWidth newHeight : float) :
  read_value fuel h emitters = Some (JArr es) ->
  forallb emitter_tree_ok es = true ->
  (exists out outs h',
      recentreEmittersOnResize emitters oldWidth oldHeight newWidth newHeight h
      = (inr out, h')
      /\ heap_extends h h'
      /\ array_elems h' out = Some outs
      /\ length outs = length es)
  /\ (let (r, h0) := store_value (JArr [broken_path_emitter]) [] in
      match r with
      | inr ref =>
          fst (recentreEmittersOnResize ref 800 600 1000 800 h0) = inl TypeError
      | inl _ => False
      end).
Proof.
  intros Hread Hok. split; [ | vm_compute; reflexivity].
  apply read_value_array in Hread as (fuel' & rs & Harr & Hall).
  pose proof (read_emitters _ _ _ _ Hall Hok) as Hwt.
  pose proof (Forall2_length _ _ _ Hall) as Hlen.
  destruct (PrimFloat.eqb (newWidth / 2 - oldWidth / 2) 0
            && PrimFloat.eqb (newHeight / 2 - oldHeight / 2) 0) eqn:Hmove.
  { exists emitters, rs, h. split; [apply (recentre_noop h _ rs); auto | ].
    split; [apply heap_extends_refl | ]. split; [exact Harr | exact Hlen]. }
  destruct rs as [ | r rs].
  { exists emitters, [], h. split; [apply (recentre_noop h _ []); auto | ].
    split; [apply heap_extends_refl | ]. split; [exact Harr | exact Hlen]. }
  destruct (recentre_moves h _ r rs _ _ _ _ Harr Hwt Hmove) as (outs & h1 & Hrun & Hext & Hrec).
  exists (VRef (length h1)), outs, (h1 ++ [CArr outs]).
  split; [exact Hrun | ].
  split; [eapply heap_extends_trans; [exact Hext | apply heap_extends_app] | ].
  split; [cbn [array_elems]; now rewrite lookup_app_r, Nat.sub_diag by lia | ].
  rewrite <- Hlen. symmetry. exact (Forall2_length _ _ _ Hrec).
Qed.

Lemma stored_emitters_resize_tests :
  (exists out outs h',
      recentreEmittersOnResize test_ref 800 600 1000 800 test_store = (inr out, h')
      /\ heap_extends test_store h'
      /\ array_elems h' out = Some outs
      /\ length outs = length [line_emitter; path_emitter; polygon_emitter])
  /\ (let (r, h0) := store_value (JArr [broken_path_emitter]) [] in
      match r with
      | inr ref =>
          fst (recentreEmittersOnResize ref 800 600 1000 800 h0) = inl TypeError
      | inl _ => False
      end).
Proof.
  apply (stored_emitters_resize 10 test_store test_ref
           [line_emitter; path_emitter; polygon_emitter] 800 600 1000 800);
    vm_compute; reflexivity.
Defined.

(** ** Import, then load *)

Section ImportThenLoad.

Variable Text : Type.
Variable load : Text -> string + JValue.

(** X24. Import, then [loadConfig], as the header does: when no emitter
    of the imported configuration is of type line or path or named after a
    member of [Object.prototype], loading it never throws, whatever the size
    of the canvas; the state has the assets given, the size of the canvas
    kept, and the first emitter selected when there is one; and no object of
    the store is written to. *)
Theorem import_then_load
    (yaml : Text) (c : EditorConfig) (es : list JValue)
    (fuel : nat) (h : heap) (config assets : val) (state : EditorStore.EditorState) :
  yamlToEditorConfig load yaml = inr c ->
  emitters c = JArr es ->
  forallb position_only es = true ->
  read_value fuel h config = Some (config_tree c) ->
  exists state' h',
    EditorStore.loadConfig config assets state h = (inr state', h')
    /\ heap_extends h h'
    /\ EditorStore.assets state' = assets
    /\ EditorStore.canvasWidth (EditorStore.ui state')
       = EditorStore.canvasWidth (EditorStore.ui state)
    /\ EditorStore.canvasHeight (EditorStore.ui state')
       = EditorStore.canvasHeight (EditorStore.ui state)
    /\ EditorStore.selectedEmitterIndex (EditorStore.ui state')
       = match es with [] => None | _ :: _ => Some 0 end.
Proof.
  intros Himport Hes Htypes Hread.
  assert (Hshape : Forall (fun e => isEmitterConfig e = true) es).
  { unfold yamlToEditorConfig in Himport.
    destruct (load yaml) as [msg | value]; [discriminate | ].
    injection Himport as <-. cbn [emitters] in Hes. injection Hes as <-.
    destruct (parsed_emitters (toParsedYamlConfig value)); try constructor.
    apply List.Forall_forall. intros e He. now apply filter_In in He. }
  assert (Hok : forallb emitter_tree_ok es = true).
  { apply forallb_forall. intros e He. rewrite forallb_forall in Htypes.
    rewrite List.Forall_forall in Hshape.
    specialize (Htypes e He). specialize (Hshape e He).
    unfold position_only in Htypes.
    destruct (get e "type") as [ | | | | ty | | ] eqn:Hty; try discriminate.
    apply andb_prop in Htypes as [Htypes Hproto]. apply andb_prop in Htypes as [Hline Hpath].
    apply negb_true_iff in Hline, Hpath, Hproto.
    apply String.eqb_neq in Hline, Hpath.
    now apply (shape_checked_tree_ok e ty). }
  unfold config_tree in Hread. rewrite Hes in Hread.
  apply read_value_object in Hread as (fuel1 & props & Hprops & Hall).
  destruct (read_lookup fuel1 h "emitters" props _ Hall) as [Hemit _].
  cbn [lookup_prop String.eqb Ascii.eqb Bool.eqb] in Hemit.
  apply read_value_array in Hemit as (fuel2 & rs & Harr & Hrs).
  pose proof (read_emitters _ _ _ _ Hrs Hok) as Hwt.
  destruct (loadConfig_run h config assets state props rs Hprops Harr Hwt)
    as (config' & emitters' & h' & Hrun & Hext & _).
  eexists _, h'. split; [exact Hrun | ]. split; [exact Hext | ].
  cbn [EditorStore.assets EditorStore.ui EditorStore.canvasWidth EditorStore.canvasHeight
       EditorStore.selectedEmitterIndex].
  repeat split. apply Forall2_length in Hrs. destruct rs, es; try discriminate; reflexivity.
Qed.

End ImportThenLoad.

Lemma import_then_load_sample :
  exists state' h',
    EditorStore.loadConfig sample_ref VNull editor_state sample_store = (inr state', h')
    /\ heap_extends sample_store h'
    /\ EditorStore.assets state' = VNull
    /\ EditorStore.canvasWidth (EditorStore.ui state')
       = EditorStore.canvasWidth (EditorStore.ui editor_state)
    /\ EditorStore.canvasHeight (EditorStore.ui state')
       = EditorStore.canvasHeight (EditorStore.ui editor_state)
    /\ EditorStore.selectedEmitterIndex (EditorStore.ui state')
       = match [point_emitter] with [] => None | _ :: _ => Some 0 end.
Proof.
  apply (import_then_load TreeCodec.Text TreeCodec.load sample_document sample_config
           [point_emitter] 10 sample_store sample_ref VNull editor_state);
    vm_compute; reflexivity.
Defined.
